(** * CSILSPGenerator: random feasible instances of the capacitated
    single-item lot-sizing problem

    A shallow embedding of [CSILSPGenerator.py] (classes [Generator],
    [GeneratorTW_CS] and [GeneratorTW_NCS]) and the properties of its
    sampling, pruning, repair and aggregation stages.

    Conventions of the embedding.
    - Python [int] is [Z].
    - Python [float] is an IEEE 754 double.  The doubles that these
      programs compute are sums of integers, so the finite ones are
      integers themselves: a double is given by its integer value, or it
      is an infinity or NaN, and an operation rounds its exact result to
      53 significant bits, to nearest, ties to even.
    - A Python [dict] is an insertion-ordered finite map: the list of its
      keys in insertion order together with a [gmap] holding the items.
    - The module-level generator [random] is a piece of global state that is
      threaded through [generate] and [seed]; the computations live in a
      state-and-exception monad.  [None] stands for a raised exception
      ([ValueError] of [randint] on an empty range, [KeyError] of a
      subscript on a missing key, [OverflowError] of the conversion of an
      [int] beyond the range of a double).
    - [gurobipy.quicksum(...).getValue()] on plain numbers returns their
      sum as a [float]: the terms are converted to doubles and added in
      order to a double that starts at 0.0. *)

From stdpp Require Import base option list list_numbers numbers sorting gmap.
From stdpp Require Import strings.

Local Open Scope Z_scope.

(** ** Python built-ins *)

(** [range(a, b)] and [range(n)]. *)
Definition range2 (a b : Z) : list Z := seqZ a (b - a).
Definition range (n : Z) : list Z := range2 0 n.

(** A [for] loop whose body may raise: the loop state is threaded through
    the iterations and the first exception aborts the loop. *)
Fixpoint for_each {A S : Type} (l : list A) (body : A → S → option S) (s : S)
  : option S :=
  match l with
  | [] => Some s
  | x :: l' => s' ← body x s; for_each l' body s'
  end.

(** ** Numbers *)

(** A [float]: a finite double, given by its (integer) value, an infinity
    or NaN.  (The sign of a zero is not kept: sums of integers that start
    from 0.0 never produce -0.0.) *)
Inductive float : Type :=
  | Fnum (z : Z)
  | Finf (negative : bool)
  | Fnan.

(** Rounding of a non-negative integer to 53 significant bits, to
    nearest, ties to even: from 2^53 on, the integer is [q * 2^e + r] with
    a 53-bit [q], and goes to [q * 2^e] or [(q + 1) * 2^e]. *)
Definition round_nat (n : Z) : Z :=
  let e := Z.log2 n - 52 in
  if e <=? 0 then n
  else
    let q := n / 2 ^ e in
    let r := n `mod` 2 ^ e in
    if (2 * r <? 2 ^ e) || ((2 * r =? 2 ^ e) && Z.even q)
    then q * 2 ^ e else (q + 1) * 2 ^ e.

Definition round_even (z : Z) : Z := Z.sgn z * round_nat (Z.abs z).

(** The double of an exact integer result: its rounding, or an infinity
    when the rounding is beyond the largest double. *)
Definition fl (z : Z) : float :=
  let r := round_even z in
  if Z.abs r <? 2 ^ 1024 then Fnum r else Finf (z <? 0).

(** [float(z)] for an [int] [z]; it raises [OverflowError] when [z] is
    beyond the range of a double. *)
Definition float_of_int (z : Z) : option float :=
  match fl z with
  | Fnum r => Some (Fnum r)
  | _ => None
  end.

(** [x + y] on [float]s. *)
Definition float_add (x y : float) : float :=
  match x, y with
  | Fnan, _ | _, Fnan => Fnan
  | Fnum a, Fnum b => fl (a + b)
  | Finf s, Fnum _ => Finf s
  | Fnum _, Finf s => Finf s
  | Finf s, Finf s' => if Bool.eqb s s' then Finf s else Fnan
  end.

(** [x < y] on [float]s. *)
Definition float_ltb (x y : float) : bool :=
  match x, y with
  | Fnan, _ | _, Fnan => false
  | Fnum a, Fnum b => a <? b
  | Fnum _, Finf negative => negb negative
  | Finf negative, Fnum _ => negative
  | Finf s, Finf s' => s && negb s'
  end.

(** A Python number: an [int] or a [float]. *)
Inductive num : Type :=
  | Int (z : Z)
  | Float (x : float).

(** The conversion of a number to a double, as arithmetic with a [float]
    does it. *)
Definition to_float (v : num) : option float :=
  match v with
  | Int z => float_of_int z
  | Float x => Some x
  end.

(** [quicksum(f(x) for x in l).getValue()]: the terms are added in order
    to a double that starts at 0.0. *)
Fixpoint quicksum_from {A : Type} (l : list A) (f : A → option num)
    (acc : float) : option float :=
  match l with
  | [] => Some acc
  | x :: l' => v ← f x; c ← to_float v; quicksum_from l' f (float_add acc c)
  end.

Definition quicksum {A : Type} (l : list A) (f : A → option num)
  : option float :=
  quicksum_from l f (Fnum 0).

(** ** Dictionaries *)

Record pydict (K V : Type) `{Countable K} : Type := PyDict {
  dict_keys : list K;
  dict_items : gmap K V
}.
Arguments PyDict {K V _ _} _ _.
Arguments dict_keys {K V _ _} _.
Arguments dict_items {K V _ _} _.

Section dict_ops.
Context {K V : Type} `{Countable K}.

Definition dict_empty : pydict K V := PyDict [] ∅.

(** [d[k]] *)
Definition dict_get (d : pydict K V) (k : K) : option V := dict_items d !! k.

(** [d[k] = v]: an existing key keeps its position, a new key goes last. *)
Definition dict_set (k : K) (v : V) (d : pydict K V) : pydict K V :=
  PyDict (match dict_items d !! k with
          | Some _ => dict_keys d
          | None => dict_keys d ++ [k]
          end)
         (<[k:=v]> (dict_items d)).
End dict_ops.

(** [d[k]] in a dictionary of [int]s, as a number. *)
Definition int_item {K : Type} `{Countable K} (d : pydict K Z) (k : K)
  : option num :=
  Int <$> dict_get d k.

(** A dictionary of [int]s as a dictionary of numbers. *)
Definition ints {K : Type} `{Countable K} (d : pydict K Z) : pydict K num :=
  PyDict (dict_keys d) (Int <$> dict_items d).

(** ** The random source

    The interface of the module [random] that the generators use:
    [random.seed(a)] with an integer [a] resets the state to one determined
    by [a] alone, and [random.randint(a, b)] returns an integer [N] with
    [a <= N <= b] and advances the state, or raises [ValueError] when the
    range is empty. *)
Class RandomSource := {
  rng : Type;
  rd_seed : Z → rng;
  rd_randint : Z → Z → rng → option (Z * rng);
  rd_randint_range a b g v g' :
    rd_randint a b g = Some (v, g') → a ≤ v ≤ b;
  rd_randint_total a b g :
    a ≤ b → is_Some (rd_randint a b g)
}.

(** The argument of [seed]: [None] or an integer. *)
Inductive seed_arg : Type :=
  | SeedNone
  | SeedInt (z : Z).

(** Python truth value of a [seed] argument. *)
Definition truthy (a : seed_arg) : bool :=
  match a with
  | SeedNone => false
  | SeedInt z => negb (z =? 0)
  end.

(** The datasets held by a generator after [generate]. *)
Record dataset := Dataset {
  ds_h : pydict Z Z;
  ds_p : pydict Z Z;
  ds_s : pydict Z Z;
  ds_d : pydict Z Z;
  ds_C : pydict Z Z
}.

Record dataset_tw := DatasetTW {
  tw_h : pydict Z Z;
  tw_p : pydict Z Z;
  tw_s : pydict Z Z;
  tw_d_w : pydict (Z * Z) Z;
  tw_C : pydict Z num;
  tw_d : pydict Z num
}.

(** The keys of [d_w] in the order of the comprehension
    [for i in range(T) for j in range(i,T)]. *)
Definition windows (T : Z) : list (Z * Z) :=
  i ← range T; j ← range2 i T; [(i, j)].

(** The index pairs of
    [for k in range(t1,t2+1) for l in range(k,t2+1)]. *)
Definition windows_in (t1 t2 : Z) : list (Z * Z) :=
  k ← range2 t1 (t2 + 1); l ← range2 k (t2 + 1); [(k, l)].

(** The acceptance test of the pruning stage. *)
Definition ordered_bounds (t1 t2 t3 t4 : Z) : bool :=
  (t1 <=? t3) && (t2 <=? t4) || (t1 >=? t3) && (t2 >=? t4).

(** *** Stages that do not draw random numbers *)

(** Lines 95-100: the repair of the base generator. *)
Definition repair_point (d : pydict Z Z) (k : Z) (C : pydict Z Z)
  : option (pydict Z Z) :=
  ck ← dict_get C k;
  dk ← dict_get d k;
  if ck <? dk then
    c ← dict_get C k; dk' ← dict_get d k; Some (dict_set k (c + dk') C)
  else Some C.

Definition repair_base (T : Z) (d C : pydict Z Z) : option (pydict Z Z) :=
  for_each (range T) (λ t C,
    for_each (range (t + 1)) (repair_point d) C) C.

(** [C[k] += v] for a [float] [v]: the sum is a [float], and an [int]
    in [C[k]] is converted first. *)
Definition dict_add (v : float) (k : Z) (C : pydict Z num)
  : option (pydict Z num) :=
  c ← dict_get C k; x ← to_float c;
  Some (dict_set k (Float (float_add x v)) C).

(** Lines 258-264 and 442-448: the repair of one interval.  The two sums
    and their comparison are in doubles. *)
Definition repair_interval (d_w : pydict (Z * Z) Z) (t2 t1 : Z)
    (C : pydict Z num) : option (pydict Z num) :=
  sum_C ← quicksum (range2 t1 (t2 + 1)) (dict_get C);
  sum_k_l ← quicksum (windows_in t1 t2) (int_item d_w);
  if float_ltb sum_C sum_k_l then
    for_each (range2 t1 (t2 + 1)) (dict_add sum_k_l) C
  else Some C.

(** Lines 256-264 and 440-448. *)
Definition repair_tw (T : Z) (d_w : pydict (Z * Z) Z) (C : pydict Z num)
  : option (pydict Z num) :=
  for_each (range T) (λ t2 C,
    for_each (range (t2 + 1)) (repair_interval d_w t2) C) C.

(** Lines 430-437: one comparison of the pruning stage.  [and] evaluates
    its second operand only when the first is true. *)
Definition prune_pair (w12 w34 : Z * Z) (d_w : pydict (Z * Z) Z)
  : option (pydict (Z * Z) Z) :=
  let '(t1, t2) := w12 in
  let '(t3, t4) := w34 in
  v12 ← dict_get d_w (t1, t2);
  if bool_decide (v12 ≠ 0) then
    v34 ← dict_get d_w (t3, t4);
    if bool_decide (v34 ≠ 0) then
      if ordered_bounds t1 t2 t3 t4 then Some d_w
      else Some (dict_set (t3, t4) 0 d_w)
    else Some d_w
  else Some d_w.

(** Lines 428-437.  The loops iterate over the keys of the dictionary;
    the body assigns to existing keys only, so the keys and their order
    are those at loop entry. *)
Definition prune (d_w : pydict (Z * Z) Z) : option (pydict (Z * Z) Z) :=
  for_each (dict_keys d_w) (λ w12 d_w,
    for_each (dict_keys d_w) (prune_pair w12) d_w) d_w.

(** ** The generators *)

Section generators.
Context `{RandomSource}.

(** Computations over the global random state that may raise. *)
Definition M (A : Type) : Type := rng → option (A * rng).

#[export] Instance M_ret : MRet M := λ A x g, Some (x, g).
#[export] Instance M_bind : MBind M := λ A B f m g,
  match m g with
  | Some (x, g') => f x g'
  | None => None
  end.

(** A computation that leaves the random state alone. *)
Definition lift {A : Type} (o : option A) : M A :=
  λ g, x ← o; Some (x, g).

(** [rd.randint(a,b)] *)
Definition randint (a b : Z) : M Z := rd_randint a b.

(** [if a: rd.seed(a)], the body of [seed] in the three classes.  The
    call [rd.seed(a)] is reached with an integer only: [None] is falsy. *)
Definition seed (a : seed_arg) : M unit :=
  λ g, if truthy a
       then match a with
            | SeedInt z => Some ((), rd_seed z)
            | SeedNone => Some ((), g)
            end
       else Some ((), g).

(** [{ k: f(k) for k in l }] *)
Fixpoint dict_comp_from {K V : Type} `{Countable K}
    (l : list K) (f : K → M V) (acc : pydict K V) : M (pydict K V) :=
  match l with
  | [] => mret acc
  | k :: l' => v ← f k; dict_comp_from l' f (dict_set k v acc)
  end.

Definition dict_comp {K V : Type} `{Countable K}
    (l : list K) (f : K → M V) : M (pydict K V) :=
  dict_comp_from l f dict_empty.

(** [{ i:rd.randint(a,b) for i in range(self.T) }] *)
Definition sample_periods (T a b : Z) : M (pydict Z Z) :=
  dict_comp (range T) (λ _, randint a b).

(** Lines 254 and 425. *)
Definition sample_windows (T dw_a dw_b : Z) : M (pydict (Z * Z) Z) :=
  dict_comp (windows T)
    (λ '(i, j), if bool_decide (i ≠ j) then randint dw_a dw_b else mret 0).

(** Lines 265 and 449: every [d[t]] is a [float]. *)
Definition aggregate (T : Z) (d_w : pydict (Z * Z) Z) : M (pydict Z num) :=
  dict_comp (range T)
    (λ t, x ← lift (quicksum (range (t + 1)) (λ t1, int_item d_w (t1, t)));
          mret (Float x)).

(** [Generator.generate] *)
Definition generate (T a b : Z) : M dataset :=
  h ← sample_periods T a b;
  p ← sample_periods T a b;
  s ← sample_periods T a b;
  d ← sample_periods T a b;
  C ← sample_periods T a b;
  C ← lift (repair_base T d C);
  mret (Dataset h p s d C).

(** [GeneratorTW_CS.generate] *)
Definition generate_CS (T a b dw_a dw_b : Z) : M dataset_tw :=
  h ← sample_periods T a b;
  p ← sample_periods T a b;
  s ← sample_periods T a b;
  d_w ← sample_windows T dw_a dw_b;
  C ← sample_periods T a b;
  C ← lift (repair_tw T d_w (ints C));
  d ← aggregate T d_w;
  mret (DatasetTW h p s d_w C d).

(** [GeneratorTW_NCS.generate] *)
Definition generate_NCS (T a b dw_a dw_b : Z) : M dataset_tw :=
  h ← sample_periods T a b;
  p ← sample_periods T a b;
  s ← sample_periods T a b;
  d_w ← sample_windows T dw_a dw_b;
  d_w ← lift (prune d_w);
  C ← sample_periods T a b;
  C ← lift (repair_tw T d_w (ints C));
  d ← aggregate T d_w;
  mret (DatasetTW h p s d_w C d).
End generators.

(** ** A scripted random source

    A random source that replays a script of raw draws: [randint(a,b)]
    maps the next raw number into [[a,b]]; when the script is exhausted it
    returns the lower bound.  It is used to run the generators on concrete
    draws. *)
Definition script_randint (a b : Z) (g : list Z) : option (Z * list Z) :=
  if bool_decide (a ≤ b) then
    match g with
    | [] => Some (a, [])
    | x :: g' => Some (a + x `mod` (b - a + 1), g')
    end
  else None.

Definition script_seed (v : Z) : list Z :=
  (λ i, v * i + i) <$> seqZ 1 32.

#[export] Instance ScriptedSource : RandomSource.
Proof.
  refine {| rng := list Z; rd_seed := script_seed;
            rd_randint := script_randint |}.
  - intros a b g v g'. unfold script_randint.
    case_bool_decide; [|done].
    destruct g as [|x g0]; intros [= <- <-]; [lia|].
    pose proof (Z.mod_pos_bound x (b - a + 1)). lia.
  - intros a b g Hab. unfold script_randint.
    rewrite bool_decide_eq_true_2 by done. destruct g; eauto.
Defined.

(** ** Vocabulary of the specification *)

(** The keys listed by a dictionary are the keys it holds items for. *)
Definition dict_wf {K V : Type} `{Countable K} (d : pydict K V) : Prop :=
  dom (dict_items d) = list_to_set (C := gset K) (dict_keys d).

(** The number stored under [k] (0 when [k] is not a key). *)
Definition dict_val {K : Type} `{Countable K} (d : pydict K Z) (k : K) : Z :=
  default 0 (dict_get d k).

Definition Zsum {A : Type} (f : A → Z) (l : list A) : Z :=
  foldr (λ x r, f x + r) 0 l.

(** The order of the number line, extended by the infinities, on
    [float]s; NaN is not comparable with anything. *)
Definition float_le (x y : float) : Prop :=
  match x, y with
  | Fnan, _ | _, Fnan => False
  | Finf true, _ => True
  | _, Finf false => True
  | Fnum a, Fnum b => a ≤ b
  | _, _ => False
  end.

#[export] Instance float_le_dec x y : Decision (float_le x y).
Proof. destruct x as [a|[]|], y as [b|[]|]; simpl; apply _. Defined.

(** The value of a number as a point of the number line: an [int] stands
    for itself, exactly. *)
Definition value (v : num) : float :=
  match v with
  | Int z => Fnum z
  | Float x => x
  end.

(** [v <= w] on numbers: Python compares an [int] with a [float] by
    their exact values. *)
Definition num_le (v w : num) : Prop := float_le (value v) (value w).

(** A [float] that is a double: a finite value is its own rounding and
    lies below 2^1024. *)
Definition double (x : float) : Prop :=
  match x with
  | Fnum z => round_even z = z ∧ Z.abs z < 2 ^ 1024
  | _ => True
  end.

(** The double that the term [f x] of a sum contributes. *)
Definition term {A : Type} (f : A → option num) (x : A) : option float :=
  v ← f x; to_float v.

(** The sum of the doubles [cs], added in order to [acc]. *)
Definition float_sum (acc : float) (cs : list float) : float :=
  foldl float_add acc cs.

(** The integer that a finite number stands for (0 for an infinity and
    for NaN). *)
Definition num_Z (v : num) : Z :=
  match value v with
  | Fnum z => z
  | _ => 0
  end.

(** A number that is an integer of magnitude at most [B]. *)
Definition within (B : Z) (v : num) : Prop :=
  ∃ z, value v = Fnum z ∧ Z.abs z ≤ B.

(** The number stored under [k], as an integer and as a point of the
    number line (0 when [k] is not a key). *)
Definition dict_num (C : pydict Z num) (k : Z) : Z :=
  default 0 (num_Z <$> dict_get C k).

Definition dict_value (C : pydict Z num) (k : Z) : float :=
  default (Fnum 0) (value <$> dict_get C k).

(** Total capacity of the periods [t1..t2]. *)
Definition capacity_in (C : pydict Z num) (t1 t2 : Z) : Z :=
  Zsum (dict_num C) (range2 t1 (t2 + 1)).

(** Total demand of the windows [(k,l)] with [t1 <= k <= l <= t2]. *)
Definition demand_in (d_w : pydict (Z * Z) Z) (t1 t2 : Z) : Z :=
  Zsum (dict_val d_w) (windows_in t1 t2).

(** Total demand of the windows that end at [t]. *)
Definition demand_due (d_w : pydict (Z * Z) Z) (t : Z) : Z :=
  Zsum (λ t1, dict_val d_w (t1, t)) (range (t + 1)).

(** Pointwise order on capacities. *)
Definition dict_le (C C' : pydict Z Z) : Prop :=
  ∀ k, dict_val C k ≤ dict_val C' k.

(** Pointwise order on capacities that may hold [float]s. *)
Definition caps_le (C C' : pydict Z num) : Prop :=
  ∀ k, float_le (dict_value C k) (dict_value C' k).

(** Window [x] lies strictly inside window [y]: [y] starts earlier and
    ends later. *)
Definition strictly_inside (x y : Z * Z) : Prop :=
  y.1 < x.1 ∧ x.2 < y.2.

#[export] Instance strictly_inside_dec x y : Decision (strictly_inside x y).
Proof. unfold strictly_inside. apply _. Defined.

(** The bounds of two windows are ordered componentwise, one way or the
    other. *)
Definition comparable (x y : Z * Z) : Prop :=
  (x.1 ≤ y.1 ∧ x.2 ≤ y.2) ∨ (x.1 >= y.1 ∧ x.2 >= y.2).

#[export] Instance comparable_dec x y : Decision (comparable x y).
Proof. unfold comparable. apply _. Defined.

(** The iterations of the two nested repair loops, in execution order:
    the pairs [(t2, t1)] (base generator: [(t, k)]). *)
Definition repair_schedule (T : Z) : list (Z * Z) :=
  t2 ← range T; t1 ← range (t2 + 1); [(t2, t1)].

(** The single pass of the specification for the base repair: one visit of
    each period [k] in [0..T-1], applying
    [if C[k] < d[k] then C[k] += d[k]]. *)
Definition repair_single_pass (T : Z) (d C : pydict Z Z)
  : option (pydict Z Z) :=
  for_each (range T) (repair_point d) C.

(** The two-phase pruning of the specification: a window is zeroed when
    another window with nonzero sampled demand starts strictly earlier and
    ends strictly later; every other window keeps its sampled demand. *)
Definition dominated_in (l : list (Z * Z)) (d_w : pydict (Z * Z) Z)
    (x : Z * Z) : Prop :=
  Exists (λ y, dict_val d_w y ≠ 0 ∧ strictly_inside x y) l.

#[export] Instance dominated_in_dec l d_w x : Decision (dominated_in l d_w x).
Proof. unfold dominated_in. apply _. Defined.

Definition dominated (d_w : pydict (Z * Z) Z) (x : Z * Z) : Prop :=
  dominated_in (dict_keys d_w) d_w x.

#[export] Instance dominated_dec d_w x : Decision (dominated d_w x).
Proof. unfold dominated. apply _. Defined.

Definition prune_two_phase (d_w : pydict (Z * Z) Z) : pydict (Z * Z) Z :=
  PyDict (dict_keys d_w)
    (map_imap (λ x v, Some (if decide (dominated d_w x) then 0 else v))
       (dict_items d_w)).

(** A period dictionary as sampled: one key per period, in order, each
    value within the bounds. *)
Definition periods_within (T lo hi : Z) (d : pydict Z Z) : Prop :=
  dict_keys d = range T ∧ dict_wf d ∧
  ∀ t, 0 ≤ t < T → ∃ v, dict_get d t = Some v ∧ lo ≤ v ≤ hi.

(** A window dictionary as sampled: one key per window [(i,j)] with
    [0 <= i <= j <= T-1], zero on the diagonal and within the bounds
    elsewhere. *)
Definition windows_within (T lo hi : Z) (d_w : pydict (Z * Z) Z) : Prop :=
  dict_keys d_w = windows T ∧ dict_wf d_w ∧
  ∀ i j, 0 ≤ i ≤ j ∧ j < T →
    ∃ v, dict_get d_w (i, j) = Some v ∧
         (i = j → v = 0) ∧ (i ≠ j → lo ≤ v ≤ hi).

(** The shape of a dictionary: its keys in order and the set of keys that
    hold an item. *)
Definition dict_shape {K V : Type} `{Countable K} (d : pydict K V)
  : list K * gset K :=
  (dict_keys d, dom (dict_items d)).

(** No capacity is negative. *)
Definition nonneg (C : pydict Z Z) : Prop := ∀ k, 0 ≤ dict_val C k.

(** Period [k] has capacity for its own demand. *)
Definition covers (d C : pydict Z Z) (k : Z) : Prop :=
  ∃ c dk, dict_get C k = Some c ∧ dict_get d k = Some dk ∧ dk ≤ c.

(** Every single iteration of a loop, run from whatever state the loop has
    reached, leaves each capacity at least as large as it found it; [le]
    is the order on the capacities. *)
Definition updates_monotone {X S : Type} (le : S → S → Prop) (steps : list X)
    (step : X → S → option S) (C0 : S) : Prop :=
  ∀ past x rest C1 C2,
    steps = past ++ x :: rest →
    for_each past step C0 = Some C1 →
    step x C1 = Some C2 →
    le C1 C2.

(** The value a single visit of period [k] leaves in [C[k]]. *)
Definition repaired (d C : pydict Z Z) (k : Z) : Z :=
  if dict_val C k <? dict_val d k then dict_val C k + dict_val d k
  else dict_val C k.

(** One iteration of the nested repair loops, as a function of the
    schedule entry. *)
Definition base_step (d : pydict Z Z) (x : Z * Z) :=
  repair_point d x.2.

Definition tw_step (d_w : pydict (Z * Z) Z) (x : Z * Z) :=
  repair_interval d_w x.1 x.2.

(** Every single [C[k] += sum_k_l] of the interval repair, run from
    whatever state the loops have reached, leaves each capacity at least
    as large as it found it. *)
Definition additions_monotone (T : Z) (d_w : pydict (Z * Z) Z)
    (C0 : pydict Z num) : Prop :=
  ∀ past t2 t1 rest C1 sum_C sum_k_l,
    repair_schedule T = past ++ (t2, t1) :: rest →
    for_each past (tw_step d_w) C0 = Some C1 →
    quicksum (range2 t1 (t2 + 1)) (dict_get C1) = Some sum_C →
    quicksum (windows_in t1 t2) (int_item d_w) = Some sum_k_l →
    float_ltb sum_C sum_k_l = true →
    updates_monotone caps_le (range2 t1 (t2 + 1)) (dict_add sum_k_l) C1.

(** The interval [[t1,t2]] passes the check of the repair: its two sums
    are computed and [sum_C < sum_k_l] is false. *)
Definition passes_check (d_w : pydict (Z * Z) Z) (C : pydict Z num)
    (t1 t2 : Z) : Prop :=
  ∃ sum_C sum_k_l,
    quicksum (range2 t1 (t2 + 1)) (dict_get C) = Some sum_C ∧
    quicksum (windows_in t1 t2) (int_item d_w) = Some sum_k_l ∧
    float_ltb sum_C sum_k_l = false.

(** A capacity as the repair keeps it on samples that are not negative:
    an [int] that is not negative, or a [float] that is a double and
    neither negative nor NaN. *)
Definition cap_ok (v : num) : Prop :=
  match v with
  | Int z => 0 ≤ z
  | Float x => float_le (Fnum 0) x ∧ double x
  end.

Definition caps_ok (C : pydict Z num) : Prop :=
  ∀ k v, dict_get C k = Some v → cap_ok v.

(** [C'] is [C] after additions to some of its capacities: the keys are
    those of [C], and a capacity is the one of [C], or it is a [float] and
    the capacity of [C] had a double. *)
Definition updated (C C' : pydict Z num) : Prop :=
  dict_shape C' = dict_shape C ∧
  ∀ k, dict_get C' k = dict_get C k ∨
       ∃ x', dict_get C' k = Some (Float x') ∧ is_Some (term (dict_get C) k).

(** Every capacity is an integer of magnitude at most [B]. *)
Definition caps_within (B : Z) (C : pydict Z num) : Prop :=
  ∀ k v, dict_get C k = Some v → within B v.

(** Every window of the horizon carries a demand of magnitude at most
    [M]. *)
Definition demand_within (M T : Z) (d_w : pydict (Z * Z) Z) : Prop :=
  ∀ k l, 0 ≤ k ≤ l ∧ l < T →
    ∃ z, dict_get d_w (k, l) = Some z ∧ Z.abs z ≤ M.

(** The bounds have doubles: no integer between them raises
    [OverflowError] when it is converted. *)
Definition in_double_range (lo hi : Z) : Prop :=
  is_Some (float_of_int lo) ∧ is_Some (float_of_int hi).

(** The sums of the aggregation are exact: no sum of at most [T] window
    demands between [dw_a] and [dw_b] leaves the integers that a double
    holds exactly. *)
Definition exact_demand (T dw_a dw_b : Z) : Prop :=
  T * Z.max (Z.abs dw_a) (Z.abs dw_b) ≤ 2 ^ 53.

(** The sums of the repair are exact.  A sum of window demands has at
    most [T * T] terms; the repair adds such a sum to a capacity at most
    [T * T] times; and a sum of capacities has at most [T] terms. *)
Definition exact_range (T a b dw_a dw_b : Z) : Prop :=
  T * (Z.max (Z.abs a) (Z.abs b)
       + T * T * (T * T * Z.max (Z.abs dw_a) (Z.abs dw_b))) ≤ 2 ^ 53.

(** The keys of a window dictionary are the pairs [(i,j)] with
    [0 <= i <= j <= T-1], each listed once. *)
Definition window_keys (T : Z) (d_w : pydict (Z * Z) Z) : Prop :=
  NoDup (dict_keys d_w) ∧
  ∀ i j, (i, j) ∈ dict_keys d_w ↔ 0 ≤ i ≤ j ∧ j < T.

(** The bounds on a dataset of the base generator: costs and demand as
    sampled, and the capacity repaired from a sample [C0] within the
    bounds. *)
Definition base_bounds (T a b : Z) (ds : dataset) : Prop :=
  periods_within T a b (ds_h ds) ∧ periods_within T a b (ds_p ds) ∧
  periods_within T a b (ds_s ds) ∧ periods_within T a b (ds_d ds) ∧
  ∃ C0, periods_within T a b C0 ∧
        repair_base T (ds_d ds) C0 = Some (ds_C ds).

(** The bounds on a dataset of the CS generator. *)
Definition cs_bounds (T a b dw_a dw_b : Z) (ds : dataset_tw) : Prop :=
  periods_within T a b (tw_h ds) ∧ periods_within T a b (tw_p ds) ∧
  periods_within T a b (tw_s ds) ∧
  windows_within T dw_a dw_b (tw_d_w ds) ∧ window_keys T (tw_d_w ds) ∧
  ∃ C0, periods_within T a b C0 ∧
        repair_tw T (tw_d_w ds) (ints C0) = Some (tw_C ds).

(** The bounds on a dataset of the NCS generator: the window demand is
    pruned from a sample [d_w0] within the bounds. *)
Definition ncs_bounds (T a b dw_a dw_b : Z) (ds : dataset_tw) : Prop :=
  periods_within T a b (tw_h ds) ∧ periods_within T a b (tw_p ds) ∧
  periods_within T a b (tw_s ds) ∧
  (∃ d_w0, windows_within T dw_a dw_b d_w0 ∧ prune d_w0 = Some (tw_d_w ds)) ∧
  window_keys T (tw_d_w ds) ∧
  (∀ i, 0 ≤ i < T → dict_get (tw_d_w ds) (i, i) = Some 0) ∧
  ∃ C0, periods_within T a b C0 ∧
        repair_tw T (tw_d_w ds) (ints C0) = Some (tw_C ds).

(** A dictionary written out as a list of items. *)
Definition dict_of_list {K V : Type} `{Countable K} (l : list (K * V))
  : pydict K V :=
  foldl (λ d kv, dict_set kv.1 kv.2 d) dict_empty l.

(** The pruning scenario of the specification on [T = 4]: window [(0,3)]
    carries 4, window [(1,2)] carries 2, every other window carries 0. *)
Definition scenario_d_w : pydict (Z * Z) Z :=
  dict_of_list
    ((λ w, (w, if decide (w = (0, 3)) then 4
               else if decide (w = (1, 2)) then 2 else 0)) <$> windows 4).

(** ** The generator objects

    An instance of one of the three classes, as the attributes the classes
    assign: [T] is set by [__init__], the others by [generate]; [None] is
    an attribute that has not been assigned ([Generator] never assigns
    [d_w]).  The numbers [V] that [d] and [C] hold are [int]s in the base
    class and [int]s or [float]s in the time-window classes.  A method
    runs on the instance and the shared random source; when it raises, the
    instance keeps what was assigned before the raise (the state of the
    random source after a raise is not modelled). *)
Record instance (V : Type) : Type := Instance {
  self_T : Z;
  self_h : option (pydict Z Z);
  self_p : option (pydict Z Z);
  self_s : option (pydict Z Z);
  self_d_w : option (pydict (Z * Z) Z);
  self_C : option (pydict Z V);
  self_d : option (pydict Z V)
}.
Arguments Instance {V} _ _ _ _ _ _ _.
Arguments self_T {V} _.
Arguments self_h {V} _.
Arguments self_p {V} _.
Arguments self_s {V} _.
Arguments self_d_w {V} _.
Arguments self_C {V} _.
Arguments self_d {V} _.

(** [self.T = T], the body of [__init__] in the three classes. *)
Definition __init__ {V : Type} (T : Z) : instance V :=
  Instance T None None None None None None.

(** The assignments [self.h = v], ..., [self.d = v]. *)
Definition assign_h {V : Type} (v : pydict Z Z) (o : instance V) : instance V :=
  Instance (self_T o) (Some v) (self_p o) (self_s o) (self_d_w o) (self_C o)
    (self_d o).
Definition assign_p {V : Type} (v : pydict Z Z) (o : instance V) : instance V :=
  Instance (self_T o) (self_h o) (Some v) (self_s o) (self_d_w o) (self_C o)
    (self_d o).
Definition assign_s {V : Type} (v : pydict Z Z) (o : instance V) : instance V :=
  Instance (self_T o) (self_h o) (self_p o) (Some v) (self_d_w o) (self_C o)
    (self_d o).
Definition assign_d_w {V : Type} (v : pydict (Z * Z) Z) (o : instance V)
  : instance V :=
  Instance (self_T o) (self_h o) (self_p o) (self_s o) (Some v) (self_C o)
    (self_d o).
Definition assign_C {V : Type} (v : pydict Z V) (o : instance V) : instance V :=
  Instance (self_T o) (self_h o) (self_p o) (self_s o) (self_d_w o) (Some v)
    (self_d o).
Definition assign_d {V : Type} (v : pydict Z V) (o : instance V) : instance V :=
  Instance (self_T o) (self_h o) (self_p o) (self_s o) (self_d_w o) (self_C o)
    (Some v).

(** [list(d.values())]: the values in the order of the keys. *)
Definition dict_values {K V : Type} `{Countable K} (d : pydict K V) : list V :=
  omap (λ k, dict_items d !! k) (dict_keys d).

(** [list(s)] for a string [s]: its characters, as strings. *)
Definition list_of_string (s : string) : list string :=
  (λ c, String c EmptyString) <$> String.list_ascii_of_string s.

(** The numbers that the dictionaries of a class hold, as Python
    numbers. *)
Class PyNum (V : Type) := to_num : V → num.
#[export] Instance Z_PyNum : PyNum Z := Int.
#[export] Instance num_PyNum : PyNum num := λ v, v.

Definition is_int (v : num) : bool :=
  match v with
  | Int _ => true
  | Float _ => false
  end.

(** A column as a [pandas.DataFrame] stores it.  A column has one type:
    a column of [int]s keeps its values; a column with a [float] in it is
    a column of doubles, and its [int]s are converted.  (The conversion of
    an [int] beyond the range of a double is not modelled and stands as an
    exception.) *)
Definition pd_column (l : list num) : option (list num) :=
  if forallb is_int l then Some l
  else mapM (λ v, Float <$> to_float v) l.

(** A [pandas.DataFrame] of numeric columns: the name of the index, the
    index, and the columns in order, each with its name. *)
Record DataFrame : Type := MkDataFrame {
  df_index_name : option string;
  df_index : list Z;
  df_columns : list (string * list num)
}.

(** [pd.DataFrame(data, columns=columns)], as far as [printData] uses
    it: the requested columns are taken from [data] in the requested
    order, the index is [0..n-1] for their common length [n], and columns
    of different lengths raise [ValueError].  ([printData] requests keys of
    [data] only; a request for a missing key, which pandas fills with
    missing values, is not modelled and stands as an exception.) *)
Definition pd_DataFrame (data : pydict string (list num))
    (columns : list string) : option DataFrame :=
  cols ← mapM (λ c, v ← dict_get data c; col ← pd_column v; Some (c, col))
            columns;
  let n := match cols with [] => 0%nat | cv :: _ => length cv.2 end in
  if bool_decide (Forall (λ cv, length cv.2 = n) cols)
  then Some (MkDataFrame None (range (Z.of_nat n)) cols)
  else None.

(** [df.index.rename(name, inplace=True)] *)
Definition index_rename (name : string) (df : DataFrame) : DataFrame :=
  MkDataFrame (Some name) (df_index df) (df_columns df).

Section methods.
Context `{RandomSource}.

(** A method body: it runs on the instance and the random source and
    returns the instance together with its result and the new state of
    the random source, or [None] when it raised. *)
Definition Method (V A : Type) : Type :=
  instance V → rng → instance V * option (A * rng).

#[export] Instance Method_ret {V : Type} : MRet (Method V) :=
  λ A x o g, (o, Some (x, g)).
#[export] Instance Method_bind {V : Type} : MBind (Method V) :=
  λ A B f m o g,
  match m o g with
  | (o', Some (x, g')) => f x o' g'
  | (o', None) => (o', None)
  end.

(** The evaluation of an expression that does not assign to the
    instance. *)
Definition eval {V A : Type} (m : M A) : Method V A := λ o g, (o, m g).

(** The attribute reference [self.x]; it raises [AttributeError] when the
    attribute has not been assigned. *)
Definition attr {V A : Type} (x : instance V → option A) : Method V A :=
  λ o g, (o, v ← x o; Some (v, g)).

(** An assignment to an attribute. *)
Definition assign {V : Type} (f : instance V → instance V) : Method V unit :=
  λ o g, (f o, Some ((), g)).

(** [for x in l: body] in a method. *)
Fixpoint for_ {V A : Type} (l : list A) (body : A → Method V unit)
  : Method V unit :=
  match l with
  | [] => mret ()
  | x :: l' => body x;; for_ l' body
  end.

(** The getters of the three classes ([get_dw] is a method of the two
    time-window classes). *)
Definition get_T {V : Type} : Method V Z := attr (λ o, Some (self_T o)).
Definition get_d {V : Type} : Method V (pydict Z V) := attr self_d.
Definition get_dw {V : Type} : Method V (pydict (Z * Z) Z) := attr self_d_w.
Definition get_C {V : Type} : Method V (pydict Z V) := attr self_C.
Definition get_h {V : Type} : Method V (pydict Z Z) := attr self_h.
Definition get_p {V : Type} : Method V (pydict Z Z) := attr self_p.
Definition get_s {V : Type} : Method V (pydict Z Z) := attr self_s.

(** The method [Generator.generate] (lines 89-100).  The repair loops
    update the dictionary [self.C] in place; they cannot raise on the
    dictionaries just assigned and are taken by their effect on
    completion. *)
Definition Generator_generate (a b : Z) : Method Z unit :=
  T ← get_T;
  h ← eval (sample_periods T a b); assign (assign_h h);;
  p ← eval (sample_periods T a b); assign (assign_p p);;
  s ← eval (sample_periods T a b); assign (assign_s s);;
  d ← eval (sample_periods T a b); assign (assign_d d);;
  C ← eval (sample_periods T a b); assign (assign_C C);;
  C ← attr self_C; d ← attr self_d;
  C ← eval (lift (repair_base T d C)); assign (assign_C C).

(** [self.C[k] += v], an update of the dictionary [self.C] in place. *)
Definition self_C_add (v : float) (k : Z) : Method num unit :=
  C ← attr self_C; C ← eval (lift (dict_add v k C)); assign (assign_C C).

(** Lines 258-264 and 442-448 on the instance: a sum may raise
    [OverflowError] after earlier iterations have updated [self.C]. *)
Definition self_repair_interval (t2 t1 : Z) : Method num unit :=
  C ← attr self_C;
  sum_C ← eval (lift (quicksum (range2 t1 (t2 + 1)) (dict_get C)));
  d_w ← attr self_d_w;
  sum_k_l ← eval (lift (quicksum (windows_in t1 t2) (int_item d_w)));
  if float_ltb sum_C sum_k_l then
    for_ (range2 t1 (t2 + 1)) (self_C_add sum_k_l)
  else mret ().

(** Lines 256-264 and 440-448 on the instance. *)
Definition self_repair (T : Z) : Method num unit :=
  for_ (range T) (λ t2, for_ (range (t2 + 1)) (self_repair_interval t2)).

(** The method [GeneratorTW_CS.generate] (lines 250-265). *)
Definition GeneratorTW_CS_generate (a b dw_a dw_b : Z) : Method num unit :=
  T ← get_T;
  h ← eval (sample_periods T a b); assign (assign_h h);;
  p ← eval (sample_periods T a b); assign (assign_p p);;
  s ← eval (sample_periods T a b); assign (assign_s s);;
  d_w ← eval (sample_windows T dw_a dw_b); assign (assign_d_w d_w);;
  C ← eval (sample_periods T a b); assign (assign_C (ints C));;
  self_repair T;;
  d_w ← attr self_d_w;
  d ← eval (aggregate T d_w); assign (assign_d d).

(** The method [GeneratorTW_NCS.generate] (lines 421-449).  The pruning
    updates [self.d_w] in place; it cannot raise on the dictionary just
    assigned and is taken by its effect on completion. *)
Definition GeneratorTW_NCS_generate (a b dw_a dw_b : Z) : Method num unit :=
  T ← get_T;
  h ← eval (sample_periods T a b); assign (assign_h h);;
  p ← eval (sample_periods T a b); assign (assign_p p);;
  s ← eval (sample_periods T a b); assign (assign_s s);;
  d_w ← eval (sample_windows T dw_a dw_b); assign (assign_d_w d_w);;
  d_w ← attr self_d_w;
  d_w ← eval (lift (prune d_w)); assign (assign_d_w d_w);;
  C ← eval (sample_periods T a b); assign (assign_C (ints C));;
  self_repair T;;
  d_w ← attr self_d_w;
  d ← eval (aggregate T d_w); assign (assign_d d).

(** The method [printData] of the three classes. *)
Definition printData {V : Type} `{PyNum V} : Method V DataFrame :=
  T ← get_T;
  d ← attr self_d; C ← attr self_C; h ← attr self_h;
  p ← attr self_p; s ← attr self_s;
  let data :=
    dict_set "s" (Int <$> dict_values s) (dict_set "p" (Int <$> dict_values p)
      (dict_set "h" (Int <$> dict_values h)
        (dict_set "C" (to_num <$> dict_values C)
          (dict_set "d" (to_num <$> dict_values d)
            (dict_set "T" (Int <$> range T) dict_empty))))) in
  df ← eval (lift (pd_DataFrame data (list_of_string "dChps")));
  mret (index_rename "T" df).
End methods.

(** A dictionary with one key per period, in order. *)
Definition period_dict {V : Type} (T : Z) (d : pydict Z V) : Prop :=
  dict_keys d = range T ∧ dict_wf d.

(** What a time-window [generate] leaves behind when it raises.  Either
    nothing was assigned (the bounds [a], [b] are out of order); or the
    three cost dictionaries were (the bounds [dw_a], [dw_b] are out of
    order); or a sum of the repair or of the aggregation raised
    [OverflowError], which needs bounds beyond the range of a double: then
    the cost dictionaries, the window demand (sampled within its bounds,
    and pruned in the NCS class) and the capacity were assigned, the
    capacity sampled within its bounds and possibly repaired in part. *)
Definition tw_raise_outcome (self : instance num) (a b dw_a dw_b : Z)
    (self' : instance num) : Prop :=
  (0 < self_T self ∧ b < a ∧ self' = self) ∨
  (1 < self_T self ∧ a ≤ b ∧ dw_b < dw_a ∧
   ∃ h p s,
     periods_within (self_T self) a b h ∧
     periods_within (self_T self) a b p ∧
     periods_within (self_T self) a b s ∧
     self' = assign_s s (assign_p p (assign_h h self))) ∨
  (0 < self_T self ∧ a ≤ b ∧
   ¬ (in_double_range a b ∧ in_double_range dw_a dw_b) ∧
   ∃ h p s d_w0 d_w C0 C,
     periods_within (self_T self) a b h ∧
     periods_within (self_T self) a b p ∧
     periods_within (self_T self) a b s ∧
     windows_within (self_T self) dw_a dw_b d_w0 ∧
     (d_w = d_w0 ∨ prune d_w0 = Some d_w) ∧
     periods_within (self_T self) a b C0 ∧ updated (ints C0) C ∧
     self' = assign_C C (assign_d_w d_w
               (assign_s s (assign_p p (assign_h h self))))).

(** The column [col] of a table with one row per period shows the
    dictionary [d]: row [t] holds [d[t]], or the double of [d[t]] when
    the column holds doubles. *)
Definition column_of {V : Type} `{PyNum V} (T : Z) (col : list num)
    (d : pydict Z V) : Prop :=
  length col = Z.to_nat T ∧
  ∀ t, 0 ≤ t < T →
    ∃ v cell, dict_get d t = Some v ∧ col !! Z.to_nat t = Some cell ∧
              (cell = to_num v ∨ Float <$> to_float (to_num v) = Some cell).

(** The column holds the numbers of the dictionary themselves. *)
Definition column_is {V : Type} `{PyNum V} (T : Z) (col : list num)
    (d : pydict Z V) : Prop :=
  length col = Z.to_nat T ∧
  ∀ t, 0 ≤ t < T →
    ∃ v, dict_get d t = Some v ∧ col !! Z.to_nat t = Some (to_num v).

(** The table of [printData] for the dictionaries [d], [C], [h], [p],
    [s]: the index is named [T] and runs over the periods, the columns are
    [d], [C], [h], [p], [s] in this order; the columns hold the numbers of
    the dictionaries, the column [C] as [shows_C] says. *)
Definition table_of {V : Type} `{PyNum V}
    (shows_C : Z → list num → pydict Z V → Prop) (T : Z) (df : DataFrame)
    (d C : pydict Z V) (h p s : pydict Z Z) : Prop :=
  df_index_name df = Some "T" ∧ df_index df = range T ∧
  ∃ cd cC ch cp cs,
    df_columns df = [("d", cd); ("C", cC); ("h", ch); ("p", cp); ("s", cs)] ∧
    column_is T cd d ∧ shows_C T cC C ∧ column_is T ch h ∧
    column_is T cp p ∧ column_is T cs s.


(** * Properties *)

(** ** Loops *)

Section loops.
Context {A S : Type}.
Implicit Types (l : list A) (body : A → S → option S).

Lemma for_each_app l1 l2 body s :
  for_each (l1 ++ l2) body s = s' ← for_each l1 body s; for_each l2 body s'.
Proof.
  revert s. induction l1 as [|x l1 IH]; intros s; simpl; [done|].
  destruct (body x s) as [s1|]; simpl; [apply IH|done].
Qed.

Lemma for_each_snoc l x body s :
  for_each (l ++ [x]) body s = s' ← for_each l body s; body x s'.
Proof.
  rewrite for_each_app. destruct (for_each l body s) as [s1|]; simpl; [|done].
  by destruct (body x s1).
Qed.

(** Invariant rule: the invariant may mention the iterations done so
    far. *)
Lemma for_each_ind (P : list A → S → Prop) l body s0 s :
  P [] s0 →
  (∀ past x rest s1 s2,
      l = past ++ x :: rest → P past s1 → body x s1 = Some s2 →
      P (past ++ [x]) s2) →
  for_each l body s0 = Some s →
  P l s.
Proof.
  intros H0 Hstep.
  assert (∀ rest past s1, l = past ++ rest → P past s1 →
            for_each rest body s1 = Some s → P l s) as Hgen.
  { induction rest as [|x rest IH]; intros past s1 Hl HP Hrun; simpl in *.
    - rewrite app_nil_r in Hl. by simplify_eq.
    - destruct (body x s1) as [s2|] eqn:Hb; simpl in *; [|done].
      apply (IH (past ++ [x]) s2); [by rewrite <-app_assoc| |done].
      by apply (Hstep past x rest s1 s2). }
  by apply (Hgen l [] s0).
Qed.

(** Plain invariant rule. *)
Lemma for_each_inv (P : S → Prop) l body s0 s :
  P s0 →
  (∀ x s1 s2, x ∈ l → P s1 → body x s1 = Some s2 → P s2) →
  for_each l body s0 = Some s →
  P s.
Proof.
  intros H0 Hstep. apply (for_each_ind (λ _, P)); [done|].
  intros past x rest s1 s2 -> HP Hb. apply (Hstep x s1 s2); [|done..].
  set_solver.
Qed.

(** A loop whose iterations all succeed under an invariant succeeds. *)
Lemma for_each_total (P : S → Prop) l body s0 :
  P s0 →
  (∀ x s1, x ∈ l → P s1 → ∃ s2, body x s1 = Some s2 ∧ P s2) →
  ∃ s, for_each l body s0 = Some s ∧ P s.
Proof.
  revert s0. induction l as [|x l IH]; intros s0 H0 Hstep; simpl; [eauto|].
  destruct (Hstep x s0) as (s2 & -> & H2); [set_solver|done|]. simpl.
  apply IH; [done|]. intros y s1 Hy. apply Hstep. set_solver.
Qed.
End loops.

(** Two nested loops run the iterations of the flattened schedule. *)
Lemma for_each_nested {A B S : Type} (l : list A) (inner : A → list B)
    (body : A → B → S → option S) (s : S) :
  for_each l (λ x s, for_each (inner x) (body x) s) s =
  for_each (x ← l; y ← inner x; [(x, y)]) (λ xy, body xy.1 xy.2) s.
Proof.
  revert s. induction l as [|x l IH]; intros s; [done|].
  rewrite bind_cons, for_each_app. simpl.
  assert (∀ l' s, for_each (y ← l'; [(x, y)]) (λ xy, body xy.1 xy.2) s
                  = for_each l' (body x) s) as ->.
  { induction l' as [|y l' IH']; intros s'; [done|]. simpl.
    destruct (body x y s'); simpl; [apply IH'|done]. }
  destruct (for_each (inner x) (body x) s); simpl; [apply IH|done].
Qed.

(** ** Ranges and windows *)

Lemma elem_of_range2 a b k : k ∈ range2 a b ↔ a ≤ k < b.
Proof. unfold range2. rewrite elem_of_seqZ. lia. Qed.

Lemma elem_of_range n k : k ∈ range n ↔ 0 ≤ k < n.
Proof. apply elem_of_range2. Qed.

Lemma NoDup_range2 a b : NoDup (range2 a b).
Proof. apply NoDup_seqZ. Qed.

Lemma NoDup_range n : NoDup (range n).
Proof. apply NoDup_range2. Qed.

Lemma range2_snoc a b : a ≤ b → range2 a (b + 1) = range2 a b ++ [b].
Proof.
  intros Hab. unfold range2.
  replace (b + 1 - a) with ((b - a) + 1) by lia.
  rewrite seqZ_app by lia. f_equal.
  rewrite seqZ_cons by lia. rewrite seqZ_nil by lia. f_equal. lia.
Qed.

Lemma range_snoc n : 0 ≤ n → range (n + 1) = range n ++ [n].
Proof. apply range2_snoc. Qed.

Lemma elem_of_pairs (l : list Z) (f : Z → list Z) (x y : Z) :
  (x, y) ∈ (i ← l; j ← f i; [(i, j)]) ↔ x ∈ l ∧ y ∈ f x.
Proof.
  rewrite list_elem_of_bind. split.
  - intros (i & Hin & Hi). apply list_elem_of_bind in Hin as (j & Hin & Hj).
    apply list_elem_of_singleton in Hin. by simplify_eq.
  - intros [Hx Hy]. exists x. split; [|done].
    apply list_elem_of_bind. exists y. split; [|done]. by left.
Qed.

Lemma NoDup_pairs (l : list Z) (f : Z → list Z) :
  NoDup l → (∀ i, NoDup (f i)) → NoDup (i ← l; j ← f i; [(i, j)]).
Proof.
  intros Hl Hf. apply NoDup_bind; [|intros i _|done].
  - intros i1 i2 [x y] _ _ H1 H2.
    apply list_elem_of_bind in H1 as (j1 & H1 & _).
    apply list_elem_of_bind in H2 as (j2 & H2 & _).
    apply list_elem_of_singleton in H1, H2. congruence.
  - apply NoDup_bind; [|intros j _; apply NoDup_singleton|apply Hf].
    intros j1 j2 z _ _ H1 H2.
    apply list_elem_of_singleton in H1, H2. congruence.
Qed.

Lemma elem_of_windows T i j : (i, j) ∈ windows T ↔ 0 ≤ i ≤ j ∧ j < T.
Proof.
  unfold windows. rewrite elem_of_pairs, elem_of_range, elem_of_range2. lia.
Qed.

Lemma NoDup_windows T : NoDup (windows T).
Proof. apply NoDup_pairs; [apply NoDup_range|intros; apply NoDup_range2]. Qed.

Lemma elem_of_windows_in t1 t2 k l :
  (k, l) ∈ windows_in t1 t2 ↔ t1 ≤ k ≤ l ∧ l ≤ t2.
Proof.
  unfold windows_in. rewrite elem_of_pairs, !elem_of_range2. lia.
Qed.

Lemma NoDup_windows_in t1 t2 : NoDup (windows_in t1 t2).
Proof. apply NoDup_pairs; [|intros]; apply NoDup_range2. Qed.

Lemma elem_of_repair_schedule T t2 t1 :
  (t2, t1) ∈ repair_schedule T ↔ 0 ≤ t1 ≤ t2 ∧ t2 < T.
Proof.
  unfold repair_schedule. rewrite elem_of_pairs, !elem_of_range. lia.
Qed.

(** ** Dictionaries *)

Section dict_facts.
Context {K V : Type} `{Countable K}.
Implicit Types (d : pydict K V) (k : K) (v : V).

Lemma dict_get_set d k v k' :
  dict_get (dict_set k v d) k' = if decide (k = k') then Some v else dict_get d k'.
Proof. unfold dict_get, dict_set. simpl. apply lookup_insert. Qed.

Lemma dict_get_set_eq d k v : dict_get (dict_set k v d) k = Some v.
Proof. rewrite dict_get_set. by rewrite decide_True. Qed.

Lemma dict_get_set_ne d k v k' :
  k ≠ k' → dict_get (dict_set k v d) k' = dict_get d k'.
Proof. intros. rewrite dict_get_set. by rewrite decide_False. Qed.

Lemma dict_keys_set_present d k v :
  is_Some (dict_get d k) → dict_keys (dict_set k v d) = dict_keys d.
Proof. unfold dict_get, dict_set. intros [x ->]. done. Qed.

Lemma dict_keys_set_absent d k v :
  dict_get d k = None → dict_keys (dict_set k v d) = dict_keys d ++ [k].
Proof. unfold dict_get, dict_set. intros ->. done. Qed.

Lemma dict_wf_elem d k : dict_wf d → k ∈ dict_keys d ↔ is_Some (dict_get d k).
Proof.
  unfold dict_wf, dict_get. intros Hwf.
  rewrite <-elem_of_dom, Hwf. by rewrite elem_of_list_to_set.
Qed.

Lemma dict_wf_empty : dict_wf (dict_empty (K:=K) (V:=V)).
Proof. unfold dict_wf, dict_empty. simpl. by rewrite dom_empty_L. Qed.

Lemma dict_wf_set d k v : dict_wf d → dict_wf (dict_set k v d).
Proof.
  intros Hwf. pose proof (dict_wf_elem d k Hwf) as Hk.
  unfold dict_wf, dict_get, dict_set in *. simpl. rewrite dom_insert_L.
  destruct (dict_items d !! k) eqn:E.
  - assert (k ∈ dict_keys d) as Hin by (apply Hk; eauto).
    rewrite Hwf. apply set_eq. intros x.
    rewrite elem_of_union, elem_of_singleton, elem_of_list_to_set.
    split; [by intros [->|?]|by right].
  - rewrite list_to_set_app_L, Hwf. apply set_eq. intros x.
    rewrite !elem_of_union, elem_of_singleton, !elem_of_list_to_set.
    rewrite list_elem_of_singleton. tauto.
Qed.

(** Dictionaries are equal when they list the same keys and hold the
    same items. *)
Lemma dict_eq d d' :
  dict_keys d = dict_keys d' → (∀ k, dict_get d k = dict_get d' k) → d = d'.
Proof.
  destruct d as [ks m], d' as [ks' m']. unfold dict_get. simpl.
  intros -> Hm. f_equal. by apply map_eq.
Qed.
End dict_facts.

Lemma dict_val_set {K : Type} `{Countable K} (d : pydict K Z) k v k' :
  dict_val (dict_set k v d) k' = if decide (k = k') then v else dict_val d k'.
Proof. unfold dict_val. rewrite dict_get_set. by case_decide. Qed.

Lemma dict_val_get {K : Type} `{Countable K} (d : pydict K Z) k v :
  dict_get d k = Some v → dict_val d k = v.
Proof. unfold dict_val. by intros ->. Qed.

(** ** Sums *)

Lemma Zsum_nonneg {A : Type} (f : A → Z) l :
  (∀ x, x ∈ l → 0 ≤ f x) → 0 ≤ Zsum f l.
Proof.
  induction l as [|x l IH]; intros Hall; simpl; [done|].
  assert (0 ≤ f x) by (apply Hall; by left).
  assert (0 ≤ Zsum f l) by (apply IH; intros y Hy; apply Hall; by right). lia.
Qed.

Lemma Zsum_mono {A : Type} (f g : A → Z) l :
  (∀ x, x ∈ l → f x ≤ g x) → Zsum f l ≤ Zsum g l.
Proof.
  induction l as [|x l IH]; intros Hall; simpl; [done|].
  assert (f x ≤ g x) by (apply Hall; by left).
  assert (Zsum f l ≤ Zsum g l) by (apply IH; intros y Hy; apply Hall; by right).
  lia.
Qed.

Lemma Zsum_ext {A : Type} (f g : A → Z) l :
  (∀ x, x ∈ l → f x = g x) → Zsum f l = Zsum g l.
Proof.
  intros Hall. apply Z.le_antisymm; apply Zsum_mono; intros x Hx;
    rewrite Hall by done; done.
Qed.

Lemma Zsum_elem_le {A : Type} (f : A → Z) l x :
  (∀ y, y ∈ l → 0 ≤ f y) → x ∈ l → f x ≤ Zsum f l.
Proof.
  induction l as [|y l IH]; intros Hall Hx; [by apply not_elem_of_nil in Hx|].
  simpl. apply elem_of_cons in Hx as [->|Hx].
  - assert (0 ≤ Zsum f l) by (apply Zsum_nonneg; intros z Hz; apply Hall; by right).
    lia.
  - assert (0 ≤ f y) by (apply Hall; by left).
    assert (f x ≤ Zsum f l) by (apply IH; [intros z Hz; apply Hall; by right|done]).
    lia.
Qed.

(** ** The monad and the sampling stages *)

Section sampling.
Context `{RandomSource}.

Lemma M_bind_Some {A B : Type} (m : M A) (k : A → M B) g r :
  (m ≫= k) g = Some r ↔ ∃ x g1, m g = Some (x, g1) ∧ k x g1 = Some r.
Proof.
  unfold mbind, M_bind. destruct (m g) as [[x g1]|]; split.
  - eauto.
  - by intros (? & ? & [= <- <-] & ?).
  - done.
  - by intros (? & ? & ? & ?).
Qed.

Lemma M_ret_Some {A : Type} (x : A) g r :
  mret (M := M) x g = Some r ↔ r = (x, g).
Proof. unfold mret, M_ret. split; [by intros [= <-]|by intros ->]. Qed.

Lemma lift_Some {A : Type} (o : option A) g r :
  lift o g = Some r ↔ ∃ x, o = Some x ∧ r = (x, g).
Proof.
  unfold lift. destruct o as [y|]; simpl; split.
  - intros [= <-]. eauto.
  - by intros (? & [= <-] & ->).
  - done.
  - by intros (? & ? & _).
Qed.

Lemma dict_comp_from_spec {K V : Type} `{Countable K}
    (l : list K) (f : K → M V) acc g d g' :
  dict_comp_from l f acc g = Some (d, g') →
  dict_wf acc → NoDup l → (∀ k, k ∈ l → k ∉ dict_keys acc) →
  dict_wf d ∧ dict_keys d = dict_keys acc ++ l ∧
  (∀ k, k ∉ l → dict_get d k = dict_get acc k) ∧
  (∀ k, k ∈ l → ∃ g1 g2 v, f k g1 = Some (v, g2) ∧ dict_get d k = Some v).
Proof.
  revert acc g. induction l as [|k l IH]; intros acc g; simpl.
  - intros [= <- <-]%M_ret_Some Hwf _ _.
    rewrite app_nil_r. repeat split; [done..|]. intros k Hk.
    by apply not_elem_of_nil in Hk.
  - intros (v & g1 & Hf & Hrec)%M_bind_Some Hwf [Hk Hnd]%NoDup_cons Hfresh.
    assert (dict_get acc k = None) as Hnone.
    { destruct (dict_get acc k) eqn:E; [|done].
      exfalso. apply (Hfresh k); [by left|].
      apply dict_wf_elem; [done|]. by rewrite E. }
    apply IH in Hrec as (Hwfd & Hkeys & Hout & Hin); [|by apply dict_wf_set|done|].
    + rewrite (dict_keys_set_absent _ _ _ Hnone), <-app_assoc in Hkeys.
      repeat split; [done..| |].
      * intros k' Hk'. rewrite Hout by (intros ?; apply Hk'; by right).
        apply dict_get_set_ne. intros ->. apply Hk'. by left.
      * intros k' [->|Hk']%elem_of_cons; [|by apply Hin].
        exists g, g1, v. split; [done|].
        rewrite Hout by done. apply dict_get_set_eq.
    + intros k' Hk'. rewrite (dict_keys_set_absent _ _ _ Hnone).
      intros [?| ->%list_elem_of_singleton]%elem_of_app; [|done].
      apply (Hfresh k'); [by right|done].
Qed.

Lemma dict_comp_spec {K V : Type} `{Countable K}
    (l : list K) (f : K → M V) g d g' :
  dict_comp l f g = Some (d, g') → NoDup l →
  dict_wf d ∧ dict_keys d = l ∧
  (∀ k, k ∈ l → ∃ g1 g2 v, f k g1 = Some (v, g2) ∧ dict_get d k = Some v).
Proof.
  intros Hrun Hnd.
  apply dict_comp_from_spec in Hrun as (? & ? & _ & ?);
    [done|apply dict_wf_empty|done|].
  intros k _. apply not_elem_of_nil.
Qed.

Lemma dict_comp_from_total {K V : Type} `{Countable K}
    (l : list K) (f : K → M V) acc g :
  (∀ k g, k ∈ l → is_Some (f k g)) → is_Some (dict_comp_from l f acc g).
Proof.
  revert acc g. induction l as [|k l IH]; intros acc g Hf; simpl; [by eexists|].
  destruct (Hf k g) as [[v g1] Hv]; [by left|].
  unfold mbind, M_bind. rewrite Hv. apply IH.
  intros k' g' Hk'. apply Hf. by right.
Qed.

Lemma sample_periods_within T a b g d g' :
  sample_periods T a b g = Some (d, g') → periods_within T a b d.
Proof.
  intros (Hwf & Hkeys & Hvals)%dict_comp_spec; [|apply NoDup_range].
  repeat split; [done..|]. intros t Ht%elem_of_range.
  destruct (Hvals t Ht) as (g1 & g2 & v & Hv & Hget).
  exists v. split; [done|]. by apply rd_randint_range in Hv.
Qed.

Lemma sample_periods_total T a b g :
  a ≤ b → is_Some (sample_periods T a b g).
Proof.
  intros Hab. apply dict_comp_from_total. intros k g1 _.
  by apply rd_randint_total.
Qed.

Lemma sample_windows_within T dw_a dw_b g d_w g' :
  sample_windows T dw_a dw_b g = Some (d_w, g') →
  windows_within T dw_a dw_b d_w.
Proof.
  intros (Hwf & Hkeys & Hvals)%dict_comp_spec; [|apply NoDup_windows].
  repeat split; [done..|]. intros i j Hij%elem_of_windows.
  destruct (Hvals _ Hij) as (g1 & g2 & v & Hv & Hget).
  exists v. split; [done|]. simpl in Hv. case_bool_decide.
  - split; [done|]. intros _. by apply rd_randint_range in Hv.
  - apply M_ret_Some in Hv as [= <- <-]. split; [done|]. intros; lia.
Qed.

Lemma sample_windows_total T dw_a dw_b g :
  dw_a ≤ dw_b → is_Some (sample_windows T dw_a dw_b g).
Proof.
  intros Hab. apply dict_comp_from_total. intros [i j] g1 _.
  case_bool_decide; [by apply rd_randint_total|by eexists].
Qed.
End sampling.

(** ** Shapes and the pointwise order *)

Section shape_facts.
Context {K V : Type} `{Countable K}.
Implicit Types (d : pydict K V).

Lemma dict_shape_set d k v :
  is_Some (dict_get d k) → dict_shape (dict_set k v d) = dict_shape d.
Proof.
  intros Hk. unfold dict_shape. rewrite dict_keys_set_present by done.
  f_equal. unfold dict_set. simpl. by apply dom_insert_lookup_L.
Qed.

Lemma dict_shape_keys d d' :
  dict_shape d' = dict_shape d → dict_keys d' = dict_keys d.
Proof. by intros [= -> _]. Qed.

Lemma dict_shape_is_Some d d' k :
  dict_shape d' = dict_shape d →
  is_Some (dict_get d' k) ↔ is_Some (dict_get d k).
Proof.
  intros [= _ Hdom]. unfold dict_get. by rewrite <-!elem_of_dom, Hdom.
Qed.

Lemma dict_shape_wf d d' :
  dict_shape d' = dict_shape d → dict_wf d → dict_wf d'.
Proof. unfold dict_wf. by intros [= -> ->]. Qed.
End shape_facts.

Lemma dict_le_refl C : dict_le C C.
Proof. by intros k. Qed.

Lemma dict_le_trans C1 C2 C3 : dict_le C1 C2 → dict_le C2 C3 → dict_le C1 C3.
Proof. intros H12 H23 k. specialize (H12 k). specialize (H23 k). lia. Qed.

Lemma periods_within_nonneg T a b C : 0 ≤ a → periods_within T a b C → nonneg C.
Proof.
  intros Ha (Hkeys & Hwf & Hvals) k. unfold dict_val.
  destruct (dict_get C k) as [v|] eqn:E; simpl; [|done].
  assert (k ∈ dict_keys C) as Hk by (apply dict_wf_elem; [done|by rewrite E]).
  rewrite Hkeys in Hk. apply elem_of_range in Hk.
  destruct (Hvals k Hk) as (v' & Hv' & ?). simplify_eq. lia.
Qed.

(** A loop whose iterations each preserve an invariant and are monotone
    for a preorder: every iteration is monotone from every reached state,
    and so is the whole loop. *)
Lemma for_each_monotone {X S : Type} (le : S → S → Prop) (I : S → Prop)
    (steps : list X) (step : X → S → option S) (C0 : S) :
  (∀ C, I C → le C C) →
  (∀ C1 C2 C3, le C1 C2 → le C2 C3 → le C1 C3) →
  I C0 →
  (∀ x C1 C2, x ∈ steps → I C1 → step x C1 = Some C2 → I C2 ∧ le C1 C2) →
  updates_monotone le steps step C0 ∧
  ∀ C, for_each steps step C0 = Some C → I C ∧ le C0 C.
Proof.
  intros Hrefl Htrans H0 Hstep.
  assert (∀ l C, (∀ x, x ∈ l → x ∈ steps) → for_each l step C0 = Some C →
                 I C ∧ le C0 C) as Hrun.
  { intros l C Hl. apply (for_each_inv (λ C, I C ∧ le C0 C)).
    - split; [done|by apply Hrefl].
    - intros x C1 C2 Hx [HI Hle] Hb.
      destruct (Hstep x C1 C2) as [? ?]; [by apply Hl|done..|].
      split; [done|]. by eapply Htrans. }
  split; [|intros C; by apply Hrun].
  intros past x rest C1 C2 -> Hpast Hb.
  destruct (Hrun past C1) as [HI _]; [|done|].
  { intros y Hy. apply elem_of_app. by left. }
  apply (Hstep x C1 C2); [|done..].
  apply elem_of_app. right. by left.
Qed.

(** ** The repair of the base generator *)

Lemma repair_point_Some d k C C' :
  repair_point d k C = Some C' →
  ∃ c dk, dict_get C k = Some c ∧ dict_get d k = Some dk ∧
          C' = if c <? dk then dict_set k (c + dk) C else C.
Proof.
  unfold repair_point. intros Hrun.
  destruct (dict_get C k) as [c|] eqn:Hc; simpl in Hrun; [|done].
  destruct (dict_get d k) as [dk|] eqn:Hd; simpl in Hrun; [|done].
  exists c, dk. repeat split; [done..|].
  destruct (c <? dk); simpl in Hrun; by simplify_eq.
Qed.

Lemma repair_point_run d k C c dk :
  dict_get C k = Some c → dict_get d k = Some dk →
  repair_point d k C = Some (if c <? dk then dict_set k (c + dk) C else C).
Proof.
  intros Hc Hd. unfold repair_point. rewrite Hc, Hd. simpl.
  destruct (c <? dk); simpl; done.
Qed.

Lemma repair_point_covers d k C : covers d C k → repair_point d k C = Some C.
Proof.
  intros (c & dk & Hc & Hd & Hle). rewrite (repair_point_run d k C c dk) by done.
  by rewrite (proj2 (Z.ltb_ge c dk)).
Qed.

Lemma repair_point_shape d k C C' :
  repair_point d k C = Some C' → dict_shape C' = dict_shape C.
Proof.
  intros (c & dk & Hc & Hd & ->)%repair_point_Some.
  destruct (c <? dk); [|done]. apply dict_shape_set. by rewrite Hc.
Qed.

(** One repair of a non-negative capacity is monotone and makes the period
    cover its demand. *)
Lemma repair_point_step d k C C' :
  0 ≤ dict_val C k →
  repair_point d k C = Some C' →
  dict_le C C' ∧ covers d C' k ∧
  (∀ j, j ≠ k → dict_get C' j = dict_get C j) ∧
  (dict_val C' k = dict_val C k ∨ dict_val C' k = dict_val C k + dict_val d k).
Proof.
  intros Hk (c & dk & Hc & Hd & ->)%repair_point_Some.
  rewrite (dict_val_get _ _ _ Hc) in Hk |- *. rewrite (dict_val_get _ _ _ Hd).
  destruct (c <? dk) eqn:Hlt.
  - apply Z.ltb_lt in Hlt. split; [|split; [|split]].
    + intros j. rewrite dict_val_set. case_decide; [|done].
      subst j. rewrite (dict_val_get _ _ _ Hc). lia.
    + exists (c + dk), dk. rewrite dict_get_set_eq. split; [done|]. split; [done|lia].
    + intros j Hj. by apply dict_get_set_ne.
    + right. rewrite dict_val_set. by rewrite decide_True.
  - apply Z.ltb_ge in Hlt. split; [|split; [|split]].
    + apply dict_le_refl.
    + by exists c, dk.
    + done.
    + left. by apply dict_val_get.
Qed.

Lemma covers_get d C C' k :
  dict_get C' k = dict_get C k → covers d C k → covers d C' k.
Proof. intros Hget (c & dk & Hc & Hd & Hle). exists c, dk. by rewrite Hget. Qed.

Lemma for_each_fixed {A S : Type} (l : list A) (body : A → S → option S) s :
  (∀ x, x ∈ l → body x s = Some s) → for_each l body s = Some s.
Proof.
  induction l as [|x l IH]; intros Hfix; simpl; [done|].
  rewrite Hfix by (by left). simpl. apply IH. intros y Hy. apply Hfix. by right.
Qed.

Lemma range_to_nat T : range T = range (Z.of_nat (Z.to_nat T)).
Proof. unfold range, range2, seqZ. do 2 f_equal. lia. Qed.

Lemma repair_base_prefix d C (n : nat) :
  (∀ k, 0 ≤ k < Z.of_nat n →
        ∃ c dk, dict_get C k = Some c ∧ dict_get d k = Some dk ∧ 0 ≤ c) →
  ∃ C', repair_base (Z.of_nat n) d C = Some C' ∧
        repair_single_pass (Z.of_nat n) d C = Some C' ∧
        dict_shape C' = dict_shape C ∧
        (∀ k, 0 ≤ k < Z.of_nat n → covers d C' k) ∧
        (∀ k, 0 ≤ k < Z.of_nat n → dict_val C' k = repaired d C k) ∧
        (∀ k, ¬ (0 ≤ k < Z.of_nat n) → dict_get C' k = dict_get C k).
Proof.
  unfold repair_base, repair_single_pass.
  induction n as [|n IH]; intros Hpre.
  - exists C. simpl. split; [done|]. split; [done|]. split; [done|].
    split; [intros; lia|]. split; [intros; lia|done].
  - destruct IH as (Cn & Hnest & Hsingle & Hshape & Hcov & Hval & Hout).
    { intros k Hk. apply Hpre. lia. }
    destruct (Hpre (Z.of_nat n)) as (c & dk & Hc & Hd & Hc0); [lia|].
    assert (dict_get Cn (Z.of_nat n) = Some c) as Hcn by (rewrite Hout; [done|lia]).
    pose proof (repair_point_run d _ Cn c dk Hcn Hd) as Hrun.
    set (C' := if c <? dk then dict_set (Z.of_nat n) (c + dk) Cn else Cn) in *.
    destruct (repair_point_step d (Z.of_nat n) Cn C') as (Hle & Hcovn & Hoth & _);
      [by rewrite (dict_val_get _ _ _ Hcn)|done|].
    exists C'.
    rewrite Nat2Z.inj_succ, <-Z.add_1_r, range_snoc, !for_each_snoc by lia.
    rewrite Hnest, Hsingle. simpl.
    rewrite range_snoc, for_each_snoc by lia.
    rewrite for_each_fixed.
    2:{ intros k Hk%elem_of_range. by apply repair_point_covers, Hcov. }
    simpl. repeat split; [done..| | | |].
    + rewrite <-Hshape. by eapply repair_point_shape.
    + intros k Hk. destruct (decide (k = Z.of_nat n)) as [->|Hne]; [done|].
      eapply covers_get; [by apply Hoth|]. apply Hcov. lia.
    + intros k Hk. destruct (decide (k = Z.of_nat n)) as [->|Hne].
      * unfold repaired. rewrite (dict_val_get _ _ _ Hc), (dict_val_get _ _ _ Hd).
        subst C'. destruct (c <? dk); [|by apply dict_val_get].
        rewrite dict_val_set. by rewrite decide_True.
      * unfold dict_val at 1. rewrite Hoth by done. apply Hval. lia.
    + intros k Hk. rewrite Hoth by lia. apply Hout. lia.
Qed.

(** The nested loops of the base repair and the single pass agree on
    non-negative capacities, and leave every period covering its demand. *)
Lemma repair_base_spec T d C :
  (∀ k, 0 ≤ k < T →
        ∃ c dk, dict_get C k = Some c ∧ dict_get d k = Some dk ∧ 0 ≤ c) →
  ∃ C', repair_base T d C = Some C' ∧
        repair_single_pass T d C = Some C' ∧
        dict_shape C' = dict_shape C ∧
        (∀ k, 0 ≤ k < T → covers d C' k) ∧
        (∀ k, 0 ≤ k < T → dict_val C' k = repaired d C k) ∧
        (∀ k, ¬ (0 ≤ k < T) → dict_get C' k = dict_get C k).
Proof.
  intros Hpre. unfold repair_base, repair_single_pass.
  rewrite (range_to_nat T).
  destruct (repair_base_prefix d C (Z.to_nat T))
    as (C' & Hnest & Hsingle & Hshape & Hcov & Hval & Hout).
  { intros k Hk. apply Hpre. lia. }
  exists C'. repeat split; [done..| | |].
  - intros k Hk. apply Hcov. lia.
  - intros k Hk. apply Hval. lia.
  - intros k Hk. apply Hout. lia.
Qed.

Lemma repair_base_schedule T d C :
  repair_base T d C = for_each (repair_schedule T) (base_step d) C.
Proof.
  exact (for_each_nested (range T) (λ t, range (t + 1))
           (λ _ k, repair_point d k) C).
Qed.

Lemma base_step_monotone d x C C' :
  nonneg C → base_step d x C = Some C' → nonneg C' ∧ dict_le C C'.
Proof.
  intros Hnn Hrun.
  destruct (repair_point_step d x.2 C C') as (Hle & _); [apply Hnn|done|].
  split; [|done]. intros k. specialize (Hnn k). specialize (Hle k). lia.
Qed.

Lemma repair_base_total T d C :
  (∀ k, 0 ≤ k < T → is_Some (dict_get C k) ∧ is_Some (dict_get d k)) →
  is_Some (repair_base T d C).
Proof.
  intros Hpre. rewrite repair_base_schedule.
  destruct (for_each_total (λ C', dict_shape C' = dict_shape C)
              (repair_schedule T) (base_step d) C) as (C' & -> & _);
    [done| |by eexists].
  intros [t k] C1 Hx%elem_of_repair_schedule Hshape. simpl in *.
  destruct (Hpre k) as [Hc [dk Hd]]; [lia|].
  apply (dict_shape_is_Some _ _ k) in Hshape as Hk. apply Hk in Hc as [c Hc].
  unfold base_step. simpl. eexists. split; [by apply repair_point_run|].
  rewrite <-Hshape. destruct (c <? dk); [|done].
  apply dict_shape_set. by rewrite Hc.
Qed.


(** ** Rounding and doubles *)

Lemma round_nat_small n : n < 2 ^ 53 → round_nat n = n.
Proof.
  intros Hn. unfold round_nat.
  destruct (Z.leb_spec (Z.log2 n - 52) 0) as [|He]; [done|]. exfalso.
  destruct (decide (0 < n)) as [Hpos|Hneg].
  - pose proof (Z.log2_spec n Hpos) as [Hlo _].
    assert (2 ^ 53 ≤ 2 ^ Z.log2 n) by (apply Z.pow_le_mono_r; lia). lia.
  - rewrite Z.log2_nonpos in He by lia. lia.
Qed.

Lemma round_nat_spec n :
  0 < Z.log2 n - 52 →
  ∃ q r, n = q * 2 ^ (Z.log2 n - 52) + r ∧ 0 ≤ r < 2 ^ (Z.log2 n - 52) ∧
         2 ^ 52 ≤ q < 2 ^ 53 ∧
         (round_nat n = q * 2 ^ (Z.log2 n - 52) ∧
            (2 * r < 2 ^ (Z.log2 n - 52) ∨
             (2 * r = 2 ^ (Z.log2 n - 52) ∧ Z.even q = true)) ∨
          round_nat n = (q + 1) * 2 ^ (Z.log2 n - 52) ∧
            (2 ^ (Z.log2 n - 52) < 2 * r ∨
             (2 * r = 2 ^ (Z.log2 n - 52) ∧ Z.even q = false))).
Proof.
  intros He. set (e := Z.log2 n - 52) in *.
  assert (0 < n) as Hpos.
  { destruct (decide (0 < n)); [done|]. unfold e in He.
    rewrite Z.log2_nonpos in He by lia. lia. }
  pose proof (Z.log2_spec n Hpos) as [Hlo Hhi].
  assert (0 < 2 ^ e) as HP by (apply Z.pow_pos_nonneg; lia).
  replace (Z.log2 n) with (52 + e) in Hlo by (unfold e; lia).
  replace (Z.succ (Z.log2 n)) with (53 + e) in Hhi by (unfold e; lia).
  rewrite Z.pow_add_r in Hlo, Hhi by lia.
  exists (n / 2 ^ e), (n `mod` 2 ^ e).
  pose proof (Z.div_mod n (2 ^ e)) as Hdm.
  pose proof (Z.mod_pos_bound n (2 ^ e) HP) as Hr.
  split; [lia|]. split; [done|]. split.
  { split.
    - apply Z.div_le_lower_bound; lia.
    - apply Z.div_lt_upper_bound; lia. }
  unfold round_nat. fold e.
  destruct (Z.leb_spec e 0) as [|_]; [lia|].
  destruct (Z.ltb_spec (2 * (n `mod` 2 ^ e)) (2 ^ e)) as [Hlt|Hge]; simpl.
  { left. split; [done|]. by left. }
  destruct (Z.eqb_spec (2 * (n `mod` 2 ^ e)) (2 ^ e)) as [Heq|Hne]; simpl.
  - destruct (Z.even (n / 2 ^ e)) eqn:Hev.
    + left. split; [done|]. by right.
    + right. split; [done|]. by right.
  - right. split; [done|]. left. lia.
Qed.

Lemma round_nat_nonneg n : 0 ≤ n → 0 ≤ round_nat n.
Proof.
  intros Hn. destruct (decide (0 < Z.log2 n - 52)) as [He|He].
  - destruct (round_nat_spec n He) as (q & r & _ & _ & Hq & [[-> _]|[-> _]]).
    + assert (0 < 2 ^ (Z.log2 n - 52)) by (apply Z.pow_pos_nonneg; lia). nia.
    + assert (0 < 2 ^ (Z.log2 n - 52)) by (apply Z.pow_pos_nonneg; lia). nia.
  - unfold round_nat. destruct (Z.leb_spec (Z.log2 n - 52) 0); [done|lia].
Qed.

(** A rounded number stays in the binade of the number. *)
Lemma round_nat_binade n :
  0 < Z.log2 n - 52 →
  2 ^ Z.log2 n ≤ round_nat n ≤ 2 ^ (Z.log2 n + 1).
Proof.
  intros He.
  destruct (round_nat_spec n He) as (q & r & _ & _ & Hq & Hround).
  set (e := Z.log2 n - 52) in *.
  assert (0 < 2 ^ e) as HP by (apply Z.pow_pos_nonneg; lia).
  replace (Z.log2 n) with (52 + e) by (unfold e; lia).
  replace (52 + e + 1) with (53 + e) by lia.
  rewrite !Z.pow_add_r by lia.
  destruct Hround as [[-> _]|[-> _]]; nia.
Qed.

Lemma log2_small n : Z.log2 n - 52 ≤ 0 → n < 2 ^ 53.
Proof.
  intros He. destruct (decide (0 < n)) as [Hpos|]; [|lia].
  pose proof (Z.log2_spec n Hpos) as [_ Hhi].
  assert (2 ^ Z.succ (Z.log2 n) ≤ 2 ^ 53) by (apply Z.pow_le_mono_r; lia). lia.
Qed.

Lemma round_nat_mono x y : 0 ≤ x → x ≤ y → round_nat x ≤ round_nat y.
Proof.
  intros Hx Hxy.
  pose proof (Z.log2_le_mono x y Hxy) as Hlog.
  destruct (decide (0 < Z.log2 y - 52)) as [Hey|Hey].
  2:{ rewrite !round_nat_small; [done|apply log2_small; lia..]. }
  destruct (decide (0 < Z.log2 x - 52)) as [Hex|Hex].
  2:{ rewrite (round_nat_small x) by (apply log2_small; lia).
      pose proof (round_nat_binade y Hey) as [Hlo _].
      assert (0 < y) as Hy.
      { destruct (decide (0 < y)); [done|]. rewrite Z.log2_nonpos in Hey; lia. }
      pose proof (log2_small x ltac:(lia)).
      assert (2 ^ 53 ≤ 2 ^ Z.log2 y) by (apply Z.pow_le_mono_r; lia). lia. }
  destruct (decide (Z.log2 x = Z.log2 y)) as [Heq|Hne].
  - destruct (round_nat_spec x Hex) as (qx & rx & Hxe & Hrx & Hqx & Hroundx).
    destruct (round_nat_spec y Hey) as (qy & ry & Hye & Hry & Hqy & Hroundy).
    rewrite Heq in *. set (e := Z.log2 y - 52) in *.
    assert (0 < 2 ^ e) as HP by (apply Z.pow_pos_nonneg; lia).
    assert (qx ≤ qy) as Hq by nia.
    destruct (decide (qx = qy)) as [->|Hqne].
    + assert (rx ≤ ry) by lia.
      destruct Hroundx as [[-> Hdx]|[-> Hux]], Hroundy as [[-> Hdy]|[-> Huy]];
        try nia.
      exfalso. destruct Hux as [?|[? Hodd]], Hdy as [?|[? Heven]]; try lia.
      congruence.
    + assert (qx + 1 ≤ qy) by lia.
      destruct Hroundx as [[-> _]|[-> _]], Hroundy as [[-> _]|[-> _]]; nia.
  - pose proof (round_nat_binade x Hex) as [_ Hhi].
    pose proof (round_nat_binade y Hey) as [Hlo _].
    assert (2 ^ (Z.log2 x + 1) ≤ 2 ^ Z.log2 y) by (apply Z.pow_le_mono_r; lia).
    lia.
Qed.

Lemma round_nat_idem n : 0 ≤ n → round_nat (round_nat n) = round_nat n.
Proof.
  intros Hn. destruct (decide (0 < Z.log2 n - 52)) as [He|He].
  2:{ rewrite (round_nat_small n) by (apply log2_small; lia).
      apply round_nat_small, log2_small. lia. }
  destruct (round_nat_spec n He) as (q & r & _ & _ & Hq & Hround).
  set (e := Z.log2 n - 52) in *.
  assert (0 < 2 ^ e) as HP by (apply Z.pow_pos_nonneg; lia).
  assert (∀ m, 2 ^ 52 ≤ m < 2 ^ 53 → round_nat (m * 2 ^ e) = m * 2 ^ e) as Hrep.
  { intros m Hm.
    assert (Z.log2 (m * 2 ^ e) = 52 + e) as Hlog.
    { apply Z.log2_unique; [lia|].
      replace (Z.succ (52 + e)) with (53 + e) by lia.
      rewrite !Z.pow_add_r by lia. nia. }
    unfold round_nat. rewrite Hlog. replace (52 + e - 52) with e by lia.
    destruct (Z.leb_spec e 0); [lia|].
    rewrite Z.div_mul, Z.mod_mul by lia.
    destruct (Z.ltb_spec (2 * 0) (2 ^ e)); [done|lia]. }
  destruct Hround as [[-> _]|[-> _]]; [by apply Hrep|].
  destruct (decide (q + 1 < 2 ^ 53)) as [?|Hmax]; [apply Hrep; lia|].
  assert (q + 1 = 2 ^ 53) as -> by lia.
  rewrite <-Z.pow_add_r by lia.
  assert (Z.log2 (2 ^ (53 + e)) = 53 + e) as Hlog by (apply Z.log2_pow2; lia).
  unfold round_nat. rewrite Hlog. replace (53 + e - 52) with (e + 1) by lia.
  destruct (Z.leb_spec (e + 1) 0); [lia|].
  replace (53 + e) with (52 + (e + 1)) by lia.
  rewrite (Z.pow_add_r 2 52 (e + 1)) by lia.
  assert (0 < 2 ^ (e + 1)) by (apply Z.pow_pos_nonneg; lia).
  rewrite Z.div_mul, Z.mod_mul by lia.
  destruct (Z.ltb_spec (2 * 0) (2 ^ (e + 1))); [done|lia].
Qed.

Lemma round_even_nonneg z : 0 ≤ z → 0 ≤ round_even z.
Proof.
  intros Hz. unfold round_even.
  pose proof (round_nat_nonneg (Z.abs z) ltac:(lia)).
  destruct (decide (z = 0)) as [->|]; [done|].
  rewrite Z.sgn_pos by lia. lia.
Qed.

Lemma round_even_opp z : round_even (- z) = - round_even z.
Proof. unfold round_even. rewrite Z.sgn_opp, Z.abs_opp. lia. Qed.

Lemma round_even_pos z : 0 ≤ z → round_even z = round_nat z.
Proof.
  intros Hz. unfold round_even. rewrite Z.abs_eq by done.
  destruct (decide (z = 0)) as [->|]; [done|]. rewrite Z.sgn_pos by lia. lia.
Qed.

Lemma round_even_mono x y : x ≤ y → round_even x ≤ round_even y.
Proof.
  intros Hxy. destruct (decide (0 ≤ x)) as [Hx|Hx].
  - rewrite !round_even_pos by lia. by apply round_nat_mono.
  - destruct (decide (0 ≤ y)) as [Hy|Hy].
    + pose proof (round_even_nonneg y Hy).
      pose proof (round_even_nonneg (- x) ltac:(lia)) as Hnx.
      rewrite round_even_opp in Hnx. lia.
    + pose proof (round_nat_mono (- y) (- x) ltac:(lia) ltac:(lia)) as Hm.
      rewrite <-!round_even_pos, !round_even_opp in Hm by lia. lia.
Qed.

Lemma round_even_idem z : round_even (round_even z) = round_even z.
Proof.
  assert (∀ n, 0 ≤ n → round_even (round_even n) = round_even n) as Hpos.
  { intros n Hn. pose proof (round_even_nonneg n Hn).
    rewrite (round_even_pos (round_even n)) by done.
    rewrite round_even_pos by done. by apply round_nat_idem. }
  destruct (decide (0 ≤ z)) as [Hz|Hz]; [by apply Hpos|].
  replace z with (- - z) by lia.
  rewrite (round_even_opp (- z)), round_even_opp, Hpos by lia. done.
Qed.

Lemma round_even_small z : Z.abs z ≤ 2 ^ 53 → round_even z = z.
Proof.
  intros Hz.
  assert (∀ n, 0 ≤ n ≤ 2 ^ 53 → round_nat n = n) as Hnat.
  { intros n Hn. destruct (decide (n = 2 ^ 53)) as [->|]; [by vm_compute|].
    apply round_nat_small. lia. }
  destruct (decide (0 ≤ z)) as [Hpos|Hneg].
  - rewrite round_even_pos by done. apply Hnat. lia.
  - pose proof (Hnat (- z) ltac:(lia)) as Hn.
    rewrite <-round_even_pos, round_even_opp in Hn by lia. lia.
Qed.

Lemma fl_small z : Z.abs z ≤ 2 ^ 53 → fl z = Fnum z.
Proof.
  intros Hz. unfold fl. rewrite round_even_small by done.
  destruct (Z.ltb_spec (Z.abs z) (2 ^ 1024)) as [|Hge]; [done|].
  assert (2 ^ 53 < 2 ^ 1024) by (vm_compute; done). lia.
Qed.

Lemma fl_double z : double (fl z).
Proof.
  unfold fl. destruct (Z.ltb_spec (Z.abs (round_even z)) (2 ^ 1024)); [|done].
  split; [apply round_even_idem|done].
Qed.

Lemma fl_of_double z : double (Fnum z) → fl z = Fnum z.
Proof.
  intros [Hr Hb]. unfold fl. rewrite Hr.
  by destruct (Z.ltb_spec (Z.abs z) (2 ^ 1024)); [|lia].
Qed.

Lemma fl_mono x y : x ≤ y → float_le (fl x) (fl y).
Proof.
  intros Hxy. pose proof (round_even_mono x y Hxy) as Hr.
  assert (x < 0 → round_even x ≤ 0) as Hnx.
  { intros ?. pose proof (round_even_nonneg (- x) ltac:(lia)) as Hn.
    rewrite round_even_opp in Hn. lia. }
  assert (y < 0 → round_even y ≤ 0) as Hny.
  { intros ?. pose proof (round_even_nonneg (- y) ltac:(lia)) as Hn.
    rewrite round_even_opp in Hn. lia. }
  pose proof (round_even_nonneg x) as Hpx.
  pose proof (round_even_nonneg y) as Hpy.
  unfold fl.
  destruct (Z.ltb_spec (Z.abs (round_even x)) (2 ^ 1024)) as [Hbx|Hbx],
    (Z.ltb_spec (Z.abs (round_even y)) (2 ^ 1024)) as [Hby|Hby];
    destruct (Z.ltb_spec x 0), (Z.ltb_spec y 0); simpl; try done; lia.
Qed.

Lemma float_le_refl x : x ≠ Fnan → float_le x x.
Proof. destruct x as [a|[]|]; simpl; done || lia. Qed.

Lemma float_le_trans x y z : float_le x y → float_le y z → float_le x z.
Proof.
  destruct x as [a|[]|], y as [b|[]|], z as [c|[]|]; simpl; try done; lia.
Qed.

Lemma float_le_not_Fnan x y : float_le x y → x ≠ Fnan ∧ y ≠ Fnan.
Proof. destruct x as [a|[]|], y as [b|[]|]; simpl; done. Qed.

Lemma float_ltb_le x y :
  x ≠ Fnan → y ≠ Fnan → float_ltb x y = false ↔ float_le y x.
Proof.
  destruct x as [a|[]|], y as [b|[]|]; simpl; intros; try done;
    rewrite ?Z.ltb_ge; done.
Qed.

Lemma float_ltb_lt x y :
  float_ltb x y = true → float_le x y ∧ ¬ float_le y x.
Proof.
  destruct x as [a|[]|], y as [b|[]|]; simpl; try done;
    rewrite ?Z.ltb_lt; intros; split; try done; lia.
Qed.

Lemma float_add_double x y : double x → double y → double (float_add x y).
Proof.
  destruct x as [a|s|], y as [b|s'|]; simpl; try done.
  - intros _ _. apply fl_double.
  - by destruct (Bool.eqb s s').
Qed.

Lemma fl_not_Fnan z : fl z ≠ Fnan.
Proof. unfold fl. by destruct (_ <? _). Qed.

Lemma float_le_neg_inf x : x ≠ Fnan → float_le (Finf true) x.
Proof. by destruct x as [a|[]|]. Qed.

Lemma float_le_pos_inf x : x ≠ Fnan → float_le x (Finf false).
Proof. by destruct x as [a|[]|]. Qed.

Lemma float_add_mono x x' y y' :
  float_le x x' → float_le y y' →
  float_add x y ≠ Fnan → float_add x' y' ≠ Fnan →
  float_le (float_add x y) (float_add x' y').
Proof.
  destruct x as [a|[]|], x' as [a'|[]|], y as [b|[]|], y' as [b'|[]|];
    simpl; try done; intros;
    first [ apply fl_mono; lia
          | apply float_le_neg_inf, fl_not_Fnan
          | apply float_le_pos_inf, fl_not_Fnan ].
Qed.

(** ** Sums of doubles *)

Lemma float_add_0_r x : double x → float_add x (Fnum 0) = x.
Proof.
  destruct x as [a|s|]; simpl; [|done..]. intros Hd.
  rewrite Z.add_0_r. by apply fl_of_double.
Qed.

Lemma float_add_0_l x : double x → float_add (Fnum 0) x = x.
Proof.
  destruct x as [a|s|]; simpl; [|done..]. intros Hd. by apply fl_of_double.
Qed.

Lemma double_0 : double (Fnum 0).
Proof. split; [by vm_compute|by vm_compute]. Qed.

Lemma fl_nonneg z : 0 ≤ z → float_le (Fnum 0) (fl z).
Proof.
  intros Hz. pose proof (fl_mono 0 z Hz) as Hm.
  by rewrite (fl_small 0) in Hm by (by vm_compute).
Qed.

Lemma float_add_nonneg x y :
  float_le (Fnum 0) x → float_le (Fnum 0) y → float_le (Fnum 0) (float_add x y).
Proof.
  destruct x as [a|[]|], y as [b|[]|]; simpl; try done.
  intros. apply fl_nonneg. lia.
Qed.

Lemma float_add_le_l x y :
  double x → float_le (Fnum 0) x → float_le (Fnum 0) y →
  float_le x (float_add x y).
Proof.
  intros Hd Hx Hy.
  rewrite <-(float_add_0_r x) at 1 by done.
  apply float_add_mono; [by eapply float_le_refl, float_le_not_Fnan|done| |].
  - rewrite float_add_0_r by done. by eapply float_le_not_Fnan.
  - by eapply float_le_not_Fnan, (float_add_nonneg x y).
Qed.

Lemma float_add_le_r x y :
  double y → float_le (Fnum 0) x → float_le (Fnum 0) y →
  float_le y (float_add x y).
Proof.
  intros Hd Hx Hy.
  rewrite <-(float_add_0_l y) at 1 by done.
  apply float_add_mono; [done|by eapply float_le_refl, float_le_not_Fnan| |].
  - rewrite float_add_0_l by done. by eapply float_le_not_Fnan.
  - by eapply float_le_not_Fnan, (float_add_nonneg x y).
Qed.

Lemma float_sum_nonneg acc cs :
  float_le (Fnum 0) acc → Forall (float_le (Fnum 0)) cs →
  float_le (Fnum 0) (float_sum acc cs).
Proof.
  intros Hacc Hcs. revert acc Hacc.
  induction Hcs as [|c cs Hc _ IH]; intros acc Hacc; [done|].
  apply IH. by apply float_add_nonneg.
Qed.

Lemma float_sum_double acc cs :
  double acc → Forall double cs → double (float_sum acc cs).
Proof.
  intros Hacc Hcs. revert acc Hacc.
  induction Hcs as [|c cs Hc _ IH]; intros acc Hacc; [done|].
  apply IH. by apply float_add_double.
Qed.

Lemma float_sum_mono acc acc' cs cs' :
  float_le (Fnum 0) acc → float_le acc acc' →
  Forall2 (λ c c', float_le (Fnum 0) c ∧ float_le c c') cs cs' →
  float_le (float_sum acc cs) (float_sum acc' cs').
Proof.
  intros Hacc Hle Hcs. revert acc acc' Hacc Hle.
  induction Hcs as [|c c' cs cs' [Hc Hcc] _ IH]; intros acc acc' Hacc Hle; [done|].
  assert (float_le (Fnum 0) acc') by exact (float_le_trans _ _ _ Hacc Hle).
  assert (float_le (Fnum 0) c') by exact (float_le_trans _ _ _ Hc Hcc).
  apply IH; [by apply float_add_nonneg|].
  apply float_add_mono; [done..| |].
  - by eapply float_le_not_Fnan, (float_add_nonneg acc c).
  - by eapply float_le_not_Fnan, (float_add_nonneg acc' c').
Qed.

Lemma float_sum_ge_acc acc cs :
  double acc → float_le (Fnum 0) acc →
  Forall (λ c, float_le (Fnum 0) c ∧ double c) cs →
  float_le acc (float_sum acc cs).
Proof.
  intros Hd Hacc Hcs. revert acc Hd Hacc.
  induction Hcs as [|c cs [Hc Hdc] _ IH]; intros acc Hd Hacc.
  - by eapply float_le_refl, float_le_not_Fnan.
  - simpl. eapply float_le_trans; [by apply (float_add_le_l acc c)|].
    apply IH; [by apply float_add_double|by apply float_add_nonneg].
Qed.

Lemma float_sum_ge_elem acc cs c :
  double acc → float_le (Fnum 0) acc →
  Forall (λ c, float_le (Fnum 0) c ∧ double c) cs →
  c ∈ cs → float_le c (float_sum acc cs).
Proof.
  intros Hd Hacc Hcs. revert acc Hd Hacc.
  induction Hcs as [|c' cs [Hc Hdc] Hcs IH]; intros acc Hd Hacc Hin;
    [by apply not_elem_of_nil in Hin|].
  simpl. apply elem_of_cons in Hin as [->|Hin].
  - eapply float_le_trans; [by apply (float_add_le_r acc c')|].
    apply float_sum_ge_acc; [by apply float_add_double|by apply float_add_nonneg|done].
  - apply IH; [by apply float_add_double|by apply float_add_nonneg|done].
Qed.

(** Sums of few small integers are exact. *)
Lemma float_sum_exact B a zs :
  Forall (λ z, Z.abs z ≤ B) zs →
  Z.abs a + Z.of_nat (length zs) * B ≤ 2 ^ 53 →
  float_sum (Fnum a) (Fnum <$> zs) = Fnum (a + Zsum id zs) ∧
  Z.abs (a + Zsum id zs) ≤ Z.abs a + Z.of_nat (length zs) * B.
Proof.
  intros Hzs. revert a.
  induction Hzs as [|z zs Hz _ IH]; intros a Hb.
  - cbn [fmap list_fmap float_sum foldl Zsum foldr length].
    rewrite Z.add_0_r. split; [done|]. change (Z.of_nat 0) with 0. lia.
  - cbn [length] in *. rewrite Nat2Z.inj_succ in *.
    assert (0 ≤ B) by lia.
    assert (0 ≤ Z.of_nat (length zs) * B) by nia.
    change (Zsum id (z :: zs)) with (z + Zsum id zs).
    cbn [fmap list_fmap float_sum foldl float_add].
    rewrite fl_small by lia.
    destruct (IH (a + z)) as [IH1 IH2]; [lia|].
    unfold float_sum in IH1. rewrite IH1. unfold id in *.
    split; [f_equal; lia|lia].
Qed.

(** ** Conversions *)

Lemma float_of_int_Some z c :
  float_of_int z = Some c → c = fl z ∧ ∃ r, c = Fnum r.
Proof.
  unfold float_of_int. destruct (fl z) as [r|s|]; [|done..].
  intros [= <-]. eauto.
Qed.

Lemma float_of_int_small z : Z.abs z ≤ 2 ^ 53 → float_of_int z = Some (Fnum z).
Proof. intros Hz. unfold float_of_int. by rewrite fl_small. Qed.

Lemma float_of_int_double z c : float_of_int z = Some c → double c.
Proof. intros [-> _]%float_of_int_Some. apply fl_double. Qed.

Lemma float_of_int_mono z z' c c' :
  z ≤ z' → float_of_int z = Some c → float_of_int z' = Some c' → float_le c c'.
Proof.
  intros Hz [-> _]%float_of_int_Some [-> _]%float_of_int_Some.
  by apply fl_mono.
Qed.

(** An integer between two integers that have doubles has a double. *)
Lemma float_of_int_between lo hi z :
  in_double_range lo hi → lo ≤ z ≤ hi → is_Some (float_of_int z).
Proof.
  intros [[cl Hl] [ch Hh]] [Hlo Hhi].
  apply float_of_int_Some in Hl as [-> [rl Hl]], Hh as [-> [rh Hh]].
  pose proof (fl_mono lo z Hlo) as H1. pose proof (fl_mono z hi Hhi) as H2.
  rewrite Hl in H1. rewrite Hh in H2. unfold float_of_int.
  destruct (fl z) as [r|[]|]; [by eexists|done..].
Qed.

Lemma to_float_cap_ok v c :
  cap_ok v → to_float v = Some c → float_le (Fnum 0) c ∧ double c.
Proof.
  destruct v as [z|x]; simpl.
  - intros Hz Hc. split; [|by eapply float_of_int_double].
    apply float_of_int_Some in Hc as [-> _]. by apply fl_nonneg.
  - by intros [? ?] [= <-].
Qed.

(** The double of a number is at most a double that the number is at
    most. *)
Lemma to_float_le v c x :
  to_float v = Some c → double x → float_le (value v) x → float_le c x.
Proof.
  destruct v as [z|y]; simpl; [|by intros [= <-]].
  intros [-> _]%float_of_int_Some Hd Hle.
  destruct x as [s|[]|]; try done.
  - rewrite <-(fl_of_double s Hd). apply fl_mono. done.
  - apply float_le_pos_inf, fl_not_Fnan.
Qed.

(** A double above the double of a number is above the number. *)
Lemma to_float_lt v c x :
  to_float v = Some c → double x → float_le c x → ¬ float_le x c →
  float_le (value v) x.
Proof.
  destruct v as [z|y]; simpl; [|by intros [= <-]].
  intros [-> _]%float_of_int_Some Hd Hle Hnle.
  destruct x as [s|[]|].
  - simpl. destruct (decide (z ≤ s)) as [|Hlt]; [done|]. exfalso. apply Hnle.
    rewrite <-(fl_of_double s Hd). apply fl_mono. lia.
  - exfalso. apply Hnle. apply float_le_neg_inf, fl_not_Fnan.
  - done.
  - by apply float_le_not_Fnan in Hle as [_ ?].
Qed.

(** ** The sums of [quicksum] *)

Lemma quicksum_from_terms {A : Type} (l : list A) (f : A → option num) acc :
  quicksum_from l f acc = cs ← mapM (term f) l; Some (float_sum acc cs).
Proof.
  revert acc. induction l as [|x l IH]; intros acc; [done|].
  assert (quicksum_from (x :: l) f acc
          = c ← term f x; quicksum_from l f (float_add acc c)) as ->.
  { simpl. unfold term. by destruct (f x) as [v|]. }
  cbn [mapM]. destruct (term f x) as [c|]; simpl; [|done].
  rewrite IH. by destruct (mapM (term f) l).
Qed.

Lemma quicksum_Some {A : Type} (l : list A) (f : A → option num) r :
  quicksum l f = Some r ↔
  ∃ cs, mapM (term f) l = Some cs ∧ r = float_sum (Fnum 0) cs.
Proof.
  unfold quicksum. rewrite quicksum_from_terms.
  destruct (mapM (term f) l) as [cs|]; simpl; split.
  - intros [= <-]. eauto.
  - by intros (? & [= <-] & ->).
  - done.
  - by intros (? & ? & _).
Qed.

Lemma quicksum_is_Some {A : Type} (l : list A) (f : A → option num) :
  is_Some (quicksum l f) ↔ ∀ x, x ∈ l → is_Some (term f x).
Proof.
  unfold quicksum. rewrite quicksum_from_terms, <-Forall_forall.
  rewrite <-(mapM_is_Some (term f) l).
  destruct (mapM (term f) l); simpl; split; intros [? ?]; try done; by eexists.
Qed.

Lemma mapM_terms {A : Type} (g : A → option float) (l : list A) cs :
  mapM g l = Some cs →
  length cs = length l ∧
  ∀ i x, l !! i = Some x → ∃ c, g x = Some c ∧ cs !! i = Some c.
Proof.
  intros Hm%mapM_Some. split; [by rewrite (Forall2_length _ _ _ Hm)|].
  intros i x Hx.
  destruct (Forall2_lookup_l _ _ _ _ _ Hm Hx) as (c & Hc & Hg). eauto.
Qed.

(** The sum of finite terms is not NaN. *)
Lemma float_sum_finite acc cs :
  acc ≠ Fnan → Forall (λ c, ∃ r, c = Fnum r) cs → float_sum acc cs ≠ Fnan.
Proof.
  intros Hacc Hcs. revert acc Hacc.
  induction Hcs as [|c cs [r ->] _ IH]; intros acc Hacc; [done|].
  apply IH. destruct acc as [a|s|]; simpl; [apply fl_not_Fnan|done..].
Qed.

Lemma term_int_item {K : Type} `{Countable K} (d : pydict K Z) k c :
  term (int_item d) k = Some c ↔
  ∃ z, dict_get d k = Some z ∧ float_of_int z = Some c.
Proof.
  unfold term, int_item. destruct (dict_get d k) as [z|]; simpl; split.
  - eauto.
  - by intros (? & [= <-] & ?).
  - done.
  - by intros (? & ? & _).
Qed.

Lemma quicksum_int_item_not_Fnan {K : Type} `{Countable K}
    (d : pydict K Z) l r :
  quicksum l (int_item d) = Some r → r ≠ Fnan ∧ double r.
Proof.
  intros (cs & Hcs & ->)%quicksum_Some. apply mapM_Some in Hcs.
  assert (Forall (λ c, (∃ r, c = Fnum r) ∧ double c) cs) as Hall.
  { apply Forall_forall. intros c Hc.
    apply list_elem_of_lookup in Hc as [i Hi].
    destruct (Forall2_lookup_r _ _ _ _ _ Hcs Hi) as (k & _ & Hk).
    apply term_int_item in Hk as (z & _ & Hz).
    split; [by apply float_of_int_Some in Hz as [_ ?]|].
    by eapply float_of_int_double. }
  split.
  - apply float_sum_finite; [done|]. eapply Forall_impl; [done|]. by intros ? [? _].
  - apply float_sum_double; [apply double_0|].
    eapply Forall_impl; [done|]. by intros ? [_ ?].
Qed.

(** Sums of few small integers are exact. *)
Lemma quicksum_exact {A : Type} (l : list A) (f : A → option num)
    (g : A → Z) (B : Z) :
  (∀ x, x ∈ l → ∃ v, f x = Some v ∧ value v = Fnum (g x) ∧ Z.abs (g x) ≤ B) →
  Z.of_nat (length l) * B ≤ 2 ^ 53 →
  quicksum l f = Some (Fnum (Zsum g l)) ∧
  Z.abs (Zsum g l) ≤ Z.of_nat (length l) * B.
Proof.
  intros Hall Hb.
  assert (mapM (term f) l = Some (Fnum <$> (g <$> l))) as Hm.
  { apply mapM_Some. apply Forall2_fmap_r, Forall2_fmap_r.
    apply Forall_Forall2_diag, Forall_forall. intros x Hx.
    destruct (Hall x Hx) as (v & Hv & Hval & Hgx).
    assert (Z.abs (g x) ≤ 2 ^ 53).
    { destruct l as [|y l']; [by apply not_elem_of_nil in Hx|].
      simpl length in Hb. rewrite Nat2Z.inj_succ in Hb. nia. }
    unfold term. rewrite Hv. simpl. destruct v as [z|y]; simpl in *.
    - injection Hval as ->. by apply float_of_int_small.
    - by rewrite Hval. }
  destruct (float_sum_exact B 0 (g <$> l)) as [Hsum Hbound].
  { apply Forall_fmap, Forall_forall. intros x Hx.
    destruct (Hall x Hx) as (v & _ & _ & Hgx). done. }
  { rewrite length_fmap. simpl. lia. }
  rewrite length_fmap in Hbound. simpl in Hsum, Hbound.
  assert (Zsum id (g <$> l) = Zsum g l) as Heq.
  { clear. induction l as [|x l IH]; simpl; [done|]. unfold id at 1.
    by rewrite <-IH. }
  rewrite Heq in Hsum, Hbound. split; [|lia].
  apply quicksum_Some. exists (Fnum <$> (g <$> l)). by rewrite Hsum.
Qed.


(** ** The repair of the time-window generators *)

Lemma dict_value_get C k v : dict_get C k = Some v → dict_value C k = value v.
Proof. unfold dict_value. by intros ->. Qed.

Lemma dict_num_get C k v : dict_get C k = Some v → dict_num C k = num_Z v.
Proof. unfold dict_num. by intros ->. Qed.

Section ints_facts.
Context {K : Type} `{Countable K}.
Implicit Types (d : pydict K Z).

Lemma ints_get d k : dict_get (ints d) k = Int <$> dict_get d k.
Proof. unfold dict_get, ints. simpl. apply lookup_fmap. Qed.

Lemma ints_shape d : dict_shape (ints d) = dict_shape d.
Proof. unfold dict_shape, ints. simpl. by rewrite dom_fmap_L. Qed.

Lemma ints_wf d : dict_wf d → dict_wf (ints d).
Proof. unfold dict_wf, ints. simpl. by rewrite dom_fmap_L. Qed.

Lemma term_ints d k : term (dict_get (ints d)) k = term (int_item d) k.
Proof. unfold term, int_item. by rewrite ints_get. Qed.
End ints_facts.

Lemma dict_add_Some v k C C' :
  dict_add v k C = Some C' →
  ∃ c x, dict_get C k = Some c ∧ to_float c = Some x ∧
         C' = dict_set k (Float (float_add x v)) C.
Proof.
  unfold dict_add. destruct (dict_get C k) as [c|]; simpl; [|done].
  destruct (to_float c) as [x|] eqn:Hx; simpl; [|done]. intros [= <-].
  by exists c, x.
Qed.

Lemma dict_add_step v k C C' :
  dict_add v k C = Some C' →
  dict_shape C' = dict_shape C ∧
  (∃ c x, dict_get C k = Some c ∧ to_float c = Some x ∧
          dict_get C' k = Some (Float (float_add x v))) ∧
  ∀ j, j ≠ k → dict_get C' j = dict_get C j.
Proof.
  intros (c & x & Hc & Hx & ->)%dict_add_Some. split; [|split].
  - apply dict_shape_set. by rewrite Hc.
  - exists c, x. by rewrite dict_get_set_eq.
  - intros j Hj. by apply dict_get_set_ne.
Qed.

Lemma for_each_dict_add l v C C' :
  NoDup l →
  for_each l (dict_add v) C = Some C' →
  dict_shape C' = dict_shape C ∧
  (∀ k, k ∈ l → ∃ c x, dict_get C k = Some c ∧ to_float c = Some x ∧
                       dict_get C' k = Some (Float (float_add x v))) ∧
  (∀ k, k ∉ l → dict_get C' k = dict_get C k).
Proof.
  intros Hnd Hrun.
  refine (for_each_ind (λ past cur,
    dict_shape cur = dict_shape C ∧
    (∀ k, k ∈ past → ∃ c x, dict_get C k = Some c ∧ to_float c = Some x ∧
                            dict_get cur k = Some (Float (float_add x v))) ∧
    (∀ k, k ∉ past → dict_get cur k = dict_get C k))
    l (dict_add v) C C' _ _ Hrun).
  - split; [done|]. split; [|done]. intros k Hk. by apply not_elem_of_nil in Hk.
  - intros past x rest C1 C2 -> (Hshape & Hin & Hout)
      (Hshape' & (c & y & Hc & Hy & Hnew) & Hother)%dict_add_step.
    apply NoDup_app in Hnd as (_ & Hfresh & _).
    assert (x ∉ past) as Hx by (intros ?; apply (Hfresh x); [done|by left]).
    split; [congruence|]. split.
    + intros k [Hk| ->%list_elem_of_singleton]%elem_of_app.
      * destruct (Hin k Hk) as (c' & x' & ? & ? & ?).
        exists c', x'. rewrite Hother by (intros ->; done). done.
      * exists c, y. rewrite <-(Hout x Hx). done.
    + intros k Hk. rewrite Hother, Hout; [done| |].
      * intros ?. apply Hk, elem_of_app. by left.
      * intros ->. apply Hk, elem_of_app. right. by left.
Qed.

Lemma for_each_dict_add_total l v C :
  (∀ k, k ∈ l → is_Some (term (dict_get C) k)) →
  ∃ C', for_each l (dict_add v) C = Some C'.
Proof.
  intros Hpre.
  destruct (for_each_total
    (λ cur, ∀ k, k ∈ l → is_Some (term (dict_get cur) k)) l (dict_add v) C)
    as (C' & HC' & _); [done| |by exists C'].
  intros k C1 Hk Hconv.
  destruct (Hconv k Hk) as [x Hx]. unfold term in Hx.
  destruct (dict_get C1 k) as [c|] eqn:Hc; simpl in Hx; [|done].
  exists (dict_set k (Float (float_add x v)) C1). split.
  - unfold dict_add. rewrite Hc. simpl. by rewrite Hx.
  - intros j Hj. unfold term. rewrite dict_get_set. case_decide; [by eexists|].
    by apply Hconv.
Qed.

(** *** Capacities after additions *)

Lemma updated_refl C : updated C C.
Proof. split; [done|]. intros k. by left. Qed.

Lemma updated_term C C' k :
  updated C C' → is_Some (term (dict_get C') k) ↔ is_Some (term (dict_get C) k).
Proof.
  intros [_ Hup]. unfold term at 1.
  destruct (Hup k) as [->|(x' & Hx' & Hconv)]; [done|].
  split; [done|]. intros _. rewrite Hx'. by eexists.
Qed.

Lemma updated_trans C1 C2 C3 : updated C1 C2 → updated C2 C3 → updated C1 C3.
Proof.
  intros H12 H23. pose proof H12 as [Hs12 Hup12]. pose proof H23 as [Hs23 Hup23].
  split; [congruence|]. intros k.
  destruct (Hup23 k) as [->|(x' & Hx' & Hconv)]; [apply Hup12|].
  right. exists x'. split; [done|]. by apply (updated_term C1 C2).
Qed.

Lemma updated_is_Some C C' k :
  updated C C' → is_Some (dict_get C' k) ↔ is_Some (dict_get C k).
Proof. intros [Hshape _]. by apply dict_shape_is_Some. Qed.

Lemma dict_add_updated v k C C' : dict_add v k C = Some C' → updated C C'.
Proof.
  intros (Hshape & (c & x & Hc & Hx & Hnew) & Hother)%dict_add_step.
  split; [done|]. intros j. destruct (decide (j = k)) as [->|Hne].
  - right. eexists. split; [done|]. unfold term. rewrite Hc. by eexists.
  - left. by apply Hother.
Qed.

Lemma repair_interval_Some d_w t2 t1 C C' :
  repair_interval d_w t2 t1 C = Some C' →
  ∃ sum_C sum_k_l,
    quicksum (range2 t1 (t2 + 1)) (dict_get C) = Some sum_C ∧
    quicksum (windows_in t1 t2) (int_item d_w) = Some sum_k_l ∧
    if float_ltb sum_C sum_k_l
    then for_each (range2 t1 (t2 + 1)) (dict_add sum_k_l) C = Some C'
    else C' = C.
Proof.
  unfold repair_interval.
  destruct (quicksum _ (dict_get C)) as [sum_C|]; simpl; [|done].
  destruct (quicksum _ (int_item d_w)) as [sum_k_l|]; simpl; [|done].
  intros Hrun. exists sum_C, sum_k_l. split; [done|]. split; [done|].
  destruct (float_ltb sum_C sum_k_l); [done|]. by injection Hrun.
Qed.

Lemma repair_interval_updated d_w t2 t1 C C' :
  repair_interval d_w t2 t1 C = Some C' → updated C C'.
Proof.
  intros (sum_C & sum_k_l & _ & _ & Hrun)%repair_interval_Some.
  destruct (float_ltb sum_C sum_k_l); [|subst; apply updated_refl].
  revert Hrun. apply (for_each_inv (λ cur, updated C cur)); [apply updated_refl|].
  intros k C1 C2 _ Hup Hstep. eapply updated_trans; [done|].
  by eapply dict_add_updated.
Qed.

Lemma repair_interval_is_Some d_w t2 t1 C :
  is_Some (repair_interval d_w t2 t1 C) ↔
  (∀ k, t1 ≤ k ≤ t2 → is_Some (term (dict_get C) k)) ∧
  (∀ k l, t1 ≤ k ≤ l ∧ l ≤ t2 → is_Some (term (int_item d_w) (k, l))).
Proof.
  split.
  - intros [C' (sum_C & sum_k_l & HC & Hd & _)%repair_interval_Some]. split.
    + intros k Hk.
      apply (proj1 (quicksum_is_Some (range2 t1 (t2 + 1)) (dict_get C)));
        [by rewrite HC|].
      apply elem_of_range2. lia.
    + intros k l Hkl.
      apply (proj1 (quicksum_is_Some (windows_in t1 t2) (int_item d_w)));
        [by rewrite Hd|].
      by apply elem_of_windows_in.
  - intros [HC Hd]. unfold repair_interval.
    destruct (proj2 (quicksum_is_Some (range2 t1 (t2 + 1)) (dict_get C)))
      as [sum_C ->].
    { intros k Hk%elem_of_range2. apply HC. lia. }
    destruct (proj2 (quicksum_is_Some (windows_in t1 t2) (int_item d_w)))
      as [sum_k_l ->].
    { intros [k l] Hkl%elem_of_windows_in. by apply Hd. }
    simpl. destruct (float_ltb sum_C sum_k_l); [|by eexists].
    destruct (for_each_dict_add_total (range2 t1 (t2 + 1)) sum_k_l C)
      as [C' ->]; [|by eexists].
    intros k Hk%elem_of_range2. apply HC. lia.
Qed.

Lemma repair_tw_schedule T d_w C :
  repair_tw T d_w C = for_each (repair_schedule T) (tw_step d_w) C.
Proof.
  exact (for_each_nested (range T) (λ t2, range (t2 + 1))
           (λ t2 t1, repair_interval d_w t2 t1) C).
Qed.

Lemma repair_tw_updated T d_w C C' :
  repair_tw T d_w C = Some C' → updated C C'.
Proof.
  rewrite repair_tw_schedule.
  apply (for_each_inv (λ cur, updated C cur)); [apply updated_refl|].
  intros [t2 t1] C1 C2 _ Hup Hstep. eapply updated_trans; [done|].
  by eapply repair_interval_updated.
Qed.

Lemma repair_tw_shape T d_w C C' :
  repair_tw T d_w C = Some C' → dict_shape C' = dict_shape C.
Proof. by intros [? _]%repair_tw_updated. Qed.

(** The repair returns exactly when every capacity of the horizon and
    every window demand has a double. *)
Lemma repair_tw_is_Some T d_w C :
  is_Some (repair_tw T d_w C) ↔
  (∀ k, 0 ≤ k < T → is_Some (term (dict_get C) k)) ∧
  (∀ k l, 0 ≤ k ≤ l ∧ l < T → is_Some (term (int_item d_w) (k, l))).
Proof.
  rewrite repair_tw_schedule. split.
  - intros [C' Hrun].
    cut (∀ x, x ∈ repair_schedule T →
           (∀ k, x.2 ≤ k ≤ x.1 → is_Some (term (dict_get C) k)) ∧
           (∀ k l, x.2 ≤ k ≤ l ∧ l ≤ x.1 →
              is_Some (term (int_item d_w) (k, l)))).
    { intros Hall. split.
      - intros k Hk. apply (Hall (k, k)); [|simpl; lia].
        apply elem_of_repair_schedule. lia.
      - intros k l Hkl. apply (Hall (l, k)); [|simpl; lia].
        apply elem_of_repair_schedule. lia. }
    revert Hrun.
    apply (for_each_ind (λ past cur,
      updated C cur ∧
      ∀ x, x ∈ past →
        (∀ k, x.2 ≤ k ≤ x.1 → is_Some (term (dict_get C) k)) ∧
        (∀ k l, x.2 ≤ k ≤ l ∧ l ≤ x.1 →
           is_Some (term (int_item d_w) (k, l))))).
    + split; [apply updated_refl|]. intros x Hx. by apply not_elem_of_nil in Hx.
    + intros past [t2 t1] rest C1 C2 _ [Hup Hpast] Hstep.
      split.
      { eapply updated_trans; [done|]. by eapply repair_interval_updated. }
      intros x [Hx| ->%list_elem_of_singleton]%elem_of_app; [by apply Hpast|].
      assert (is_Some (repair_interval d_w t2 t1 C1)) as [HC Hd]%repair_interval_is_Some
        by (by eexists).
      simpl. split; [|done]. intros k Hk.
      apply (updated_term C C1 k Hup). by apply HC.
  - intros [HC Hd].
    destruct (for_each_total (λ cur, updated C cur)
                (repair_schedule T) (tw_step d_w) C) as (C' & -> & _);
      [apply updated_refl| |by eexists].
    intros [t2 t1] C1 Hx%elem_of_repair_schedule Hup.
    destruct (proj2 (repair_interval_is_Some d_w t2 t1 C1)) as [C2 HC2].
    { split.
      - intros k Hk. apply (updated_term C C1 k Hup). apply HC. lia.
      - intros k l Hkl. apply Hd. lia. }
    exists C2. split; [done|]. eapply updated_trans; [done|].
    by eapply repair_interval_updated.
Qed.

(** *** The repair on capacities that are not negative *)

Lemma cap_ok_value v : cap_ok v → float_le (Fnum 0) (value v).
Proof. destruct v as [z|x]; simpl; [done|by intros [? _]]. Qed.

Lemma caps_ok_value C k : caps_ok C → float_le (Fnum 0) (dict_value C k).
Proof.
  intros Hok. unfold dict_value.
  destruct (dict_get C k) as [v|] eqn:Hv; simpl; [|done].
  by eapply cap_ok_value, Hok.
Qed.

Lemma caps_le_refl C : caps_ok C → caps_le C C.
Proof.
  intros Hok k. eapply float_le_refl, float_le_not_Fnan.
  by apply caps_ok_value.
Qed.

Lemma caps_le_trans C1 C2 C3 : caps_le C1 C2 → caps_le C2 C3 → caps_le C1 C3.
Proof. intros H12 H23 k. by eapply float_le_trans. Qed.

Lemma ints_caps_ok C : nonneg C → caps_ok (ints C).
Proof.
  intros Hnn k v. rewrite ints_get.
  destruct (dict_get C k) as [z|] eqn:Hz; simpl; [|done]. intros [= <-].
  simpl. specialize (Hnn k). by rewrite (dict_val_get _ _ _ Hz) in Hnn.
Qed.

Lemma term_caps_ok C k c :
  caps_ok C → term (dict_get C) k = Some c → float_le (Fnum 0) c ∧ double c.
Proof.
  intros Hok. unfold term.
  destruct (dict_get C k) as [v|] eqn:Hv; simpl; [|done].
  apply to_float_cap_ok. by eapply Hok.
Qed.

Lemma terms_caps_ok C l cs :
  caps_ok C → mapM (term (dict_get C)) l = Some cs →
  Forall (λ c, float_le (Fnum 0) c ∧ double c) cs.
Proof.
  intros Hok Hcs%mapM_Some. apply Forall_forall. intros c Hc.
  apply list_elem_of_lookup in Hc as [i Hi].
  destruct (Forall2_lookup_r _ _ _ _ _ Hcs Hi) as (k & _ & Hk).
  by eapply term_caps_ok.
Qed.

Lemma quicksum_caps_ok C l r :
  caps_ok C → quicksum l (dict_get C) = Some r →
  float_le (Fnum 0) r ∧ double r.
Proof.
  intros Hok (cs & Hcs & ->)%quicksum_Some.
  pose proof (terms_caps_ok C l cs Hok Hcs) as Hall. split.
  - apply float_sum_nonneg; [done|]. eapply Forall_impl; [done|]. by intros ? [? _].
  - apply float_sum_double; [apply double_0|].
    eapply Forall_impl; [done|]. by intros ? [_ ?].
Qed.

Lemma quicksum_caps_elem C l r k c :
  caps_ok C → quicksum l (dict_get C) = Some r → k ∈ l →
  term (dict_get C) k = Some c → float_le c r.
Proof.
  intros Hok (cs & Hcs & ->)%quicksum_Some Hk Hc.
  pose proof (terms_caps_ok C l cs Hok Hcs) as Hall.
  apply float_sum_ge_elem; [apply double_0|done|done|].
  apply list_elem_of_lookup in Hk as [i Hi]. apply mapM_Some in Hcs.
  destruct (Forall2_lookup_l _ _ _ _ _ Hcs Hi) as (c' & Hc' & Hk').
  rewrite Hc in Hk'. injection Hk' as <-. by eapply list_elem_of_lookup_2.
Qed.

(** One addition [C[k] += S] of a double [S] that is above the double of
    [C[k]]. *)
Lemma cap_add_ok v x S :
  cap_ok v → to_float v = Some x → double S →
  float_le x S → ¬ float_le S x →
  cap_ok (Float (float_add x S)) ∧ float_le S (float_add x S) ∧
  num_le v (Float (float_add x S)).
Proof.
  intros Hv Hx HdS Hle Hnle.
  destruct (to_float_cap_ok v x Hv Hx) as [Hx0 Hdx].
  assert (float_le (Fnum 0) S) as HS0 by exact (float_le_trans _ _ _ Hx0 Hle).
  pose proof (float_add_le_r x S HdS Hx0 HS0) as HS.
  split; [|split; [done|]].
  - split; [by apply float_add_nonneg|by apply float_add_double].
  - unfold num_le. simpl. eapply float_le_trans; [|done].
    by eapply to_float_lt.
Qed.

Lemma dict_add_monotone_step S k Ca Cb :
  caps_ok Ca → double S →
  (∀ c x, dict_get Ca k = Some c → to_float c = Some x →
          float_le x S ∧ ¬ float_le S x) →
  dict_add S k Ca = Some Cb →
  caps_ok Cb ∧ caps_le Ca Cb.
Proof.
  intros Hok HdS Hk (c & x & Hc & Hx & ->)%dict_add_Some.
  destruct (Hk c x Hc Hx) as [Hle Hnle].
  destruct (cap_add_ok c x S) as (Hnew & _ & Hcmp); [by eapply Hok|done..|].
  split.
  - intros j v. rewrite dict_get_set. case_decide; [by intros [= <-]|apply Hok].
  - intros j. unfold dict_value. rewrite dict_get_set. case_decide.
    + subst j. rewrite Hc. done.
    + eapply float_le_refl, float_le_not_Fnan. by apply (caps_ok_value Ca j).
Qed.

(** The additions of one repaired interval. *)
Lemma dict_add_loop S l C1 :
  NoDup l → caps_ok C1 → double S →
  (∀ k c x, k ∈ l → dict_get C1 k = Some c → to_float c = Some x →
            float_le x S ∧ ¬ float_le S x) →
  updates_monotone caps_le l (dict_add S) C1 ∧
  ∀ C2, for_each l (dict_add S) C1 = Some C2 → caps_ok C2 ∧ caps_le C1 C2.
Proof.
  intros Hnd Hok HdS Habove.
  assert (∀ past rest Ca, l = past ++ rest →
            for_each past (dict_add S) C1 = Some Ca →
            caps_ok Ca ∧ caps_le C1 Ca ∧
            ∀ k, k ∉ past → dict_get Ca k = dict_get C1 k) as Hinv.
  { intros past rest Ca Hl Hrun.
    refine (for_each_ind (λ past' cur,
      caps_ok cur ∧ caps_le C1 cur ∧
      ∀ k, k ∉ past' → dict_get cur k = dict_get C1 k)
      past (dict_add S) C1 Ca _ _ Hrun).
    - split; [done|]. split; [by apply caps_le_refl|done].
    - intros past0 x rest0 Cx Cy Hpast (Hokx & Hlex & Hsame) Hstep.
      assert (NoDup (past0 ++ x :: rest0)) as Hnd'.
      { rewrite <-Hpast. rewrite Hl in Hnd. by apply NoDup_app in Hnd as (? & _). }
      apply NoDup_app in Hnd' as (_ & Hfresh & _).
      assert (x ∉ past0) as Hx by (intros ?; apply (Hfresh x); [done|by left]).
      assert (x ∈ l) as Hxl.
      { rewrite Hl, Hpast. apply elem_of_app. left. apply elem_of_app.
        right. by left. }
      destruct (dict_add_monotone_step S x Cx Cy) as [Hoky Hley]; [done..| |done|].
      { intros c y Hc Hy. rewrite (Hsame x Hx) in Hc. by eapply Habove. }
      split; [done|]. split; [by eapply caps_le_trans|].
      intros k Hk. apply dict_add_step in Hstep as (_ & _ & Hother).
      rewrite Hother, Hsame; [done| |].
      + intros ?. apply Hk, elem_of_app. by left.
      + intros ->. apply Hk, elem_of_app. right. by left. }
  split.
  - intros past x rest Ca Cb Hl Hpast Hstep.
    destruct (Hinv past (x :: rest) Ca Hl Hpast) as (Hoka & _ & Hsame).
    rewrite Hl in Hnd. apply NoDup_app in Hnd as (_ & Hfresh & _).
    assert (x ∉ past) as Hx by (intros ?; apply (Hfresh x); [done|by left]).
    eapply (dict_add_monotone_step S x Ca Cb); [done..| |done].
    intros c y Hc Hy. rewrite (Hsame x Hx) in Hc.
    eapply Habove; [|done..]. rewrite Hl. apply elem_of_app. right. by left.
  - intros C2 Hrun.
    destruct (Hinv l [] C2) as (? & ? & _); [by rewrite app_nil_r|done|done].
Qed.

(** When the check of an interval fails, the double of every capacity of
    the interval is below the sum of the demand. *)
Lemma guard_above C l sum_C S k c x :
  caps_ok C → quicksum l (dict_get C) = Some sum_C →
  float_ltb sum_C S = true →
  k ∈ l → dict_get C k = Some c → to_float c = Some x →
  float_le x S ∧ ¬ float_le S x.
Proof.
  intros Hok HC [Hle Hnle]%float_ltb_lt Hk Hc Hx.
  assert (float_le x sum_C) as Hxs.
  { eapply quicksum_caps_elem; [done..|]. unfold term. by rewrite Hc. }
  split; [by eapply float_le_trans|].
  intros HSx. apply Hnle. by eapply float_le_trans.
Qed.

Lemma passes_check_same d_w C t1 t2 sum_C sum_k_l :
  quicksum (range2 t1 (t2 + 1)) (dict_get C) = Some sum_C →
  quicksum (windows_in t1 t2) (int_item d_w) = Some sum_k_l →
  float_ltb sum_C sum_k_l = false →
  repair_interval d_w t2 t1 C = Some C.
Proof. intros HC Hd Hlt. unfold repair_interval. rewrite HC, Hd. simpl. by rewrite Hlt. Qed.

(** The repair of one interval on capacities that are not negative:
    nothing decreases and the interval ends up passing the check. *)
Lemma repair_interval_step d_w t2 t1 C C' :
  caps_ok C →
  repair_interval d_w t2 t1 C = Some C' →
  caps_ok C' ∧ caps_le C C' ∧ (t1 ≤ t2 → passes_check d_w C' t1 t2).
Proof.
  intros Hok (sum_C & S & HC & Hd & Hrun)%repair_interval_Some.
  destruct (float_ltb sum_C S) eqn:Hlt.
  2:{ subst C'. split; [done|]. split; [by apply caps_le_refl|].
      intros _. by exists sum_C, S. }
  destruct (quicksum_int_item_not_Fnan d_w _ _ Hd) as [HSnan HSd].
  destruct (dict_add_loop S (range2 t1 (t2 + 1)) C) as [_ Hloop];
    [apply NoDup_range2|done|done| |].
  { intros k c x Hk Hc Hx. by eapply guard_above. }
  destruct (Hloop C' Hrun) as [Hok' Hle']. split; [done|]. split; [done|].
  intros Ht.
  apply for_each_dict_add in Hrun as (_ & Hin & _); [|apply NoDup_range2].
  assert (is_Some (quicksum (range2 t1 (t2 + 1)) (dict_get C'))) as [sum' Hsum'].
  { apply quicksum_is_Some. intros k Hk.
    destruct (Hin k Hk) as (c & x & _ & _ & Hnew).
    unfold term. rewrite Hnew. by eexists. }
  exists sum', S. split; [done|]. split; [done|].
  assert (t1 ∈ range2 t1 (t2 + 1)) as Ht1 by (apply elem_of_range2; lia).
  destruct (Hin t1 Ht1) as (c & x & Hc & Hx & Hnew).
  destruct (guard_above C _ sum_C S t1 c x Hok HC Hlt Ht1 Hc Hx) as [HxS HSx].
  destruct (cap_add_ok c x S) as (_ & HS & _); [by eapply Hok|done..|].
  assert (float_le (float_add x S) sum') as Hel.
  { eapply quicksum_caps_elem; [done..|]. unfold term. by rewrite Hnew. }
  apply float_ltb_le; [|done|by eapply float_le_trans].
  by eapply float_le_not_Fnan.
Qed.

(** An interval that passes the check keeps passing it when capacities
    grow. *)
Lemma passes_check_mono d_w C1 C2 t1 t2 :
  caps_ok C1 → caps_ok C2 → updated C1 C2 → caps_le C1 C2 →
  passes_check d_w C1 t1 t2 → passes_check d_w C2 t1 t2.
Proof.
  intros Hok1 Hok2 Hup Hle (sum1 & S & HC1 & Hd & Hlt).
  set (l := range2 t1 (t2 + 1)) in *.
  assert (is_Some (quicksum l (dict_get C2))) as [sum2 HC2].
  { apply quicksum_is_Some. intros k Hk. apply (updated_term C1 C2 k Hup).
    by apply (proj1 (quicksum_is_Some l (dict_get C1))); [rewrite HC1|]. }
  exists sum2, S. split; [done|]. split; [done|].
  destruct (quicksum_int_item_not_Fnan d_w _ _ Hd) as [HSnan _].
  destruct (quicksum_caps_ok C1 l sum1 Hok1 HC1) as [Hs1 _].
  destruct (quicksum_caps_ok C2 l sum2 Hok2 HC2) as [Hs2 _].
  apply float_ltb_le in Hlt; [|by eapply float_le_not_Fnan|done].
  apply float_ltb_le; [by eapply float_le_not_Fnan|done|].
  eapply float_le_trans; [done|].
  apply quicksum_Some in HC1 as (cs1 & Hcs1 & ->).
  apply quicksum_Some in HC2 as (cs2 & Hcs2 & ->).
  apply float_sum_mono; [done|done|].
  pose proof (mapM_terms _ _ _ Hcs1) as [Hlen1 Hlk1].
  pose proof (mapM_terms _ _ _ Hcs2) as [Hlen2 Hlk2].
  apply Forall2_same_length_lookup. split; [congruence|].
  intros i c1 c2 Hi1 Hi2.
  assert (is_Some (l !! i)) as [k Hk].
  { apply lookup_lt_is_Some. rewrite <-Hlen1. by eapply lookup_lt_Some. }
  destruct (Hlk1 i k Hk) as (c1' & Ht1 & Hc1').
  destruct (Hlk2 i k Hk) as (c2' & Ht2 & Hc2'). simplify_eq.
  destruct (term_caps_ok C1 k c1 Hok1 Ht1) as [Hc0 _]. split; [done|].
  destruct Hup as [_ Hup]. unfold term in Ht1, Ht2.
  destruct (Hup k) as [Heq|(x' & Hx' & _)].
  - rewrite Heq, Ht1 in Ht2. injection Ht2 as <-.
    by eapply float_le_refl, float_le_not_Fnan.
  - rewrite Hx' in Ht2. injection Ht2 as <-.
    destruct (dict_get C1 k) as [v|] eqn:Hv; simpl in Ht1; [|done].
    destruct (Hok2 k (Float x') Hx') as [_ Hdx'].
    eapply to_float_le; [done..|].
    specialize (Hle k).
    by rewrite (dict_value_get _ _ _ Hv), (dict_value_get _ _ _ Hx') in Hle.
Qed.

Lemma tw_step_monotone d_w x C C' :
  caps_ok C → tw_step d_w x C = Some C' → caps_ok C' ∧ caps_le C C'.
Proof.
  intros Hok Hrun. unfold tw_step in Hrun.
  apply repair_interval_step in Hrun as (? & ? & _); done.
Qed.

(** After the repair of capacities that are not negative, every interval
    of the horizon passes the check. *)
Lemma repair_tw_checked T d_w C C' :
  caps_ok C →
  repair_tw T d_w C = Some C' →
  caps_ok C' ∧ caps_le C C' ∧
  ∀ t1 t2, 0 ≤ t1 ≤ t2 ∧ t2 < T → passes_check d_w C' t1 t2.
Proof.
  intros Hok. rewrite repair_tw_schedule. intros Hrun.
  cut (caps_ok C' ∧ caps_le C C' ∧
       ∀ x, x ∈ repair_schedule T → passes_check d_w C' x.2 x.1).
  { intros (? & ? & Hall). repeat split; [done..|].
    intros t1 t2 Ht. apply (Hall (t2, t1)). by apply elem_of_repair_schedule. }
  revert Hrun.
  apply (for_each_ind (λ past cur,
    caps_ok cur ∧ caps_le C cur ∧
    ∀ x, x ∈ past → passes_check d_w cur x.2 x.1)).
  - split; [done|]. split; [by apply caps_le_refl|]. intros x Hx.
    by apply not_elem_of_nil in Hx.
  - intros past [t2 t1] rest C1 C2 Hsched (Hok1 & Hle & Hpast) Hstep.
    pose proof (repair_interval_updated _ _ _ _ _ Hstep) as Hup.
    apply repair_interval_step in Hstep as (Hok2 & Hle2 & Hnew); [|done].
    split; [done|]. split; [by eapply caps_le_trans|].
    intros x [Hx| ->%list_elem_of_singleton]%elem_of_app.
    + eapply passes_check_mono; [exact Hok1|done..|by apply Hpast].
    + simpl. apply Hnew.
      assert ((t2, t1) ∈ repair_schedule T) as Hin.
      { rewrite Hsched. apply elem_of_app. right. by left. }
      apply elem_of_repair_schedule in Hin. simpl. lia.
Qed.

(** The repair changes nothing when every interval passes the check. *)
Lemma repair_tw_fixed T d_w C :
  (∀ t1 t2, 0 ≤ t1 ≤ t2 ∧ t2 < T → passes_check d_w C t1 t2) →
  repair_tw T d_w C = Some C.
Proof.
  intros Hall. rewrite repair_tw_schedule. apply for_each_fixed.
  intros [t2 t1] Hx%elem_of_repair_schedule. unfold tw_step. simpl.
  destruct (Hall t1 t2 Hx) as (sum_C & S & HC & Hd & Hlt).
  by eapply passes_check_same.
Qed.

Lemma repair_tw_monotone T d_w C0 :
  caps_ok C0 →
  updates_monotone caps_le (repair_schedule T) (tw_step d_w) C0 ∧
  additions_monotone T d_w C0 ∧
  ∀ C, repair_tw T d_w C0 = Some C → caps_le C0 C.
Proof.
  intros Hok.
  destruct (for_each_monotone caps_le caps_ok (repair_schedule T)
              (tw_step d_w) C0) as [Hsteps Hrun];
    [apply caps_le_refl|apply caps_le_trans|done| |].
  { intros x C1 C2 _. apply tw_step_monotone. }
  split; [done|]. split.
  - intros past t2 t1 rest C1 sum_C sum_k_l Hsched Hpast HC Hd Hlt.
    assert (caps_ok C1) as Hok1.
    { revert Hpast. apply for_each_inv; [done|].
      intros x Ca Cb _ Hoka Hstep. by eapply tw_step_monotone. }
    destruct (quicksum_int_item_not_Fnan d_w _ _ Hd) as [_ HSd].
    apply dict_add_loop; [apply NoDup_range2|done..|].
    intros k c x Hk Hc Hx. by eapply guard_above.
  - intros C HC. rewrite repair_tw_schedule in HC. by apply Hrun.
Qed.

(** *** The repair within the range of exact sums *)

Lemma range2_nil a b : b ≤ a → range2 a b = [].
Proof. intros Hab. unfold range2. apply seqZ_nil. lia. Qed.

Lemma length_range2 a b : 0 ≤ Z.of_nat (length (range2 a b)) ≤ Z.max 0 (b - a).
Proof. unfold range2. rewrite length_seqZ. lia. Qed.

Lemma length_pairs_le {A B : Type} (l : list A) (f : A → list B) (m : Z) :
  0 ≤ m → (∀ x, x ∈ l → Z.of_nat (length (f x)) ≤ m) →
  Z.of_nat (length (x ← l; y ← f x; [(x, y)])) ≤ Z.of_nat (length l) * m.
Proof.
  intros Hm. induction l as [|x l IH]; intros Hall; [simpl; lia|].
  rewrite bind_cons, length_app. simpl length. rewrite !Nat2Z.inj_add.
  assert (length (y ← f x; [(x, y)]) = length (f x)) as ->.
  { clear. induction (f x) as [|y l' IH']; [done|]. rewrite bind_cons.
    simpl. by rewrite IH'. }
  assert (Z.of_nat (length (f x)) ≤ m) by (apply Hall; by left).
  assert (Z.of_nat (length (x0 ← l; y ← f x0; [(x0, y)]))
          ≤ Z.of_nat (length l) * m)
    by (apply IH; intros z Hz; apply Hall; by right).
  lia.
Qed.

Lemma length_windows_in T t1 t2 :
  0 ≤ t1 → t2 < T → Z.of_nat (length (windows_in t1 t2)) ≤ T * T.
Proof.
  intros H1 H2. unfold windows_in.
  destruct (decide (t1 ≤ t2)) as [Ht|Ht].
  - etrans; [apply (length_pairs_le _ _ T); [lia|]|].
    + intros k Hk%elem_of_range2. pose proof (length_range2 k (t2 + 1)). lia.
    + pose proof (length_range2 t1 (t2 + 1)). nia.
  - rewrite (range2_nil t1 (t2 + 1)) by lia. simpl. nia.
Qed.

Lemma length_repair_schedule T :
  Z.of_nat (length (repair_schedule T)) ≤ T * T.
Proof.
  unfold repair_schedule. destruct (decide (0 ≤ T)) as [HT|HT].
  - etrans; [apply (length_pairs_le _ _ T); [lia|]|].
    + intros k Hk%elem_of_range. pose proof (length_range2 0 (k + 1)).
      unfold range. lia.
    + pose proof (length_range2 0 T). unfold range. nia.
  - unfold range. rewrite (range2_nil 0 T) by lia. simpl. nia.
Qed.

Lemma within_weaken B B' v : B ≤ B' → within B v → within B' v.
Proof. intros HB (z & Hz & ?). exists z. split; [done|lia]. Qed.

Lemma within_num_Z B v : within B v → value v = Fnum (num_Z v) ∧ Z.abs (num_Z v) ≤ B.
Proof. intros (z & Hz & ?). unfold num_Z. by rewrite Hz. Qed.

Lemma within_to_float B v :
  B ≤ 2 ^ 53 → within B v → to_float v = Some (Fnum (num_Z v)).
Proof.
  intros HB [Hv Hz]%within_num_Z. destruct v as [z|x]; simpl in *.
  - unfold num_Z in *. simpl in *. apply float_of_int_small. lia.
  - by rewrite Hv.
Qed.

Lemma caps_within_weaken B B' C : B ≤ B' → caps_within B C → caps_within B' C.
Proof. intros HB HC k v Hv. eapply within_weaken; [done|]. by eapply HC. Qed.

Lemma ints_caps_within T a b C :
  periods_within T a b C → caps_within (Z.max (Z.abs a) (Z.abs b)) (ints C).
Proof.
  intros (Hkeys & Hwf & Hvals) k v. rewrite ints_get.
  destruct (dict_get C k) as [z|] eqn:Hz; simpl; [|done]. intros [= <-].
  assert (k ∈ dict_keys C) as Hk by (apply dict_wf_elem; [done|by rewrite Hz]).
  rewrite Hkeys in Hk. apply elem_of_range in Hk.
  destruct (Hvals k Hk) as (z' & Hz' & ?). simplify_eq.
  exists z. split; [done|lia].
Qed.

(** The sum of the capacities of an interval is exact. *)
Lemma quicksum_caps_exact B C l :
  caps_within B C → (∀ k, k ∈ l → is_Some (dict_get C k)) →
  Z.of_nat (length l) * B ≤ 2 ^ 53 →
  quicksum l (dict_get C) = Some (Fnum (Zsum (dict_num C) l)) ∧
  Z.abs (Zsum (dict_num C) l) ≤ Z.of_nat (length l) * B.
Proof.
  intros HC Hkeys Hb. apply quicksum_exact; [|done].
  intros k Hk. destruct (Hkeys k Hk) as [v Hv]. exists v. split; [done|].
  rewrite (dict_num_get _ _ _ Hv). by apply within_num_Z, (HC k).
Qed.

(** The sum of the demand of the windows inside an interval is exact. *)
Lemma quicksum_demand_exact M T d_w t1 t2 :
  demand_within M T d_w → 0 ≤ t1 ≤ t2 ∧ t2 < T → T * T * M ≤ 2 ^ 53 →
  quicksum (windows_in t1 t2) (int_item d_w)
  = Some (Fnum (demand_in d_w t1 t2)) ∧
  Z.abs (demand_in d_w t1 t2) ≤ T * T * M.
Proof.
  intros Hd Ht Hb.
  pose proof (length_windows_in T t1 t2 ltac:(lia) ltac:(lia)) as Hlen.
  assert (0 ≤ M).
  { destruct (Hd t1 t1) as (z & _ & ?); lia. }
  destruct (quicksum_exact (windows_in t1 t2) (int_item d_w) (dict_val d_w) M)
    as [Hsum Hbound].
  - intros [k l] Hkl%elem_of_windows_in.
    destruct (Hd k l) as (z & Hz & ?); [lia|].
    exists (Int z). unfold int_item. rewrite Hz.
    rewrite (dict_val_get _ _ _ Hz). done.
  - nia.
  - split; [done|]. unfold demand_in. nia.
Qed.

Lemma demand_within_nonneg M T d_w t1 t2 :
  demand_within M T d_w → 0 ≤ t1 ≤ t2 ∧ t2 < T → 0 ≤ M.
Proof. intros Hd Ht. destruct (Hd t1 t1) as (z & _ & ?); lia. Qed.

Lemma windows_within_demand T lo hi d_w :
  windows_within T lo hi d_w →
  demand_within (Z.max (Z.abs lo) (Z.abs hi)) T d_w.
Proof.
  intros (_ & _ & Hv) k l Hkl. destruct (Hv k l Hkl) as (v & Hget & H0 & Hr).
  exists v. split; [done|]. destruct (decide (k = l)) as [Heq|Hne].
  - rewrite (H0 Heq). lia.
  - specialize (Hr Hne). lia.
Qed.

(** The repair of one interval keeps the capacities within the range of
    exact sums. *)
Lemma repair_interval_within B M T d_w t2 t1 C C' :
  0 ≤ B → caps_within B C → demand_within M T d_w →
  0 ≤ t1 ≤ t2 ∧ t2 < T → B + T * T * M ≤ 2 ^ 53 →
  repair_interval d_w t2 t1 C = Some C' →
  caps_within (B + T * T * M) C'.
Proof.
  intros HB HC Hd Ht Hb (sum_C & S & _ & HS & Hrun)%repair_interval_Some.
  pose proof (demand_within_nonneg _ _ _ _ _ Hd Ht) as HM.
  assert (0 ≤ T * T) as HTT by nia.
  assert (0 ≤ T * T * M) as HW by (apply Z.mul_nonneg_nonneg; lia).
  destruct (float_ltb sum_C S).
  2:{ subst C'. eapply caps_within_weaken; [|done]. lia. }
  destruct (quicksum_demand_exact M T d_w t1 t2 Hd Ht) as [HS' Hs]; [lia|].
  rewrite HS in HS'. injection HS' as ->.
  apply for_each_dict_add in Hrun as (_ & Hin & Hout); [|apply NoDup_range2].
  intros k v Hv. destruct (decide (k ∈ range2 t1 (t2 + 1))) as [Hk|Hk].
  - destruct (Hin k Hk) as (c & x & Hc & Hx & Hnew).
    rewrite Hnew in Hv. injection Hv as <-.
    pose proof (HC k c Hc) as Hwc.
    rewrite (within_to_float B c) in Hx by (done || lia). injection Hx as <-.
    apply within_num_Z in Hwc as [_ Hz]. simpl.
    rewrite fl_small by lia. eexists. split; [done|]. lia.
  - rewrite (Hout k Hk) in Hv. eapply within_weaken; [|by eapply HC]. lia.
Qed.

Lemma repair_tw_within B M T d_w C C' :
  0 ≤ B → 0 ≤ M → caps_within B C → demand_within M T d_w →
  B + T * T * (T * T * M) ≤ 2 ^ 53 →
  repair_tw T d_w C = Some C' →
  caps_within (B + T * T * (T * T * M)) C'.
Proof.
  intros HB HM HC Hd Hb. rewrite repair_tw_schedule. intros Hrun.
  assert (0 ≤ T * T) as HTT by nia.
  set (W := T * T * M) in *.
  assert (0 ≤ W) by (unfold W; apply Z.mul_nonneg_nonneg; lia).
  pose proof (length_repair_schedule T) as Hlen.
  cut (caps_within (B + Z.of_nat (length (repair_schedule T)) * W) C').
  { apply caps_within_weaken. nia. }
  revert Hrun.
  apply (for_each_ind (λ past cur,
    caps_within (B + Z.of_nat (length past) * W) cur)).
  - simpl. by rewrite Z.add_0_r.
  - intros past [t2 t1] rest C1 C2 Hsched HC1 Hstep.
    assert (Z.of_nat (length past) + 1 ≤ Z.of_nat (length (repair_schedule T)))
      as Hpast.
    { rewrite Hsched, length_app. simpl length. lia. }
    assert ((t2, t1) ∈ repair_schedule T) as Ht.
    { rewrite Hsched. apply elem_of_app. right. by left. }
    apply elem_of_repair_schedule in Ht.
    rewrite length_app. simpl length. rewrite Nat2Z.inj_add.
    replace (B + (Z.of_nat (length past) + Z.of_nat 1) * W)
      with ((B + Z.of_nat (length past) * W) + T * T * M) by (unfold W; lia).
    eapply (repair_interval_within _ M T); [nia|done|done|done| |done].
    fold W. nia.
Qed.

(** Within the range of exact sums, the repair of capacities that are
    not negative leaves every interval of the horizon with capacity for
    the windows it contains. *)
Lemma repair_tw_feasible T a b M d_w C0 C :
  0 ≤ a → 0 ≤ M → periods_within T a b C0 → demand_within M T d_w →
  T * (Z.max (Z.abs a) (Z.abs b) + T * T * (T * T * M)) ≤ 2 ^ 53 →
  repair_tw T d_w (ints C0) = Some C →
  caps_within (Z.max (Z.abs a) (Z.abs b) + T * T * (T * T * M)) C ∧
  (∀ k, 0 ≤ k < T → is_Some (dict_get C k)) ∧
  ∀ t1 t2, 0 ≤ t1 ≤ t2 ∧ t2 < T →
    demand_in d_w t1 t2 ≤ capacity_in C t1 t2.
Proof.
  intros Ha HM HC0 Hd Hb Hrun.
  set (B := Z.max (Z.abs a) (Z.abs b)) in *.
  set (Bf := B + T * T * (T * T * M)) in *.
  assert (0 ≤ B) by (unfold B; lia).
  assert (0 ≤ T * T) as HTT by nia.
  assert (0 ≤ T * T * (T * T * M))
    by (apply Z.mul_nonneg_nonneg; [lia|apply Z.mul_nonneg_nonneg; lia]).
  assert (∀ k, 0 ≤ k < T → is_Some (dict_get C k)) as Hkeys.
  { intros k Hk. apply (updated_is_Some (ints C0) C k).
    - by eapply repair_tw_updated.
    - rewrite ints_get. destruct HC0 as (_ & _ & Hv).
      destruct (Hv k Hk) as (v & -> & _). by eexists. }
  destruct (decide (0 < T)) as [HT|HT].
  2:{ assert (repair_schedule T = []) as Hnil.
      { unfold repair_schedule, range. rewrite (range2_nil 0 T) by lia. done. }
      rewrite repair_tw_schedule, Hnil in Hrun. injection Hrun as <-.
      split; [|split; [done|intros; lia]].
      eapply caps_within_weaken; [|by eapply ints_caps_within]. fold B. lia. }
  assert (caps_within Bf C) as Hwithin.
  { eapply (repair_tw_within B M T); [done|done| |done| |done].
    - by eapply ints_caps_within.
    - fold Bf. nia. }
  split; [done|]. split; [done|].
  intros t1 t2 Ht.
  destruct (repair_tw_checked T d_w (ints C0) C) as (_ & _ & Hcheck); [|done|].
  { apply ints_caps_ok. exact (periods_within_nonneg T a b C0 Ha HC0). }
  destruct (Hcheck t1 t2 Ht) as (sum_C & S & HsC & HS & Hlt).
  destruct (quicksum_caps_exact Bf C (range2 t1 (t2 + 1))) as [HsC' _];
    [done| | |].
  { intros k Hk%elem_of_range2. apply Hkeys. lia. }
  { pose proof (length_range2 t1 (t2 + 1)). nia. }
  destruct (quicksum_demand_exact M T d_w t1 t2 Hd Ht) as [HS' _]; [nia|].
  rewrite HsC in HsC'. rewrite HS in HS'. simplify_eq. simpl in Hlt.
  apply Z.ltb_ge in Hlt. done.
Qed.

(** Within the range of exact sums, the repair changes nothing when every
    interval has capacity for the windows it contains. *)
Lemma repair_tw_noop B M T d_w C :
  caps_within B C → demand_within M T d_w →
  T * B ≤ 2 ^ 53 → T * T * M ≤ 2 ^ 53 →
  (∀ k, 0 ≤ k < T → is_Some (dict_get C k)) →
  (∀ t1 t2, 0 ≤ t1 ≤ t2 ∧ t2 < T →
     demand_in d_w t1 t2 ≤ capacity_in C t1 t2) →
  repair_tw T d_w C = Some C.
Proof.
  intros HC Hd HbC Hbd Hkeys Hfeas. apply repair_tw_fixed. intros t1 t2 Ht.
  destruct (quicksum_caps_exact B C (range2 t1 (t2 + 1))) as [HsC _];
    [done| | |].
  { intros k Hk%elem_of_range2. apply Hkeys. lia. }
  { pose proof (length_range2 t1 (t2 + 1)).
    assert (0 ≤ B); [|nia].
    destruct (Hkeys t1) as [v Hv]; [lia|].
    destruct (HC t1 v Hv) as (z & _ & ?). lia. }
  destruct (quicksum_demand_exact M T d_w t1 t2 Hd Ht Hbd) as [HS _].
  eexists _, _. split; [done|]. split; [done|]. simpl.
  apply Z.ltb_ge. by apply Hfeas.
Qed.


(** ** Aggregation *)

Section aggregation.
Context `{RandomSource}.

(** A comprehension whose values draw nothing leaves the random source
    as it was. *)
Lemma dict_comp_from_pure {K V : Type} `{Countable K}
    (l : list K) (f : K → M V) acc g d g' :
  (∀ k g v g1, f k g = Some (v, g1) → g1 = g) →
  dict_comp_from l f acc g = Some (d, g') → g' = g.
Proof.
  intros Hf. revert acc g. induction l as [|k l IH]; intros acc g; simpl.
  - by intros [= _ <-]%M_ret_Some.
  - intros (v & g1 & Hv & Hrec)%M_bind_Some.
    apply Hf in Hv as ->. by eapply IH.
Qed.

Lemma aggregate_value d_w t g v g' :
  (x ← lift (quicksum (range (t + 1)) (λ t1, int_item d_w (t1, t)));
   mret (Float x)) g = Some (v, g') →
  g' = g ∧
  ∃ x, quicksum (range (t + 1)) (λ t1, int_item d_w (t1, t)) = Some x ∧
       v = Float x.
Proof.
  intros (x & g1 & Hx & Hret)%M_bind_Some.
  apply lift_Some in Hx as (x' & Hx & [= -> ->]).
  apply M_ret_Some in Hret as [= -> ->].
  split; [done|]. by exists x'.
Qed.

Lemma aggregate_spec T d_w g d g' :
  aggregate T d_w g = Some (d, g') →
  g' = g ∧ dict_keys d = range T ∧ dict_wf d ∧
  ∀ t, 0 ≤ t < T →
    ∃ x, quicksum (range (t + 1)) (λ t1, int_item d_w (t1, t)) = Some x ∧
         dict_get d t = Some (Float x).
Proof.
  intros Hrun. split.
  { revert Hrun. apply dict_comp_from_pure.
    intros t g0 v g1 Hv. by apply aggregate_value in Hv as [? _]. }
  apply dict_comp_spec in Hrun as (Hwf & Hkeys & Hvals); [|apply NoDup_range].
  split; [done|]. split; [done|]. intros t Ht.
  destruct (Hvals t) as (g1 & g2 & v & Hv & Hget); [by apply elem_of_range|].
  apply aggregate_value in Hv as (_ & x & Hx & ->). by exists x.
Qed.

(** The aggregation returns exactly when every window demand of the
    horizon has a double. *)
Lemma aggregate_is_Some T d_w g :
  is_Some (aggregate T d_w g) ↔
  ∀ k l, 0 ≤ k ≤ l ∧ l < T → is_Some (term (int_item d_w) (k, l)).
Proof.
  split.
  - intros [[d g'] (_ & _ & _ & Hvals)%aggregate_spec] k l Hkl.
    destruct (Hvals l) as (x & Hx & _); [lia|].
    apply (proj1 (quicksum_is_Some (range (l + 1))
                    (λ t1, int_item d_w (t1, l)))
             ltac:(by rewrite Hx) k).
    apply elem_of_range. lia.
  - intros Hd. apply dict_comp_from_total. intros t g0 Ht%elem_of_range.
    destruct (proj2 (quicksum_is_Some (range (t + 1))
                       (λ t1, int_item d_w (t1, t)))) as [x Hx].
    { intros t1 Ht1%elem_of_range. apply (Hd t1 t). lia. }
    unfold mbind, M_bind, lift. rewrite Hx. by eexists.
Qed.

Lemma aggregate_total T d_w g :
  (∀ k l, 0 ≤ k ≤ l ∧ l < T → is_Some (term (int_item d_w) (k, l))) →
  ∃ d, aggregate T d_w g = Some (d, g).
Proof.
  intros [[d g'] Hrun]%(aggregate_is_Some T d_w g).
  pose proof Hrun as [-> _]%aggregate_spec. by exists d.
Qed.

(** Within the range of exact sums [d[t]] is the sum of the demand of
    the windows that end at [t]. *)
Lemma aggregate_exact M T d_w g d g' t :
  demand_within M T d_w → T * M ≤ 2 ^ 53 →
  aggregate T d_w g = Some (d, g') → 0 ≤ t < T →
  dict_get d t = Some (Float (Fnum (demand_due d_w t))).
Proof.
  intros Hd Hb (_ & _ & _ & Hvals)%aggregate_spec Ht.
  destruct (Hvals t Ht) as (x & Hx & ->). do 2 f_equal.
  assert (0 ≤ M) by (destruct (Hd t t) as (z & _ & ?); lia).
  destruct (quicksum_exact (range (t + 1)) (λ t1, int_item d_w (t1, t))
              (λ t1, dict_val d_w (t1, t)) M) as [Hsum _].
  - intros t1 Ht1%elem_of_range. destruct (Hd t1 t) as (z & Hz & ?); [lia|].
    exists (Int z). unfold int_item. rewrite Hz, (dict_val_get _ _ _ Hz). done.
  - pose proof (length_range2 0 (t + 1)). unfold range. nia.
  - rewrite Hx in Hsum. by injection Hsum.
Qed.

(** The demand aggregated from smaller window demand is smaller. *)
Lemma aggregate_mono T d_w d_w' g d d' g1 g2 t :
  (∀ t1, 0 ≤ t1 ≤ t → 0 ≤ dict_val d_w (t1, t) ≤ dict_val d_w' (t1, t)) →
  aggregate T d_w g = Some (d, g1) → aggregate T d_w' g = Some (d', g2) →
  0 ≤ t < T →
  ∃ x x', dict_get d t = Some (Float x) ∧ dict_get d' t = Some (Float x') ∧
          float_le (Fnum 0) x ∧ float_le x x'.
Proof.
  intros Hle (_ & _ & _ & Hvals)%aggregate_spec
    (_ & _ & _ & Hvals')%aggregate_spec Ht.
  destruct (Hvals t Ht) as (x & Hx & ->), (Hvals' t Ht) as (x' & Hx' & ->).
  exists x, x'. split; [done|]. split; [done|].
  apply quicksum_Some in Hx as (cs & Hcs & ->).
  apply quicksum_Some in Hx' as (cs' & Hcs' & ->).
  pose proof (mapM_terms _ _ _ Hcs) as [Hlen Hlk].
  pose proof (mapM_terms _ _ _ Hcs') as [Hlen' Hlk'].
  assert (Forall2 (λ c c', float_le (Fnum 0) c ∧ float_le c c') cs cs') as Hall.
  { apply Forall2_same_length_lookup. split; [congruence|].
    intros i c c' Hi Hi'.
    assert (is_Some (range (t + 1) !! i)) as [t1 Ht1].
    { apply lookup_lt_is_Some. rewrite <-Hlen. by eapply lookup_lt_Some. }
    destruct (Hlk i t1 Ht1) as (c0 & Hc0 & Hc0').
    destruct (Hlk' i t1 Ht1) as (c1 & Hc1 & Hc1'). simplify_eq.
    apply term_int_item in Hc0 as (z & Hz & Hc).
    apply term_int_item in Hc1 as (z' & Hz' & Hc').
    apply list_elem_of_lookup_2, elem_of_range in Ht1.
    specialize (Hle t1 ltac:(lia)).
    rewrite (dict_val_get _ _ _ Hz), (dict_val_get _ _ _ Hz') in Hle.
    split; [|by eapply float_of_int_mono; [|done..]; lia].
    apply float_of_int_Some in Hc as [-> _]. apply fl_nonneg. lia. }
  split.
  - apply float_sum_nonneg; [done|].
    apply Forall_forall. intros c Hc.
    apply list_elem_of_lookup in Hc as [i Hi].
    by destruct (Forall2_lookup_l _ _ _ _ _ Hall Hi) as (c' & _ & ? & _).
  - by apply float_sum_mono.
Qed.
End aggregation.

(** The first period sums the one window [(0,0)]. *)
Lemma quicksum_first d_w :
  dict_get d_w (0, 0) = Some 0 →
  quicksum (range (0 + 1)) (λ t1, int_item d_w (t1, 0)) = Some (Fnum 0).
Proof.
  intros H00. change (range (0 + 1)) with [0].
  unfold quicksum. simpl. unfold int_item. rewrite H00. reflexivity.
Qed.


(** ** Pruning *)

Lemma for_each_total_ind {A S : Type} (P : list A → S → Prop)
    (l : list A) (body : A → S → option S) (s0 : S) :
  P [] s0 →
  (∀ past x rest s1,
      l = past ++ x :: rest → P past s1 →
      ∃ s2, body x s1 = Some s2 ∧ P (past ++ [x]) s2) →
  ∃ s, for_each l body s0 = Some s ∧ P l s.
Proof.
  intros H0 Hstep.
  assert (∀ rest past s1, l = past ++ rest → P past s1 →
            ∃ s, for_each rest body s1 = Some s ∧ P l s) as Hgen.
  { induction rest as [|x rest IH]; intros past s1 Hl HP; simpl.
    - rewrite app_nil_r in Hl. subst past. eauto.
    - destruct (Hstep past x rest s1 Hl HP) as (s2 & -> & HP2). simpl.
      apply (IH (past ++ [x])); [by rewrite <-app_assoc|done]. }
  by apply (Hgen l []).
Qed.

Lemma ordered_bounds_comparable t1 t2 t3 t4 :
  ordered_bounds t1 t2 t3 t4 = true ↔ comparable (t1, t2) (t3, t4).
Proof. unfold ordered_bounds, comparable. simpl. lia. Qed.

Lemma comparable_refl x : comparable x x.
Proof. unfold comparable. lia. Qed.

Lemma not_comparable x y :
  ¬ comparable x y ↔ strictly_inside y x ∨ strictly_inside x y.
Proof. unfold comparable, strictly_inside. lia. Qed.

Lemma strictly_inside_trans x y z :
  strictly_inside x y → strictly_inside y z → strictly_inside x z.
Proof. unfold strictly_inside. lia. Qed.

Lemma prune_pair_run x y d_w vx vy :
  dict_get d_w x = Some vx → dict_get d_w y = Some vy →
  prune_pair x y d_w
  = Some (if decide (vx ≠ 0 ∧ vy ≠ 0 ∧ ¬ comparable x y)
          then dict_set y 0 d_w else d_w).
Proof.
  destruct x as [t1 t2], y as [t3 t4]. intros Hx Hy.
  unfold prune_pair. rewrite Hx. simpl.
  case_bool_decide as Hvx; [|by rewrite decide_False by tauto].
  rewrite Hy. simpl.
  case_bool_decide as Hvy; [|by rewrite decide_False by tauto].
  destruct (ordered_bounds t1 t2 t3 t4) eqn:Hord.
  - apply ordered_bounds_comparable in Hord. by rewrite decide_False by tauto.
  - rewrite decide_True; [done|]. repeat split; [done..|].
    intros Hc%ordered_bounds_comparable. congruence.
Qed.

(** The inner loop of the pruning for the window [x]: when [x] carries
    demand, every window that carries demand and whose bounds are not
    ordered with those of [x] is zeroed; nothing else changes. *)
Lemma prune_row_spec x (l : list (Z * Z)) d_w :
  NoDup l →
  (∀ y, y ∈ l → is_Some (dict_get d_w y)) →
  is_Some (dict_get d_w x) →
  ∃ d_w', for_each l (prune_pair x) d_w = Some d_w' ∧
          dict_shape d_w' = dict_shape d_w ∧
          ∀ z, dict_get d_w' z
               = if decide (dict_val d_w x ≠ 0 ∧ z ∈ l ∧
                            dict_val d_w z ≠ 0 ∧ ¬ comparable x z)
                 then Some 0 else dict_get d_w z.
Proof.
  intros Hnd Hl [vx Hx]. rewrite (dict_val_get _ _ _ Hx).
  induction l as [|y l IH] using rev_ind.
  - exists d_w. repeat split; [done..|]. intros z.
    rewrite decide_False; [done|]. intros (_ & ?%not_elem_of_nil & _). done.
  - apply NoDup_app in Hnd as (Hnd & Hfresh & _).
    destruct IH as (d1 & Hrun & Hshape & Hget); [done| |].
    { intros z Hz. apply Hl, elem_of_app. by left. }
    assert (y ∉ l) as Hy by (intros ?; apply (Hfresh y); [done|by left]).
    destruct (Hl y) as [vy Hvy]; [apply elem_of_app; right; by left|].
    assert (dict_get d1 x = Some vx) as Hx1.
    { rewrite Hget, decide_False; [done|].
      intros (_ & _ & _ & Hc). apply Hc, comparable_refl. }
    assert (dict_get d1 y = Some vy) as Hy1.
    { rewrite Hget, decide_False; [done|]. tauto. }
    eexists. rewrite for_each_snoc, Hrun. simpl.
    split; [by apply prune_pair_run|]. split.
    + destruct (decide (vx ≠ 0 ∧ vy ≠ 0 ∧ ¬ comparable x y)); [|done].
      rewrite <-Hshape. apply dict_shape_set. by rewrite Hy1.
    + intros z.
      destruct (decide (vx ≠ 0 ∧ vy ≠ 0 ∧ ¬ comparable x y)) as [Hfire|Hno].
      * rewrite dict_get_set. destruct (decide (y = z)) as [<-|Hne].
        -- rewrite decide_True; [done|].
           rewrite (dict_val_get _ _ _ Hvy).
           repeat split; [tauto| |tauto..]. apply elem_of_app. right. by left.
        -- rewrite Hget. apply decide_ext.
           rewrite elem_of_app, list_elem_of_singleton.
           split; [tauto|]. intros (? & [?|?] & ? & ?); [tauto|congruence].
      * rewrite Hget. apply decide_ext.
        rewrite elem_of_app, list_elem_of_singleton.
        split; [tauto|]. intros (? & [?| ->] & Hz & ?); [tauto|].
        rewrite (dict_val_get _ _ _ Hvy) in Hz. tauto.
Qed.

Lemma dict_val_nonzero_key {K : Type} `{Countable K} (d : pydict K Z) k :
  dict_wf d → dict_val d k ≠ 0 → k ∈ dict_keys d.
Proof.
  intros Hwf Hk. apply dict_wf_elem; [done|]. unfold dict_val in Hk.
  destruct (dict_get d k); [by eexists|done].
Qed.

(** One iteration of the outer loop of the pruning. *)
Lemma prune_step_spec x d_w :
  dict_wf d_w → NoDup (dict_keys d_w) → x ∈ dict_keys d_w →
  ∃ d_w', for_each (dict_keys d_w) (prune_pair x) d_w = Some d_w' ∧
          dict_shape d_w' = dict_shape d_w ∧
          ∀ z, dict_get d_w' z
               = if decide (dict_val d_w x ≠ 0 ∧ dict_val d_w z ≠ 0 ∧
                            ¬ comparable x z)
                 then Some 0 else dict_get d_w z.
Proof.
  intros Hwf Hnd Hx.
  destruct (prune_row_spec x (dict_keys d_w) d_w) as (d' & Hrun & Hshape & Hget);
    [done|by intros y Hy%dict_wf_elem|by apply dict_wf_elem|].
  exists d'. repeat split; [done..|]. intros z. rewrite Hget.
  apply decide_ext. split; [tauto|]. intros (? & Hz & ?).
  repeat split; [done| |done..]. by apply dict_val_nonzero_key.
Qed.

(** After the pruning no two windows that carry demand have bounds that
    are not ordered componentwise; a window that still carries demand
    carries its original demand. *)
Lemma prune_ordered d_w :
  dict_wf d_w → NoDup (dict_keys d_w) →
  ∃ d_w', prune d_w = Some d_w' ∧
          dict_shape d_w' = dict_shape d_w ∧
          (∀ z, dict_val d_w' z ≠ 0 → dict_val d_w' z = dict_val d_w z) ∧
          ∀ x z, dict_val d_w' x ≠ 0 → dict_val d_w' z ≠ 0 → comparable x z.
Proof.
  intros Hwf Hnd. unfold prune.
  destruct (for_each_total_ind (λ past cur,
    dict_shape cur = dict_shape d_w ∧
    (∀ z, dict_val cur z ≠ 0 → dict_val cur z = dict_val d_w z) ∧
    ∀ x z, x ∈ past → dict_val cur x ≠ 0 → dict_val cur z ≠ 0 → comparable x z)
    (dict_keys d_w)
    (λ w12 cur, for_each (dict_keys cur) (prune_pair w12) cur) d_w)
    as (d' & Hrun & Hshape & Hval & Hord).
  - split; [done|]. split; [done|].
    intros x z Hx. by apply not_elem_of_nil in Hx.
  - intros past x rest cur Hkeys (Hshape & Hval & Hord).
    pose proof (dict_shape_keys _ _ Hshape) as Hk.
    destruct (prune_step_spec x cur) as (cur' & Hrun & Hshape' & Hget).
    { by eapply dict_shape_wf. }
    { by rewrite Hk. }
    { rewrite Hk, Hkeys. apply elem_of_app. right. by left. }
    exists cur'. split; [done|].
    assert (∀ z, dict_val cur' z ≠ 0 →
                 dict_val cur' z = dict_val cur z ∧
                 ¬ (dict_val cur x ≠ 0 ∧ dict_val cur z ≠ 0 ∧ ¬ comparable x z))
      as Hkeep.
    { intros z. unfold dict_val at 1 2. rewrite Hget.
      destruct (decide _) as [Hfire|Hno]; simpl; [done|]. done. }
    split; [congruence|]. split.
    + intros z Hz. destruct (Hkeep z Hz) as [-> _]. apply Hval.
      destruct (Hkeep z Hz) as [<- _]. done.
    + intros x' z [Hx'| ->%list_elem_of_singleton]%elem_of_app Hx'v Hzv.
      * destruct (Hkeep x' Hx'v) as [Hx'e _], (Hkeep z Hzv) as [Hze _].
        apply Hord; [done|congruence..].
      * destruct (Hkeep x Hx'v) as [Hxe _], (Hkeep z Hzv) as [Hze Hno].
        destruct (decide (comparable x z)); [done|]. exfalso. apply Hno.
        repeat split; [congruence..|done].
  - exists d'. split; [done|]. split; [done|]. split; [done|].
    intros x z Hx Hz. apply Hord; [|done..].
    rewrite <-(dict_shape_keys _ _ Hshape).
    apply dict_val_nonzero_key; [by eapply dict_shape_wf|done].
Qed.

(** *** The order of the windows *)

Lemma seqZ_sorted m n : StronglySorted Z.le (seqZ m n).
Proof.
  remember (Z.to_nat n) as k eqn:Hk. revert m n Hk.
  induction k as [|k IH]; intros m n Hk.
  - rewrite seqZ_nil by lia. constructor.
  - rewrite seqZ_cons by lia. constructor; [apply IH; lia|].
    apply Forall_seqZ. intros; lia.
Qed.

Lemma pairs_sorted (l : list Z) (f : Z → list Z) :
  StronglySorted Z.le l →
  StronglySorted (λ u v : Z * Z, u.1 ≤ v.1) (i ← l; j ← f i; [(i, j)]).
Proof.
  induction 1 as [|i l Hl IH Hall]; [constructor|].
  rewrite bind_cons. apply StronglySorted_app_2; [| |done].
  - intros [i1 j1] [i2 j2] H1 H2. simpl.
    apply list_elem_of_bind in H1 as (j & [= -> ->]%list_elem_of_singleton & _).
    apply elem_of_pairs in H2 as [H2 _].
    by apply (proj1 (Forall_forall _ _) Hall).
  - induction (f i) as [|j r IHr]; [constructor|].
    rewrite bind_cons. simpl. constructor; [done|].
    apply Forall_forall. intros [i' j'] Hin.
    apply list_elem_of_bind in Hin as (j0 & [= -> ->]%list_elem_of_singleton & _).
    done.
Qed.

(** A window that starts strictly earlier comes earlier in the
    dictionary. *)
Lemma windows_earlier T past x rest z :
  windows T = past ++ x :: rest → z ∈ windows T → z.1 < x.1 → z ∈ past.
Proof.
  intros Hw Hz Hlt.
  pose proof (pairs_sorted (range T) (λ i, range2 i T) (seqZ_sorted _ _)) as Hs.
  change (StronglySorted (λ u v : Z * Z, u.1 ≤ v.1) (windows T)) in Hs.
  rewrite Hw in Hs, Hz.
  apply StronglySorted_app_1_r, StronglySorted_cons in Hs as [Hall _].
  apply elem_of_app in Hz as [?|[->|Hz]%elem_of_cons]; [done|lia|].
  apply (proj1 (Forall_forall _ _) Hall) in Hz. lia.
Qed.

Lemma dominated_in_snoc past x d_w z :
  dominated_in (past ++ [x]) d_w z ↔
  dominated_in past d_w z ∨ (dict_val d_w x ≠ 0 ∧ strictly_inside z x).
Proof.
  unfold dominated_in. rewrite Exists_app, Exists_cons, Exists_nil. tauto.
Qed.

(** The mutate-while-scanning pruning computes the two-phase pruning. *)
Lemma prune_two_phase_spec T d_w :
  dict_keys d_w = windows T → dict_wf d_w →
  prune d_w = Some (prune_two_phase d_w).
Proof.
  intros Hkeys Hwf. unfold prune.
  destruct (for_each_total_ind (λ past cur,
    dict_shape cur = dict_shape d_w ∧
    ∀ z, dict_get cur z
         = (λ v, if decide (dominated_in past d_w z) then 0 else v)
             <$> dict_get d_w z)
    (dict_keys d_w)
    (λ w12 cur, for_each (dict_keys cur) (prune_pair w12) cur) d_w)
    as (d' & Hrun & Hshape & Hget).
  - split; [done|]. intros z.
    destruct (decide (dominated_in [] d_w z)) as [Hd|_];
      [by apply Exists_nil in Hd|].
    by destruct (dict_get d_w z).
  - intros past x rest cur Hsplit (Hshape & Hcur).
    pose proof (dict_shape_keys _ _ Hshape) as Hk.
    assert (x ∈ windows T) as Hxw.
    { rewrite <-Hkeys, Hsplit. apply elem_of_app. right. by left. }
    destruct (prune_step_spec x cur) as (cur' & Hrun & Hshape' & Hget).
    { by eapply dict_shape_wf. }
    { rewrite Hk, Hkeys. apply NoDup_windows. }
    { by rewrite Hk, Hkeys. }
    exists cur'. split; [done|]. split; [congruence|].
    assert (∀ z, dict_val cur z
                 = if decide (dominated_in past d_w z) then 0 else dict_val d_w z)
      as Hcurv.
    { intros z. unfold dict_val. rewrite Hcur.
      destruct (decide (dominated_in past d_w z));
        by destruct (dict_get d_w z). }
    intros z. rewrite Hget, Hcur.
    set (cond := dict_val cur x ≠ 0 ∧ dict_val cur z ≠ 0 ∧ ¬ comparable x z).
    destruct (dict_get d_w z) as [v|] eqn:Hz;
      cbn [fmap option_fmap option_map].
    2:{ destruct (decide cond) as [(_ & Hcz & _)|]; [|done].
        exfalso. apply Hcz. rewrite Hcurv. unfold dict_val. rewrite Hz.
        by destruct (decide _). }
    pose proof (dict_val_get _ _ _ Hz) as Hzv.
    assert (cond → dominated_in (past ++ [x]) d_w z) as Hfire.
    { intros (Hx0 & Hz0 & [Hin|Hin]%not_comparable).
      - apply dominated_in_snoc. right. split; [|done].
        rewrite Hcurv in Hx0. by destruct (decide _).
      - (* [z] contains [x]: [z] came earlier and has zeroed [x] *)
        exfalso. rewrite Hcurv in Hz0. rewrite Hcurv in Hx0.
        destruct (decide (dominated_in past d_w z)); [done|].
        destruct (decide (dominated_in past d_w x)) as [|Hnx]; [done|].
        apply Hnx, Exists_exists. exists z. split; [|done].
        eapply windows_earlier; [by rewrite <-Hkeys| |apply Hin].
        rewrite <-Hkeys. by apply dict_val_nonzero_key. }
    assert (dominated_in (past ++ [x]) d_w z → ¬ dominated_in past d_w z →
            v ≠ 0 → cond) as Hback.
    { intros [?|[Hx0 Hin]]%dominated_in_snoc Hnz Hv0; [done|].
      split; [|split].
      - rewrite Hcurv. destruct (decide (dominated_in past d_w x)) as [Hdx|]; [|done].
        exfalso. apply Hnz.
        apply Exists_exists in Hdx as (y & Hy & Hy0 & Hyin).
        apply Exists_exists. exists y. split; [done|]. split; [done|].
        by eapply strictly_inside_trans.
      - rewrite Hcurv. destruct (decide (dominated_in past d_w z)); [done|].
        congruence.
      - apply not_comparable. by left. }
    destruct (decide cond) as [Hc|Hc].
    + f_equal. by rewrite decide_True by auto.
    + f_equal.
      destruct (decide (dominated_in past d_w z)) as [Hd|Hd].
      * rewrite decide_True; [done|]. apply dominated_in_snoc. by left.
      * destruct (decide (dominated_in (past ++ [x]) d_w z)) as [Hd'|]; [|done].
        destruct (decide (v = 0)); [done|]. exfalso. auto.
  - rewrite Hrun. f_equal. apply dict_eq.
    + by rewrite (dict_shape_keys _ _ Hshape).
    + intros z. rewrite Hget. unfold prune_two_phase, dict_get. simpl.
      rewrite map_lookup_imap. by destruct (dict_items d_w !! z).
Qed.


(** ** The stages of the generators *)

Section stages.
Context `{RandomSource}.

Lemma generate_Some T a b g ds g' :
  generate T a b g = Some (ds, g') →
  ∃ h p s d C0 C g1 g2 g3 g4,
    sample_periods T a b g = Some (h, g1) ∧
    sample_periods T a b g1 = Some (p, g2) ∧
    sample_periods T a b g2 = Some (s, g3) ∧
    sample_periods T a b g3 = Some (d, g4) ∧
    sample_periods T a b g4 = Some (C0, g') ∧
    repair_base T d C0 = Some C ∧
    ds = Dataset h p s d C.
Proof.
  unfold generate.
  intros (h & g1 & Hh & Hrun)%M_bind_Some.
  apply M_bind_Some in Hrun as (p & g2 & Hp & Hrun).
  apply M_bind_Some in Hrun as (s & g3 & Hs & Hrun).
  apply M_bind_Some in Hrun as (d & g4 & Hd & Hrun).
  apply M_bind_Some in Hrun as (C0 & g5 & HC0 & Hrun).
  apply M_bind_Some in Hrun as (C & g6 & HC & Hrun).
  apply lift_Some in HC as (C' & HC & [= <- <-]).
  apply M_ret_Some in Hrun as [= -> ->].
  by exists h, p, s, d, C0, C, g1, g2, g3, g4.
Qed.

Lemma generate_CS_Some T a b dw_a dw_b g ds g' :
  generate_CS T a b dw_a dw_b g = Some (ds, g') →
  ∃ h p s d_w C0 C d g1 g2 g3 g4,
    sample_periods T a b g = Some (h, g1) ∧
    sample_periods T a b g1 = Some (p, g2) ∧
    sample_periods T a b g2 = Some (s, g3) ∧
    sample_windows T dw_a dw_b g3 = Some (d_w, g4) ∧
    sample_periods T a b g4 = Some (C0, g') ∧
    repair_tw T d_w (ints C0) = Some C ∧
    aggregate T d_w g' = Some (d, g') ∧
    ds = DatasetTW h p s d_w C d.
Proof.
  unfold generate_CS.
  intros (h & g1 & Hh & Hrun)%M_bind_Some.
  apply M_bind_Some in Hrun as (p & g2 & Hp & Hrun).
  apply M_bind_Some in Hrun as (s & g3 & Hs & Hrun).
  apply M_bind_Some in Hrun as (d_w & g4 & Hdw & Hrun).
  apply M_bind_Some in Hrun as (C0 & g5 & HC0 & Hrun).
  apply M_bind_Some in Hrun as (C & g6 & HC & Hrun).
  apply lift_Some in HC as (C' & HC & [= <- <-]).
  apply M_bind_Some in Hrun as (d & g7 & Hd & Hrun).
  apply M_ret_Some in Hrun as [= -> ->].
  pose proof Hd as [-> _]%aggregate_spec.
  by exists h, p, s, d_w, C0, C, d, g1, g2, g3, g4.
Qed.

Lemma generate_NCS_Some T a b dw_a dw_b g ds g' :
  generate_NCS T a b dw_a dw_b g = Some (ds, g') →
  ∃ h p s d_w0 d_w C0 C d g1 g2 g3 g4,
    sample_periods T a b g = Some (h, g1) ∧
    sample_periods T a b g1 = Some (p, g2) ∧
    sample_periods T a b g2 = Some (s, g3) ∧
    sample_windows T dw_a dw_b g3 = Some (d_w0, g4) ∧
    prune d_w0 = Some d_w ∧
    sample_periods T a b g4 = Some (C0, g') ∧
    repair_tw T d_w (ints C0) = Some C ∧
    aggregate T d_w g' = Some (d, g') ∧
    ds = DatasetTW h p s d_w C d.
Proof.
  unfold generate_NCS.
  intros (h & g1 & Hh & Hrun)%M_bind_Some.
  apply M_bind_Some in Hrun as (p & g2 & Hp & Hrun).
  apply M_bind_Some in Hrun as (s & g3 & Hs & Hrun).
  apply M_bind_Some in Hrun as (d_w0 & g4 & Hdw & Hrun).
  apply M_bind_Some in Hrun as (d_w & g4' & Hpr & Hrun).
  apply lift_Some in Hpr as (d_w' & Hpr & [= <- <-]).
  apply M_bind_Some in Hrun as (C0 & g5 & HC0 & Hrun).
  apply M_bind_Some in Hrun as (C & g6 & HC & Hrun).
  apply lift_Some in HC as (C' & HC & [= <- <-]).
  apply M_bind_Some in Hrun as (d & g7 & Hd & Hrun).
  apply M_ret_Some in Hrun as [= -> ->].
  pose proof Hd as [-> _]%aggregate_spec.
  by exists h, p, s, d_w0, d_w, C0, C, d, g1, g2, g3, g4'.
Qed.
End stages.

(** ** The generators return *)

Lemma periods_within_is_Some T a b d k :
  periods_within T a b d → 0 ≤ k < T → is_Some (dict_get d k).
Proof. intros (_ & _ & Hv) Hk. destruct (Hv k Hk) as (v & -> & _). by eexists. Qed.

Lemma windows_within_is_Some T a b d_w k l :
  windows_within T a b d_w → 0 ≤ k ≤ l ∧ l < T → is_Some (dict_get d_w (k, l)).
Proof.
  intros (_ & _ & Hv) Hk. destruct (Hv k l Hk) as (v & -> & _). by eexists.
Qed.

Lemma windows_within_NoDup T a b d_w :
  windows_within T a b d_w → NoDup (dict_keys d_w).
Proof. intros (-> & _). apply NoDup_windows. Qed.

(** Sampled values between bounds that have doubles have doubles. *)
Lemma periods_within_terms T a b C0 :
  in_double_range a b → periods_within T a b C0 →
  ∀ k, 0 ≤ k < T → is_Some (term (dict_get (ints C0)) k).
Proof.
  intros Hr (_ & _ & Hv) k Hk. destruct (Hv k Hk) as (v & Hget & Hv').
  rewrite term_ints.
  destruct (float_of_int_between a b v Hr Hv') as [c Hc].
  exists c. apply term_int_item. by exists v.
Qed.

Lemma windows_within_terms T lo hi d_w :
  in_double_range lo hi → windows_within T lo hi d_w →
  ∀ k l, 0 ≤ k ≤ l ∧ l < T → is_Some (term (int_item d_w) (k, l)).
Proof.
  intros Hr (_ & _ & Hv) k l Hkl.
  destruct (Hv k l Hkl) as (v & Hget & H0 & Hin).
  assert (is_Some (float_of_int v)) as [c Hc].
  { destruct (decide (k = l)) as [Heq|Hne].
    - rewrite (H0 Heq). exists (Fnum 0). by apply float_of_int_small.
    - exact (float_of_int_between lo hi v Hr (Hin Hne)). }
  exists c. apply term_int_item. by exists v.
Qed.

(** A window demand that the pruning has zeroed or kept has a double when
    the sampled one has. *)
Lemma pruned_terms T d_w d_w' :
  dict_shape d_w' = dict_shape d_w →
  (∀ z, dict_val d_w' z ≠ 0 → dict_val d_w' z = dict_val d_w z) →
  (∀ k l, 0 ≤ k ≤ l ∧ l < T → is_Some (term (int_item d_w) (k, l))) →
  ∀ k l, 0 ≤ k ≤ l ∧ l < T → is_Some (term (int_item d_w') (k, l)).
Proof.
  intros Hshape Hval Hd k l Hkl.
  destruct (Hd k l Hkl) as [c (v & Hv & Hc)%term_int_item].
  assert (is_Some (dict_get d_w' (k, l))) as [v' Hv'].
  { apply (dict_shape_is_Some _ _ _ Hshape). by rewrite Hv. }
  specialize (Hval (k, l)).
  rewrite (dict_val_get _ _ _ Hv'), (dict_val_get _ _ _ Hv) in Hval.
  destruct (decide (v' = 0)) as [->|Hne].
  - exists (Fnum 0). apply term_int_item. exists 0. split; [done|].
    by apply float_of_int_small.
  - specialize (Hval Hne). subst v'. exists c. apply term_int_item. by exists v.
Qed.

Lemma pruned_demand_within M T d_w d_w' :
  0 ≤ M → dict_shape d_w' = dict_shape d_w →
  (∀ z, dict_val d_w' z ≠ 0 → dict_val d_w' z = dict_val d_w z) →
  demand_within M T d_w → demand_within M T d_w'.
Proof.
  intros HM Hshape Hval Hd k l Hkl.
  destruct (Hd k l Hkl) as (v & Hv & Hb).
  assert (is_Some (dict_get d_w' (k, l))) as [v' Hv'].
  { apply (dict_shape_is_Some _ _ _ Hshape). by rewrite Hv. }
  specialize (Hval (k, l)).
  rewrite (dict_val_get _ _ _ Hv'), (dict_val_get _ _ _ Hv) in Hval.
  exists v'. split; [done|].
  destruct (decide (v' = 0)) as [->|Hne]; [lia|]. by rewrite Hval.
Qed.

Section totality.
Context `{RandomSource}.

Lemma generate_total T a b g :
  a ≤ b → ∃ ds g', generate T a b g = Some (ds, g').
Proof.
  intros Hab.
  destruct (sample_periods_total T a b g Hab) as [[h g1] Hh].
  destruct (sample_periods_total T a b g1 Hab) as [[p g2] Hp].
  destruct (sample_periods_total T a b g2 Hab) as [[s g3] Hs].
  destruct (sample_periods_total T a b g3 Hab) as [[d g4] Hd].
  destruct (sample_periods_total T a b g4 Hab) as [[C0 g5] HC0].
  destruct (repair_base_total T d C0) as [C HC].
  { intros k Hk. split; eapply periods_within_is_Some;
      eauto using sample_periods_within. }
  unfold generate, mbind, M_bind, lift.
  rewrite Hh, Hp, Hs, Hd, HC0, HC. simpl. by eexists _, _.
Qed.

(** The repair and the aggregation of a time-window generator return
    when the sampled capacities and the window demand have doubles. *)
Lemma repair_aggregate_total T d_w C0 g :
  (∀ k, 0 ≤ k < T → is_Some (term (dict_get (ints C0)) k)) →
  (∀ k l, 0 ≤ k ≤ l ∧ l < T → is_Some (term (int_item d_w) (k, l))) →
  ∃ C d, repair_tw T d_w (ints C0) = Some C ∧
         aggregate T d_w g = Some (d, g).
Proof.
  intros HC Hd.
  destruct (proj2 (repair_tw_is_Some T d_w (ints C0))) as [C HC']; [done|].
  destruct (aggregate_total T d_w g Hd) as [d Hd']. by exists C, d.
Qed.

Lemma generate_CS_total T a b dw_a dw_b g :
  a ≤ b → dw_a ≤ dw_b → in_double_range a b → in_double_range dw_a dw_b →
  ∃ ds g', generate_CS T a b dw_a dw_b g = Some (ds, g').
Proof.
  intros Hab Hdw Hr Hrw.
  destruct (sample_periods_total T a b g Hab) as [[h g1] Hh].
  destruct (sample_periods_total T a b g1 Hab) as [[p g2] Hp].
  destruct (sample_periods_total T a b g2 Hab) as [[s g3] Hs].
  destruct (sample_windows_total T dw_a dw_b g3 Hdw) as [[d_w g4] Hw].
  destruct (sample_periods_total T a b g4 Hab) as [[C0 g5] HC0].
  pose proof (sample_windows_within _ _ _ _ _ _ Hw) as Hww.
  pose proof (sample_periods_within _ _ _ _ _ _ HC0) as HCw.
  destruct (repair_aggregate_total T d_w C0 g5) as (C & d & HC & Hagg).
  { exact (periods_within_terms T a b C0 Hr HCw). }
  { exact (windows_within_terms T dw_a dw_b d_w Hrw Hww). }
  unfold generate_CS, mbind, M_bind, lift.
  rewrite Hh, Hp, Hs, Hw, HC0, HC. simpl. rewrite Hagg. by eexists _, _.
Qed.

Lemma generate_NCS_total T a b dw_a dw_b g :
  a ≤ b → dw_a ≤ dw_b → in_double_range a b → in_double_range dw_a dw_b →
  ∃ ds g', generate_NCS T a b dw_a dw_b g = Some (ds, g').
Proof.
  intros Hab Hdw Hr Hrw.
  destruct (sample_periods_total T a b g Hab) as [[h g1] Hh].
  destruct (sample_periods_total T a b g1 Hab) as [[p g2] Hp].
  destruct (sample_periods_total T a b g2 Hab) as [[s g3] Hs].
  destruct (sample_windows_total T dw_a dw_b g3 Hdw) as [[d_w0 g4] Hw].
  destruct (sample_periods_total T a b g4 Hab) as [[C0 g5] HC0].
  pose proof (sample_windows_within _ _ _ _ _ _ Hw) as Hww.
  pose proof (sample_periods_within _ _ _ _ _ _ HC0) as HCw.
  destruct (prune_ordered d_w0) as (d_w & Hpr & Hshape & Hval & _).
  { apply Hww. }
  { by eapply windows_within_NoDup. }
  destruct (repair_aggregate_total T d_w C0 g5) as (C & d & HC & Hagg).
  { exact (periods_within_terms T a b C0 Hr HCw). }
  { eapply pruned_terms; [done..|].
    exact (windows_within_terms T dw_a dw_b d_w0 Hrw Hww). }
  unfold generate_NCS, mbind, M_bind, lift.
  rewrite Hh, Hp, Hs, Hw, Hpr. simpl. rewrite HC0, HC. simpl.
  rewrite Hagg. by eexists _, _.
Qed.
End totality.


(** * The claims *)

(** ** Seeding *)

(** C10. A call [seed(a)] with a falsy argument ([None] or [0]) returns and
    leaves the state of the shared random source as it was: whatever is
    drawn afterwards is what would have been drawn without the call. *)
Theorem seed_falsy_noop `{RandomSource} (a : seed_arg) :
  truthy a = false →
  (∀ g, seed a g = Some ((), g)) ∧
  (∀ (A : Type) (m : M A) g, (seed a ≫= λ _, m) g = m g).
Proof.
  intros Ha.
  assert (∀ g, seed a g = Some ((), g)) as Hseed.
  { intros g. unfold seed. by rewrite Ha. }
  split; [done|]. intros A m g. unfold mbind, M_bind. by rewrite Hseed.
Qed.

Lemma seed_falsy_noop_witness :
  truthy (SeedInt 0) = false ∧
  (∀ g, seed (H := ScriptedSource) (SeedInt 0) g = Some ((), g)) ∧
  (∀ (A : Type) (m : M A) g, (seed (SeedInt 0) ≫= λ _, m) g = m g).
Proof.
  split; [reflexivity|].
  apply (seed_falsy_noop (H := ScriptedSource) (SeedInt 0)). reflexivity.
Defined.

(** C9, amended.  For a seed value [v] that is truthy (an integer other
    than 0), two runs that each call [seed(v)] and then [generate] with
    the same horizon and parameters return the same dataset (and leave the
    random source in the same state), whatever the state of the random
    source was before each run.  This holds for the three generators. *)
Theorem seeded_runs_agree `{RandomSource} (v : Z) :
  v ≠ 0 →
  ∀ T a b dw_a dw_b g1 g2,
    (seed (SeedInt v) ≫= λ _, generate T a b) g1
    = (seed (SeedInt v) ≫= λ _, generate T a b) g2 ∧
    (seed (SeedInt v) ≫= λ _, generate_CS T a b dw_a dw_b) g1
    = (seed (SeedInt v) ≫= λ _, generate_CS T a b dw_a dw_b) g2 ∧
    (seed (SeedInt v) ≫= λ _, generate_NCS T a b dw_a dw_b) g1
    = (seed (SeedInt v) ≫= λ _, generate_NCS T a b dw_a dw_b) g2.
Proof.
  intros Hv T a b dw_a dw_b g1 g2.
  assert (∀ g, seed (SeedInt v) g = Some ((), rd_seed v)) as Hseed.
  { intros g. unfold seed, truthy. apply Z.eqb_neq in Hv. by rewrite Hv. }
  unfold mbind, M_bind. by rewrite !Hseed.
Qed.

Lemma seeded_runs_agree_witness :
  7 ≠ 0 ∧
  ∀ T a b dw_a dw_b g1 g2,
    (seed (H := ScriptedSource) (SeedInt 7) ≫= λ _, generate T a b) g1
    = (seed (SeedInt 7) ≫= λ _, generate T a b) g2 ∧
    (seed (SeedInt 7) ≫= λ _, generate_CS T a b dw_a dw_b) g1
    = (seed (SeedInt 7) ≫= λ _, generate_CS T a b dw_a dw_b) g2 ∧
    (seed (SeedInt 7) ≫= λ _, generate_NCS T a b dw_a dw_b) g1
    = (seed (SeedInt 7) ≫= λ _, generate_NCS T a b dw_a dw_b) g2.
Proof.
  split; [lia|]. apply (seeded_runs_agree (H := ScriptedSource) 7). lia.
Defined.

(** C9 as stated fails for the seed value 0: [seed(0)] does not reseed, so
    two runs that start from different states of the random source return
    different datasets. *)
Lemma seeded_runs_differ_for_zero :
  (seed (H := ScriptedSource) (SeedInt 0) ≫= λ _, generate 1 1 6) [0; 0; 0; 0; 0]
  ≠ (seed (SeedInt 0) ≫= λ _, generate 1 1 6) [1; 1; 1; 1; 1].
Proof. intros Heq. vm_compute in Heq. discriminate. Qed.

(** ** Bounds of the sampled values *)

Lemma windows_within_keys T lo hi d_w :
  windows_within T lo hi d_w → window_keys T d_w.
Proof.
  intros (Hkeys & _). unfold window_keys. rewrite Hkeys.
  split; [apply NoDup_windows|]. intros i j. apply elem_of_windows.
Qed.

Section bounds.
Context `{RandomSource}.

Lemma generate_bounds T a b g ds g' :
  generate T a b g = Some (ds, g') → base_bounds T a b ds.
Proof.
  intros (h & p & s & d & C0 & C & g1 & g2 & g3 & g4 &
          Hh & Hp & Hs & Hd & HC0 & HC & ->)%generate_Some.
  unfold base_bounds. simpl.
  repeat split; try by eapply sample_periods_within.
  exists C0. split; [by eapply sample_periods_within|done].
Qed.

Lemma generate_CS_bounds T a b dw_a dw_b g ds g' :
  generate_CS T a b dw_a dw_b g = Some (ds, g') → cs_bounds T a b dw_a dw_b ds.
Proof.
  intros (h & p & s & d_w & C0 & C & d & g1 & g2 & g3 & g4 &
          Hh & Hp & Hs & Hw & HC0 & HC & Hd & ->)%generate_CS_Some.
  apply sample_windows_within in Hw.
  unfold cs_bounds. simpl.
  split; [by eapply sample_periods_within|].
  split; [by eapply sample_periods_within|].
  split; [by eapply sample_periods_within|].
  split; [done|]. split; [by eapply windows_within_keys|].
  exists C0. split; [by eapply sample_periods_within|done].
Qed.

Lemma generate_NCS_bounds T a b dw_a dw_b g ds g' :
  generate_NCS T a b dw_a dw_b g = Some (ds, g') →
  ncs_bounds T a b dw_a dw_b ds.
Proof.
  intros (h & p & s & d_w0 & d_w & C0 & C & d & g1 & g2 & g3 & g4 &
          Hh & Hp & Hs & Hw & Hpr & HC0 & HC & Hd & ->)%generate_NCS_Some.
  apply sample_windows_within in Hw.
  destruct (prune_ordered d_w0) as (d_w' & Hpr' & Hshape & Hval & _);
    [apply Hw|by eapply windows_within_NoDup|].
  rewrite Hpr in Hpr'. injection Hpr' as <-.
  unfold ncs_bounds. simpl.
  split; [by eapply sample_periods_within|].
  split; [by eapply sample_periods_within|].
  split; [by eapply sample_periods_within|].
  split; [by exists d_w0|]. split.
  { unfold window_keys. rewrite (dict_shape_keys _ _ Hshape).
    by eapply windows_within_keys. }
  split.
  { intros i Hi.
    destruct Hw as (_ & _ & Hv). destruct (Hv i i) as (v & Hget & Hv0 & _); [lia|].
    assert (is_Some (dict_get d_w (i, i))) as [v' Hget'].
    { apply (dict_shape_is_Some _ _ _ Hshape). by rewrite Hget. }
    rewrite Hget'. f_equal. destruct (decide (v' = 0)) as [|Hne]; [done|].
    specialize (Hval (i, i)).
    rewrite (dict_val_get _ _ _ Hget'), (dict_val_get _ _ _ Hget) in Hval.
    rewrite Hval by done. by apply Hv0. }
  exists C0. split; [by eapply sample_periods_within|done].
Qed.
End bounds.

(** C8. With [a <= b] and [dw_a <= dw_b], in the dataset that a
    [generate] returns every [h[t]], [p[t]], [s[t]], the base variant's
    [d[t]], and every [C[t]] as sampled before the repair lies in [[a,b]];
    in the time-window variants every [d_w[(i,j)]] with [i != j] lies as
    sampled in [[dw_a,dw_b]], [d_w[(i,i)] = 0], and the keys of [d_w] are
    the pairs [(i,j)] with [0 <= i <= j <= T-1], each once.  The base
    [generate] returns; a time-window [generate] returns when the bounds
    have doubles (beyond them a sum of the repair can raise
    [OverflowError]). *)
Theorem sampled_values_within_bounds `{RandomSource} (T a b dw_a dw_b : Z) g :
  a ≤ b → dw_a ≤ dw_b →
  (∃ ds g', generate T a b g = Some (ds, g') ∧ base_bounds T a b ds) ∧
  (∀ ds g', generate_CS T a b dw_a dw_b g = Some (ds, g') →
            cs_bounds T a b dw_a dw_b ds) ∧
  (∀ ds g', generate_NCS T a b dw_a dw_b g = Some (ds, g') →
            ncs_bounds T a b dw_a dw_b ds) ∧
  (in_double_range a b → in_double_range dw_a dw_b →
   (∃ ds g', generate_CS T a b dw_a dw_b g = Some (ds, g') ∧
             cs_bounds T a b dw_a dw_b ds) ∧
   (∃ ds g', generate_NCS T a b dw_a dw_b g = Some (ds, g') ∧
             ncs_bounds T a b dw_a dw_b ds)).
Proof.
  intros Hab Hdw. split; [|split; [|split]].
  - destruct (generate_total T a b g Hab) as (ds & g' & Hrun).
    exists ds, g'. split; [done|]. by eapply generate_bounds.
  - intros ds g' Hrun. by eapply generate_CS_bounds.
  - intros ds g' Hrun. by eapply generate_NCS_bounds.
  - intros Hr Hrw. split.
    + destruct (generate_CS_total T a b dw_a dw_b g Hab Hdw Hr Hrw)
        as (ds & g' & Hrun).
      exists ds, g'. split; [done|]. by eapply generate_CS_bounds.
    + destruct (generate_NCS_total T a b dw_a dw_b g Hab Hdw Hr Hrw)
        as (ds & g' & Hrun).
      exists ds, g'. split; [done|]. by eapply generate_NCS_bounds.
Qed.

Lemma sampled_values_within_bounds_witness :
  1 ≤ 6 ∧ 0 ≤ 4 ∧
  (∃ ds g', generate (H := ScriptedSource) 3 1 6 [2; 7; 1; 8; 2; 8] = Some (ds, g') ∧
            base_bounds 3 1 6 ds) ∧
  (∀ ds g', generate_CS 3 1 6 0 4 [2; 7; 1; 8; 2; 8] = Some (ds, g') →
            cs_bounds 3 1 6 0 4 ds) ∧
  (∀ ds g', generate_NCS 3 1 6 0 4 [2; 7; 1; 8; 2; 8] = Some (ds, g') →
            ncs_bounds 3 1 6 0 4 ds) ∧
  (in_double_range 1 6 → in_double_range 0 4 →
   (∃ ds g', generate_CS 3 1 6 0 4 [2; 7; 1; 8; 2; 8] = Some (ds, g') ∧
             cs_bounds 3 1 6 0 4 ds) ∧
   (∃ ds g', generate_NCS 3 1 6 0 4 [2; 7; 1; 8; 2; 8] = Some (ds, g') ∧
             ncs_bounds 3 1 6 0 4 ds)).
Proof.
  split; [lia|]. split; [lia|].
  apply (sampled_values_within_bounds (H := ScriptedSource)); lia.
Defined.

(** Beyond the range of a double a time-window [generate] raises: with
    [T = 1] and [a = b = 10^400] the first sum of the repair cannot
    convert the sampled capacity. *)
Example generate_CS_raises_beyond_doubles :
  10 ^ 400 ≤ 10 ^ 400 ∧ ¬ in_double_range (10 ^ 400) (10 ^ 400) ∧
  generate_CS (H := ScriptedSource) 1 (10 ^ 400) (10 ^ 400) 0 4 [] = None ∧
  generate_NCS (H := ScriptedSource) 1 (10 ^ 400) (10 ^ 400) 0 4 [] = None.
Proof.
  split; [lia|]. split; [|split; vm_compute; reflexivity].
  intros [[c Hc] _]. vm_compute in Hc. discriminate.
Qed.

(** ** Aggregation of the window demand *)

Section window_demand.
Context `{RandomSource}.

(** The window demand of a returned time-window dataset is within the
    bounds in magnitude, pruned or not. *)
Lemma generate_tw_demand_within T a b dw_a dw_b g ds g' :
  generate_CS T a b dw_a dw_b g = Some (ds, g') ∨
  generate_NCS T a b dw_a dw_b g = Some (ds, g') →
  demand_within (Z.max (Z.abs dw_a) (Z.abs dw_b)) T (tw_d_w ds).
Proof.
  intros [Hrun|Hrun].
  - apply generate_CS_bounds in Hrun as (_ & _ & _ & Hw & _).
    by apply windows_within_demand.
  - apply generate_NCS_bounds in Hrun
      as (_ & _ & _ & (d_w0 & Hw & Hpr) & _).
    destruct (prune_ordered d_w0) as (d_w' & Hpr' & Hshape & Hval & _);
      [apply Hw|by eapply windows_within_NoDup|].
    rewrite Hpr in Hpr'. injection Hpr' as <-.
    eapply pruned_demand_within; [lia|done..|].
    by apply windows_within_demand.
Qed.

(** The stages of a time-window dataset that matter after sampling. *)
Lemma generate_tw_stages T a b dw_a dw_b g ds g' :
  generate_CS T a b dw_a dw_b g = Some (ds, g') ∨
  generate_NCS T a b dw_a dw_b g = Some (ds, g') →
  ∃ C0 g4,
    sample_periods T a b g4 = Some (C0, g') ∧
    repair_tw T (tw_d_w ds) (ints C0) = Some (tw_C ds) ∧
    aggregate T (tw_d_w ds) g' = Some (tw_d ds, g').
Proof.
  intros [Hrun|Hrun].
  - apply generate_CS_Some in Hrun
      as (h & p & s & d_w & C0 & C & d & g1 & g2 & g3 & g4 &
          _ & _ & _ & _ & HC0 & HC & Hd & ->).
    by exists C0, g4.
  - apply generate_NCS_Some in Hrun
      as (h & p & s & d_w0 & d_w & C0 & C & d & g1 & g2 & g3 & g4 &
          _ & _ & _ & _ & _ & HC0 & HC & Hd & ->).
    by exists C0, g4.
Qed.
End window_demand.

(** C3, amended.  Within the range of exact sums ([T] times the larger
    magnitude of [dw_a], [dw_b] is at most [2^53]), in a dataset returned
    by [GeneratorTW_CS.generate] or [GeneratorTW_NCS.generate], for every
    period [t] in [0..T-1] the scalar demand [d[t]] is the [float] of the
    sum of [d_w[(t1,t)]] over [t1] in [0..t], taken on the window demand
    of the dataset (after any pruning); all these windows are keys of
    [d_w]. *)
Theorem aggregation_correct `{RandomSource} (T a b dw_a dw_b : Z) g ds g' :
  exact_demand T dw_a dw_b →
  generate_CS T a b dw_a dw_b g = Some (ds, g') ∨
  generate_NCS T a b dw_a dw_b g = Some (ds, g') →
  ∀ t, 0 ≤ t < T →
    dict_get (tw_d ds) t = Some (Float (Fnum (demand_due (tw_d_w ds) t))) ∧
    ∀ t1, 0 ≤ t1 ≤ t → is_Some (dict_get (tw_d_w ds) (t1, t)).
Proof.
  intros Hex Hrun t Ht.
  pose proof (generate_tw_demand_within _ _ _ _ _ _ _ _ Hrun) as Hdw.
  destruct (generate_tw_stages _ _ _ _ _ _ _ _ Hrun) as (C0 & g4 & _ & _ & Hd).
  split.
  - by eapply aggregate_exact.
  - intros t1 Ht1. destruct (Hdw t1 t) as (z & -> & _); [lia|]. by eexists.
Qed.

Lemma aggregation_correct_witness :
  exact_demand 2 5 5 ∧
  ∃ ds g',
    generate_CS (H := ScriptedSource) 2 1 6 5 5 [3; 1; 4; 1; 5; 9; 2; 6; 5]
    = Some (ds, g') ∧
    ∀ t, 0 ≤ t < 2 →
      dict_get (tw_d ds) t = Some (Float (Fnum (demand_due (tw_d_w ds) t))) ∧
      ∀ t1, 0 ≤ t1 ≤ t → is_Some (dict_get (tw_d_w ds) (t1, t)).
Proof.
  split; [by vm_compute|].
  eexists _, _. split; [vm_compute; reflexivity|].
  apply (aggregation_correct (H := ScriptedSource) 2 1 6 5 5
           [3; 1; 4; 1; 5; 9; 2; 6; 5] _ []).
  - by vm_compute.
  - left. vm_compute. reflexivity.
Defined.

(** C3 as stated fails beyond the range of exact sums: with [T = 2] and
    [dw_a = dw_b = 2^53 + 1] the window [(0,1)] carries [2^53 + 1], and the
    sum of the doubles leaves [d[1] = 2^53]. *)
Lemma aggregation_rounds_large_demand :
  ∃ ds g',
    generate_CS (H := ScriptedSource) 2 1 1 (2 ^ 53 + 1) (2 ^ 53 + 1) []
    = Some (ds, g') ∧
    demand_due (tw_d_w ds) 1 = 2 ^ 53 + 1 ∧
    dict_get (tw_d ds) 1 = Some (Float (Fnum (2 ^ 53))) ∧
    dict_get (tw_d ds) 1 ≠ Some (Float (Fnum (demand_due (tw_d_w ds) 1))).
Proof.
  eexists _, _. split; [vm_compute; reflexivity|].
  split; [vm_compute; reflexivity|]. split; [vm_compute; reflexivity|].
  intros Heq. vm_compute in Heq. discriminate.
Qed.

(** The scenario [T = 2], [dw_a = dw_b = 5] of the specification. *)
Example aggregation_scenario :
  ∃ ds g',
    generate_CS (H := ScriptedSource) 2 1 6 5 5 [3; 1; 4; 1; 5; 9; 2; 6; 5]
    = Some (ds, g') ∧
    dict_get (tw_d_w ds) (0, 1) = Some 5 ∧
    dict_get (tw_d ds) 0 = Some (Float (Fnum 0)) ∧
    dict_get (tw_d ds) 1 = Some (Float (Fnum 5)) ∧
    5 ≤ capacity_in (tw_C ds) 0 1.
Proof.
  eexists _, _. split; [vm_compute; reflexivity|]. vm_compute.
  repeat split; congruence.
Qed.

(** ** The repair of the base generator *)

Lemma periods_within_repair_pre T a b d C :
  0 ≤ a → periods_within T a b d → periods_within T a b C →
  ∀ k, 0 ≤ k < T →
    ∃ c dk, dict_get C k = Some c ∧ dict_get d k = Some dk ∧ 0 ≤ c.
Proof.
  intros Ha (_ & _ & Hd) (_ & _ & HC) k Hk.
  destruct (Hd k Hk) as (dk & Hdk & _), (HC k Hk) as (c & Hc & ?).
  exists c, dk. repeat split; [done..|lia].
Qed.

(** C4, amended.  With [0 <= a <= b] the base [generate] returns, and in
    the dataset it returns [C[t] >= d[t]] for every period [t] in
    [0..T-1]. *)
Theorem base_feasibility `{RandomSource} (T a b : Z) g :
  0 ≤ a → a ≤ b →
  ∃ ds g', generate T a b g = Some (ds, g') ∧
           ∀ t, 0 ≤ t < T → covers (ds_d ds) (ds_C ds) t.
Proof.
  intros Ha Hab.
  destruct (generate_total T a b g Hab) as (ds & g' & Hrun).
  exists ds, g'. split; [done|].
  apply generate_Some in Hrun
    as (h & p & s & d & C0 & C & g1 & g2 & g3 & g4 &
        _ & _ & _ & Hd & HC0 & HC & ->).
  apply sample_periods_within in Hd, HC0.
  destruct (repair_base_spec T d C0) as (C' & HC' & _ & _ & Hcov & _).
  { by eapply periods_within_repair_pre. }
  rewrite HC in HC'. injection HC' as <-. done.
Qed.

Lemma base_feasibility_witness :
  0 ≤ 1 ∧ 1 ≤ 6 ∧
  ∃ ds g', generate (H := ScriptedSource) 3 1 6 [2; 7; 1; 8; 2; 8] = Some (ds, g') ∧
           ∀ t, 0 ≤ t < 3 → covers (ds_d ds) (ds_C ds) t.
Proof.
  split; [lia|]. split; [lia|].
  apply (base_feasibility (H := ScriptedSource)); lia.
Defined.

(** C4 as stated (precondition [a <= b] only) fails for negative bounds:
    with [a = -2], [b = -1] and the draws [d[0] = -1], [C[0] = -2] the
    repair moves [C[0]] to [-3], below [d[0]]. *)
Lemma base_feasibility_fails_below_zero :
  -2 ≤ -1 ∧
  ∃ ds g', generate (H := ScriptedSource) 1 (-2) (-1) [0; 0; 0; 1; 0]
           = Some (ds, g') ∧
           dict_get (ds_d ds) 0 = Some (-1) ∧
           dict_get (ds_C ds) 0 = Some (-3) ∧
           ¬ covers (ds_d ds) (ds_C ds) 0.
Proof.
  split; [lia|]. eexists _, _. split; [vm_compute; reflexivity|].
  split; [vm_compute; reflexivity|]. split; [vm_compute; reflexivity|].
  intros (c & dk & Hc & Hd & Hle). vm_compute in Hc, Hd. simplify_eq. lia.
Qed.

(** The scenario [T = 3], [a = b = 1] of the specification: nothing is
    repaired and the dataset is the raw sample. *)
Example base_scenario g :
  ∃ g', generate (H := ScriptedSource) 3 1 1 g
        = Some (let ones := dict_of_list [(0, 1); (1, 1); (2, 1)] in
                Dataset ones ones ones ones ones, g').
Proof.
  assert (∀ g, script_randint 1 1 g = Some (1, tail g)) as Hdraw.
  { intros [|x l]; unfold script_randint; simpl; [done|].
    by rewrite Z.mod_1_r. }
  eexists. unfold generate, sample_periods, dict_comp.
  change (range 3) with [0; 1; 2].
  cbv [dict_comp_from mbind M_bind mret M_ret randint rd_randint
       ScriptedSource lift].
  repeat (rewrite Hdraw; cbv beta iota).
  vm_compute. reflexivity.
Qed.

(** C5, amended.  On demand and capacity as sampled with [0 <= a], the
    nested loops of the base repair return the same capacities as one
    pass over [k] in [0..T-1] applying [if C[k] < d[k] then C[k] += d[k]]:
    each [C[k]] is inflated at most once, by [d[k]], and only when it was
    below [d[k]]. *)
Theorem repair_base_is_single_pass (T a b : Z) (d C : pydict Z Z) :
  0 ≤ a → periods_within T a b d → periods_within T a b C →
  ∃ C', repair_base T d C = Some C' ∧
        repair_single_pass T d C = Some C' ∧
        ∀ k, 0 ≤ k < T → dict_val C' k = repaired d C k.
Proof.
  intros Ha Hd HC.
  destruct (repair_base_spec T d C) as (C' & Hnest & Hsingle & _ & _ & Hval & _).
  { by eapply periods_within_repair_pre. }
  by exists C'.
Qed.

Local Ltac concrete_periods :=
  repeat split; try (vm_compute; reflexivity);
  let t := fresh "t" in let Ht := fresh "Ht" in
  intros t Ht;
  repeat match goal with
         | Ht : ?lo ≤ ?t < ?hi |- _ =>
             assert (t = lo ∨ lo + 1 ≤ t < hi) as [->|?] by lia;
             [eexists; split; [vm_compute; reflexivity|lia]|clear Ht]
         end; lia.

Lemma repair_base_is_single_pass_witness :
  let d := dict_of_list [(0, 3); (1, 1)] in
  let C := dict_of_list [(0, 1); (1, 2)] in
  0 ≤ 1 ∧ periods_within 2 1 6 d ∧ periods_within 2 1 6 C ∧
  ∃ C', repair_base 2 d C = Some C' ∧
        repair_single_pass 2 d C = Some C' ∧
        ∀ k, 0 ≤ k < 2 → dict_val C' k = repaired d C k.
Proof.
  intros d C.
  assert (periods_within 2 1 6 d) as Hd by (subst d; concrete_periods).
  assert (periods_within 2 1 6 C) as HC by (subst C; concrete_periods).
  split; [lia|]. split; [done|]. split; [done|].
  apply (repair_base_is_single_pass 2 1 6 d C); [lia|done..].
Defined.

(** C5 as stated fails for negative bounds: on the sample [d = {0:-1,
    1:-1}], [C = {0:-2, 1:-2}] of [generate(-2,-1)] with [T = 2] the
    nested loops visit period 0 twice and leave [C[0] = -4], the single
    pass leaves [C[0] = -3]. *)
Lemma repair_base_differs_from_single_pass :
  let d := dict_of_list [(0, -1); (1, -1)] in
  let C := dict_of_list [(0, -2); (1, -2)] in
  periods_within 2 (-2) (-1) d ∧ periods_within 2 (-2) (-1) C ∧
  (C' ← repair_base 2 d C; dict_get C' 0) = Some (-4) ∧
  (C' ← repair_single_pass 2 d C; dict_get C' 0) = Some (-3) ∧
  repair_base 2 d C ≠ repair_single_pass 2 d C.
Proof.
  intros d C.
  split; [subst d; concrete_periods|].
  split; [subst C; concrete_periods|].
  split; [vm_compute; reflexivity|]. split; [vm_compute; reflexivity|].
  intros Heq. vm_compute in Heq. discriminate.
Qed.

(** ** The repair never lowers a capacity *)

Lemma repair_base_monotone T d C0 :
  nonneg C0 →
  updates_monotone dict_le (repair_schedule T) (base_step d) C0 ∧
  ∀ C, repair_base T d C0 = Some C → dict_le C0 C.
Proof.
  intros Hnn.
  destruct (for_each_monotone dict_le nonneg (repair_schedule T)
              (base_step d) C0) as [Hsteps Hrun];
    [intros; apply dict_le_refl|apply dict_le_trans|done| |].
  { intros x C1 C2 _. apply base_step_monotone. }
  split; [done|]. intros C HC. rewrite repair_base_schedule in HC.
  by apply Hrun.
Qed.

Lemma periods_within_caps_ok T a b C0 :
  0 ≤ a → periods_within T a b C0 → caps_ok (ints C0).
Proof.
  intros Ha HC0. apply ints_caps_ok. by eapply periods_within_nonneg.
Qed.

(** C6, amended.  With a lower bound [0 <= a], in the three generators
    the repair never lowers a capacity: from capacities [C0] as sampled
    in [[a,b]], every iteration of the repair loops, from whatever state
    the loops have reached, leaves each [C[k]] at least as large as it
    found it; in the time-window repair so does every single
    [C[k] += sum_k_l]; and the capacities that [generate] returns are at
    least those sampled.  In the time-window generators the capacities
    are compared as Python compares an [int] with a [float], by their
    exact values. *)
Theorem repair_never_lowers_capacity `{RandomSource} (T a b : Z) :
  0 ≤ a →
  (∀ d C0, periods_within T a b C0 →
     updates_monotone dict_le (repair_schedule T) (base_step d) C0 ∧
     ∀ C, repair_base T d C0 = Some C → dict_le C0 C) ∧
  (∀ d_w C0, periods_within T a b C0 →
     updates_monotone caps_le (repair_schedule T) (tw_step d_w) (ints C0) ∧
     additions_monotone T d_w (ints C0) ∧
     ∀ C, repair_tw T d_w (ints C0) = Some C → caps_le (ints C0) C) ∧
  (∀ g ds g', generate T a b g = Some (ds, g') →
     ∃ C0 g4, sample_periods T a b g4 = Some (C0, g') ∧
              repair_base T (ds_d ds) C0 = Some (ds_C ds) ∧
              dict_le C0 (ds_C ds)) ∧
  (∀ dw_a dw_b g ds g',
     generate_CS T a b dw_a dw_b g = Some (ds, g') ∨
     generate_NCS T a b dw_a dw_b g = Some (ds, g') →
     ∃ C0 g4, sample_periods T a b g4 = Some (C0, g') ∧
              repair_tw T (tw_d_w ds) (ints C0) = Some (tw_C ds) ∧
              caps_le (ints C0) (tw_C ds)).
Proof.
  intros Ha. split; [|split; [|split]].
  - intros d C0 HC0. apply repair_base_monotone.
    by eapply periods_within_nonneg.
  - intros d_w C0 HC0. apply repair_tw_monotone.
    by eapply periods_within_caps_ok.
  - intros g ds g'
      (h & p & s & d & C0 & C & g1 & g2 & g3 & g4 &
       _ & _ & _ & _ & HC0 & HC & ->)%generate_Some.
    exists C0, g4. simpl. repeat split; [done..|].
    eapply repair_base_monotone; [|done].
    eapply periods_within_nonneg; [done|]. by eapply sample_periods_within.
  - intros dw_a dw_b g ds g' Hrun.
    destruct (generate_tw_stages _ _ _ _ _ _ _ _ Hrun)
      as (C0 & g4 & HC0 & HC & _).
    exists C0, g4. split; [done|]. split; [done|].
    eapply repair_tw_monotone; [|done].
    eapply periods_within_caps_ok; [done|]. by eapply sample_periods_within.
Qed.

Lemma repair_never_lowers_capacity_witness :
  0 ≤ 1 ∧
  (∀ d C0, periods_within 3 1 6 C0 →
     updates_monotone dict_le (repair_schedule 3) (base_step d) C0 ∧
     ∀ C, repair_base 3 d C0 = Some C → dict_le C0 C) ∧
  (∀ d_w C0, periods_within 3 1 6 C0 →
     updates_monotone caps_le (repair_schedule 3) (tw_step d_w) (ints C0) ∧
     additions_monotone 3 d_w (ints C0) ∧
     ∀ C, repair_tw 3 d_w (ints C0) = Some C → caps_le (ints C0) C) ∧
  (∀ g ds g', generate (H := ScriptedSource) 3 1 6 g = Some (ds, g') →
     ∃ C0 g4, sample_periods 3 1 6 g4 = Some (C0, g') ∧
              repair_base 3 (ds_d ds) C0 = Some (ds_C ds) ∧
              dict_le C0 (ds_C ds)) ∧
  (∀ dw_a dw_b g ds g',
     generate_CS 3 1 6 dw_a dw_b g = Some (ds, g') ∨
     generate_NCS 3 1 6 dw_a dw_b g = Some (ds, g') →
     ∃ C0 g4, sample_periods 3 1 6 g4 = Some (C0, g') ∧
              repair_tw 3 (tw_d_w ds) (ints C0) = Some (tw_C ds) ∧
              caps_le (ints C0) (tw_C ds)).
Proof.
  split; [lia|].
  apply (repair_never_lowers_capacity (H := ScriptedSource) 3 1 6). lia.
Defined.

(** C6 as stated fails for negative bounds: in the base generator with
    [a = -2], [b = -1] and the draws [d[0] = -1], [C[0] = -2], the one
    repair update lowers [C[0]] from [-2] to [-3]. *)
Lemma repair_lowers_capacity_below_zero :
  ∃ ds g' C0,
    generate (H := ScriptedSource) 1 (-2) (-1) [0; 0; 0; 1; 0] = Some (ds, g') ∧
    sample_periods 1 (-2) (-1) [0] = Some (C0, g') ∧
    repair_base 1 (ds_d ds) C0 = Some (ds_C ds) ∧
    dict_get C0 0 = Some (-2) ∧
    dict_get (ds_C ds) 0 = Some (-3) ∧
    ¬ dict_le C0 (ds_C ds).
Proof.
  eexists _, _, _. split; [vm_compute; reflexivity|].
  split; [vm_compute; reflexivity|].
  split; [vm_compute; reflexivity|].
  split; [vm_compute; reflexivity|].
  split; [vm_compute; reflexivity|].
  intros Hle. specialize (Hle 0). vm_compute in Hle. by apply Hle.
Qed.

(** ** Interval feasibility of the time-window generators *)

(** C1, amended.  With a lower bound [0 <= a] and within the range of
    exact sums, in a dataset returned by [GeneratorTW_CS.generate] or
    [GeneratorTW_NCS.generate] every period of the horizon is a key of
    [C] and holds a finite number, every window is a key of [d_w], and
    for all [0 <= t1 <= t2 <= T-1] the sum of [C[k]] over [k] in
    [[t1,t2]] is at least the sum of [d_w[(k,l)]] over the windows with
    [t1 <= k <= l <= t2]. *)
Theorem interval_feasibility `{RandomSource} (T a b dw_a dw_b : Z) g ds g' :
  0 ≤ a → exact_range T a b dw_a dw_b →
  generate_CS T a b dw_a dw_b g = Some (ds, g') ∨
  generate_NCS T a b dw_a dw_b g = Some (ds, g') →
  (∀ k, 0 ≤ k < T →
     ∃ v z, dict_get (tw_C ds) k = Some v ∧ value v = Fnum z) ∧
  (∀ k l, 0 ≤ k ≤ l ∧ l < T → is_Some (dict_get (tw_d_w ds) (k, l))) ∧
  ∀ t1 t2, 0 ≤ t1 ≤ t2 ∧ t2 < T →
    demand_in (tw_d_w ds) t1 t2 ≤ capacity_in (tw_C ds) t1 t2.
Proof.
  intros Ha Hex Hrun.
  pose proof (generate_tw_demand_within _ _ _ _ _ _ _ _ Hrun) as Hdw.
  destruct (generate_tw_stages _ _ _ _ _ _ _ _ Hrun)
    as (C0 & g4 & HC0 & HC & _).
  apply sample_periods_within in HC0.
  destruct (repair_tw_feasible T a b (Z.max (Z.abs dw_a) (Z.abs dw_b))
              (tw_d_w ds) C0 (tw_C ds) Ha ltac:(lia) HC0 Hdw Hex HC)
    as (Hwithin & Hkeys & Hfeas).
  split; [|split; [|done]].
  - intros k Hk. destruct (Hkeys k Hk) as [v Hv].
    destruct (Hwithin k v Hv) as (z & Hz & _). by exists v, z.
  - intros k l Hkl. destruct (Hdw k l Hkl) as (z & -> & _). by eexists.
Qed.

Lemma interval_feasibility_witness :
  0 ≤ 1 ∧ exact_range 3 1 1 0 4 ∧
  ∃ ds g',
    generate_NCS (H := ScriptedSource) 3 1 1 0 4
      [0; 0; 0; 0; 0; 0; 0; 0; 0; 3; 4; 2] = Some (ds, g') ∧
    (∀ k, 0 ≤ k < 3 →
       ∃ v z, dict_get (tw_C ds) k = Some v ∧ value v = Fnum z) ∧
    (∀ k l, 0 ≤ k ≤ l ∧ l < 3 → is_Some (dict_get (tw_d_w ds) (k, l))) ∧
    ∀ t1 t2, 0 ≤ t1 ≤ t2 ∧ t2 < 3 →
      demand_in (tw_d_w ds) t1 t2 ≤ capacity_in (tw_C ds) t1 t2.
Proof.
  split; [lia|]. split; [by vm_compute|].
  eexists _, _. split; [vm_compute; reflexivity|].
  apply (interval_feasibility (H := ScriptedSource) 3 1 1 0 4
           [0; 0; 0; 0; 0; 0; 0; 0; 0; 3; 4; 2] _ []); [lia|by vm_compute|].
  right. vm_compute. reflexivity.
Defined.

(** C1 as stated fails for negative bounds: with [T = 1] and
    [a = b = -1] the capacity [C[0] = -1] is below the demand
    [d_w[(0,0)] = 0] of the interval [[0,0]], and the repair adds that
    demand, 0, to it. *)
Lemma interval_feasibility_fails_below_zero :
  ∃ ds g',
    generate_CS (H := ScriptedSource) 1 (-1) (-1) 0 0 [] = Some (ds, g') ∧
    dict_get (tw_C ds) 0 = Some (Float (Fnum (-1))) ∧
    capacity_in (tw_C ds) 0 0 = -1 ∧ demand_in (tw_d_w ds) 0 0 = 0 ∧
    ¬ (demand_in (tw_d_w ds) 0 0 ≤ capacity_in (tw_C ds) 0 0).
Proof.
  eexists _, _. split; [vm_compute; reflexivity|].
  split; [vm_compute; reflexivity|].
  split; [vm_compute; reflexivity|]. split; [vm_compute; reflexivity|].
  intros Hle. vm_compute in Hle. by apply Hle.
Qed.

(** It also fails beyond the range of exact sums: with [T = 2],
    [a = b = 2^52] and [dw_a = dw_b = 2^53 + 1] the two capacities sum to
    [2^53], the double of the demand [2^53 + 1] is [2^53] as well, the
    check [sum_C < sum_k_l] is false and nothing is repaired. *)
Lemma interval_feasibility_fails_beyond_exact_range :
  0 ≤ 2 ^ 52 ∧
  ∃ ds g',
    generate_CS (H := ScriptedSource) 2 (2 ^ 52) (2 ^ 52)
      (2 ^ 53 + 1) (2 ^ 53 + 1) [] = Some (ds, g') ∧
    capacity_in (tw_C ds) 0 1 = 2 ^ 53 ∧
    demand_in (tw_d_w ds) 0 1 = 2 ^ 53 + 1 ∧
    ¬ (demand_in (tw_d_w ds) 0 1 ≤ capacity_in (tw_C ds) 0 1).
Proof.
  split; [lia|]. eexists _, _. split; [vm_compute; reflexivity|].
  split; [vm_compute; reflexivity|]. split; [vm_compute; reflexivity|].
  intros Hle. vm_compute in Hle. by apply Hle.
Qed.

(** ** Pruning of the NCS generator *)

(** C2. In a dataset returned by [GeneratorTW_NCS.generate], any two
    windows [(t1,t2)] and [(t3,t4)] that both carry nonzero demand in
    [d_w] pass the ordering test
    [(t1 <= t3 and t2 <= t4) or (t1 >= t3 and t2 >= t4)], and neither lies
    strictly inside the other. *)
Theorem ncs_no_strict_containment `{RandomSource}
    (T a b dw_a dw_b : Z) g ds g' :
  generate_NCS T a b dw_a dw_b g = Some (ds, g') →
  ∀ t1 t2 t3 t4,
    dict_val (tw_d_w ds) (t1, t2) ≠ 0 → dict_val (tw_d_w ds) (t3, t4) ≠ 0 →
    ordered_bounds t1 t2 t3 t4 = true ∧
    ((t1 ≤ t3 ∧ t2 ≤ t4) ∨ (t1 >= t3 ∧ t2 >= t4)) ∧
    ¬ strictly_inside (t3, t4) (t1, t2) ∧ ¬ strictly_inside (t1, t2) (t3, t4).
Proof.
  intros (h & p & s & d_w0 & d_w & C0 & C & d & g1 & g2 & g3 & g4 &
          _ & _ & _ & Hw & Hpr & _ & _ & _ & ->)%generate_NCS_Some
         t1 t2 t3 t4 H12 H34.
  simpl in *. apply sample_windows_within in Hw.
  destruct (prune_ordered d_w0) as (d_w' & Hpr' & _ & _ & Hord);
    [apply Hw|by eapply windows_within_NoDup|].
  rewrite Hpr in Hpr'. injection Hpr' as <-.
  pose proof (Hord (t1, t2) (t3, t4) H12 H34) as Hc.
  split; [by apply ordered_bounds_comparable|]. split; [done|].
  pose proof (proj2 (not_comparable (t1, t2) (t3, t4))). tauto.
Qed.

Lemma ncs_no_strict_containment_witness :
  ∃ ds g',
    generate_NCS (H := ScriptedSource) 4 1 6 0 4
      [0; 0; 0; 0; 0; 0; 0; 0; 0; 0; 0; 0; 1; 2; 4; 3; 2; 1] = Some (ds, g') ∧
    ∀ t1 t2 t3 t4,
      dict_val (tw_d_w ds) (t1, t2) ≠ 0 → dict_val (tw_d_w ds) (t3, t4) ≠ 0 →
      ordered_bounds t1 t2 t3 t4 = true ∧
      ((t1 ≤ t3 ∧ t2 ≤ t4) ∨ (t1 >= t3 ∧ t2 >= t4)) ∧
      ¬ strictly_inside (t3, t4) (t1, t2) ∧ ¬ strictly_inside (t1, t2) (t3, t4).
Proof.
  eexists _, _. split; [vm_compute; reflexivity|].
  apply (ncs_no_strict_containment (H := ScriptedSource) 4 1 6 0 4
           [0; 0; 0; 0; 0; 0; 0; 0; 0; 0; 0; 0; 1; 2; 4; 3; 2; 1] _ []).
  vm_compute. reflexivity.
Defined.

Lemma prune_two_phase_val d_w x :
  dict_val (prune_two_phase d_w) x
  = if decide (dominated d_w x) then 0 else dict_val d_w x.
Proof.
  unfold dict_val, dict_get, prune_two_phase. simpl.
  rewrite map_lookup_imap. destruct (dict_items d_w !! x) as [v|]; simpl.
  - by destruct (decide (dominated d_w x)).
  - by destruct (decide (dominated d_w x)).
Qed.

Lemma dominated_iff d_w x :
  dominated d_w x ↔
  ∃ y, y ∈ dict_keys d_w ∧ dict_val d_w y ≠ 0 ∧ y.1 < x.1 ∧ x.2 < y.2.
Proof. unfold dominated, dominated_in. by rewrite Exists_exists. Qed.

(** C7. On a window dictionary with the keys of the comprehension, in its
    order, the mutate-while-scanning pruning returns what the two-phase
    pruning returns: the demand of a window [x] ends as 0 exactly when it
    was 0 or some window [y] with nonzero original demand starts strictly
    before [x] and ends strictly after it, and a window whose demand does
    not end as 0 keeps its original demand. *)
Theorem prune_is_two_phase (T : Z) (d_w : pydict (Z * Z) Z) :
  dict_keys d_w = windows T → dict_wf d_w →
  prune d_w = Some (prune_two_phase d_w) ∧
  ∀ x, x ∈ windows T →
    (dict_val (prune_two_phase d_w) x = 0 ↔
       dict_val d_w x = 0 ∨
       ∃ y, y ∈ windows T ∧ y ≠ x ∧ dict_val d_w y ≠ 0 ∧
            y.1 < x.1 ∧ x.2 < y.2) ∧
    (dict_val (prune_two_phase d_w) x ≠ 0 →
       dict_val (prune_two_phase d_w) x = dict_val d_w x).
Proof.
  intros Hkeys Hwf. split; [by eapply prune_two_phase_spec|].
  intros x _. rewrite prune_two_phase_val.
  destruct (decide (dominated d_w x)) as [Hdom|Hndom].
  - split; [|done]. split; [|done]. intros _. right.
    apply dominated_iff in Hdom as (y & Hy & Hy0 & Hlt1 & Hlt2).
    exists y. rewrite <-Hkeys. repeat split; [done| |done..].
    intros ->. lia.
  - split; [|done]. split; [by left|]. intros [?|(y & Hy & _ & Hy0 & Hlt)]; [done|].
    exfalso. apply Hndom, dominated_iff. exists y. by rewrite Hkeys.
Qed.

Lemma scenario_d_w_keys : dict_keys scenario_d_w = windows 4.
Proof. vm_compute. reflexivity. Qed.

Lemma scenario_d_w_wf : dict_wf scenario_d_w.
Proof. vm_compute. reflexivity. Qed.

Lemma prune_is_two_phase_witness :
  dict_keys scenario_d_w = windows 4 ∧ dict_wf scenario_d_w ∧
  prune scenario_d_w = Some (prune_two_phase scenario_d_w) ∧
  ∀ x, x ∈ windows 4 →
    (dict_val (prune_two_phase scenario_d_w) x = 0 ↔
       dict_val scenario_d_w x = 0 ∨
       ∃ y, y ∈ windows 4 ∧ y ≠ x ∧ dict_val scenario_d_w y ≠ 0 ∧
            y.1 < x.1 ∧ x.2 < y.2) ∧
    (dict_val (prune_two_phase scenario_d_w) x ≠ 0 →
       dict_val (prune_two_phase scenario_d_w) x = dict_val scenario_d_w x).
Proof.
  split; [vm_compute; reflexivity|]. split; [vm_compute; reflexivity|].
  apply (prune_is_two_phase 4 scenario_d_w); vm_compute; reflexivity.
Defined.

(** The pruning scenario of the specification: [(1,2)] lies strictly inside
    [(0,3)] and loses its demand, [(0,3)] keeps its own. *)
Example prune_scenario :
  ∃ d_w, prune scenario_d_w = Some d_w ∧
         dict_get scenario_d_w (1, 2) = Some 2 ∧
         dict_get d_w (1, 2) = Some 0 ∧ dict_get d_w (0, 3) = Some 4.
Proof. eexists. split; [vm_compute; reflexivity|]. by vm_compute. Qed.

(** The window demand returned by [GeneratorTW_NCS.generate] is the
    two-phase pruning of the sampled window demand. *)
Lemma generate_NCS_two_phase `{RandomSource} (T a b dw_a dw_b : Z) g ds g' :
  generate_NCS T a b dw_a dw_b g = Some (ds, g') →
  ∃ d_w0, windows_within T dw_a dw_b d_w0 ∧
          tw_d_w ds = prune_two_phase d_w0.
Proof.
  intros (h & p & s & d_w0 & d_w & C0 & C & d & g1 & g2 & g3 & g4 &
          _ & _ & _ & Hw & Hpr & _ & _ & _ & ->)%generate_NCS_Some.
  apply sample_windows_within in Hw. exists d_w0. split; [done|]. simpl.
  destruct Hw as (Hkeys & Hwf & _).
  rewrite (prune_two_phase_spec T d_w0 Hkeys Hwf) in Hpr. by injection Hpr.
Qed.


(** * Further properties of the generators *)

(** ** When [generate] returns *)

Lemma range_nil T : T ≤ 0 → range T = [].
Proof. intros HT. unfold range, range2. apply seqZ_nil. lia. Qed.

Lemma windows_nil T : T ≤ 0 → windows T = [].
Proof. intros HT. unfold windows. by rewrite range_nil. Qed.

Section completion.
Context `{RandomSource}.

(** [randint] raises on an empty range, whatever the state. *)
Lemma rd_randint_None a b g : b < a → rd_randint a b g = None.
Proof.
  intros Hba. destruct (rd_randint a b g) as [[v g']|] eqn:E; [|done].
  apply rd_randint_range in E. lia.
Qed.

(** A comprehension raises when the value of one of its keys raises in
    every state. *)
Lemma dict_comp_from_None {K V : Type} `{Countable K}
    (l : list K) (f : K → M V) acc g k :
  k ∈ l → (∀ g, f k g = None) → dict_comp_from l f acc g = None.
Proof.
  intros Hk Hf. revert acc g.
  induction l as [|x l IH]; intros acc g; [by apply not_elem_of_nil in Hk|].
  simpl. unfold mbind, M_bind.
  destruct (f x g) as [[v g1]|] eqn:E; [|done].
  apply elem_of_cons in Hk as [->|Hk]; [by rewrite Hf in E|by apply IH].
Qed.

Lemma sample_periods_is_Some T a b g :
  is_Some (sample_periods T a b g) ↔ T ≤ 0 ∨ a ≤ b.
Proof.
  split.
  - intros Hs. destruct (decide (T ≤ 0)); [by left|].
    destruct (decide (a ≤ b)); [by right|]. exfalso.
    unfold sample_periods, dict_comp in Hs.
    rewrite (dict_comp_from_None _ _ _ _ 0) in Hs; [by destruct Hs| |].
    + apply elem_of_range. lia.
    + intros g1. apply rd_randint_None. lia.
  - intros [HT|Hab]; [|by apply sample_periods_total].
    unfold sample_periods, dict_comp. rewrite range_nil by done. by eexists.
Qed.

Lemma sample_windows_is_Some T dw_a dw_b g :
  is_Some (sample_windows T dw_a dw_b g) ↔ T ≤ 1 ∨ dw_a ≤ dw_b.
Proof.
  split.
  - intros Hs. destruct (decide (T ≤ 1)); [by left|].
    destruct (decide (dw_a ≤ dw_b)); [by right|]. exfalso.
    unfold sample_windows, dict_comp in Hs.
    rewrite (dict_comp_from_None _ _ _ _ (0, 1)) in Hs; [by destruct Hs| |].
    + apply elem_of_windows. lia.
    + intros g1. rewrite bool_decide_eq_true_2 by lia.
      apply rd_randint_None. lia.
  - intros [HT|Hab]; [|by apply sample_windows_total].
    apply dict_comp_from_total. intros [i j] g1 Hij%elem_of_windows.
    rewrite bool_decide_eq_false_2 by lia. by eexists.
Qed.

(** With an empty horizon the generators return empty dictionaries and do
    not touch the random source, whatever the bounds. *)
Lemma generate_empty_horizon T a b g :
  T ≤ 0 →
  generate T a b g
  = Some (Dataset dict_empty dict_empty dict_empty dict_empty dict_empty, g).
Proof.
  intros HT. unfold generate, sample_periods, dict_comp, repair_base.
  by rewrite range_nil.
Qed.

Lemma ints_empty {K : Type} `{Countable K} :
  ints (dict_empty (K := K)) = dict_empty.
Proof. unfold ints, dict_empty. simpl. by rewrite fmap_empty. Qed.

Lemma generate_CS_empty_horizon T a b dw_a dw_b g :
  T ≤ 0 →
  generate_CS T a b dw_a dw_b g
  = Some (DatasetTW dict_empty dict_empty dict_empty dict_empty
            dict_empty dict_empty, g).
Proof.
  intros HT.
  unfold generate_CS, sample_periods, sample_windows, aggregate, dict_comp,
    repair_tw.
  rewrite range_nil, windows_nil by done. simpl.
  unfold mbind, M_bind, mret, M_ret, lift. simpl. by rewrite ints_empty.
Qed.

Lemma generate_NCS_empty_horizon T a b dw_a dw_b g :
  T ≤ 0 →
  generate_NCS T a b dw_a dw_b g
  = Some (DatasetTW dict_empty dict_empty dict_empty dict_empty
            dict_empty dict_empty, g).
Proof.
  intros HT.
  unfold generate_NCS, sample_periods, sample_windows, aggregate, dict_comp,
    repair_tw.
  rewrite range_nil, windows_nil by done. simpl.
  unfold mbind, M_bind, mret, M_ret, lift. simpl. by rewrite ints_empty.
Qed.
End completion.

Section completion_theorems.
Context `{RandomSource}.

Lemma generate_CS_returns T a b dw_a dw_b g :
  in_double_range a b → in_double_range dw_a dw_b →
  a ≤ b → T ≤ 1 ∨ dw_a ≤ dw_b →
  is_Some (generate_CS T a b dw_a dw_b g).
Proof.
  intros Hr Hrw Hab Hdw.
  destruct (sample_periods_total T a b g Hab) as [[h g1] Hh].
  destruct (sample_periods_total T a b g1 Hab) as [[p g2] Hp].
  destruct (sample_periods_total T a b g2 Hab) as [[s g3] Hs].
  destruct (proj2 (sample_windows_is_Some T dw_a dw_b g3) Hdw) as [[d_w g4] Hw].
  destruct (sample_periods_total T a b g4 Hab) as [[C0 g5] HC0].
  pose proof (sample_windows_within _ _ _ _ _ _ Hw) as Hww.
  pose proof (sample_periods_within _ _ _ _ _ _ HC0) as HCw.
  destruct (repair_aggregate_total T d_w C0 g5) as (C & d & HC & Hagg).
  { exact (periods_within_terms T a b C0 Hr HCw). }
  { exact (windows_within_terms T dw_a dw_b d_w Hrw Hww). }
  unfold generate_CS, mbind, M_bind, lift.
  rewrite Hh, Hp, Hs, Hw, HC0, HC. simpl. rewrite Hagg. by eexists.
Qed.

Lemma generate_NCS_returns T a b dw_a dw_b g :
  in_double_range a b → in_double_range dw_a dw_b →
  a ≤ b → T ≤ 1 ∨ dw_a ≤ dw_b →
  is_Some (generate_NCS T a b dw_a dw_b g).
Proof.
  intros Hr Hrw Hab Hdw.
  destruct (sample_periods_total T a b g Hab) as [[h g1] Hh].
  destruct (sample_periods_total T a b g1 Hab) as [[p g2] Hp].
  destruct (sample_periods_total T a b g2 Hab) as [[s g3] Hs].
  destruct (proj2 (sample_windows_is_Some T dw_a dw_b g3) Hdw) as [[d_w0 g4] Hw].
  destruct (sample_periods_total T a b g4 Hab) as [[C0 g5] HC0].
  pose proof (sample_windows_within _ _ _ _ _ _ Hw) as Hww.
  pose proof (sample_periods_within _ _ _ _ _ _ HC0) as HCw.
  destruct (prune_ordered d_w0) as (d_w & Hpr & Hshape & Hval & _).
  { apply Hww. }
  { by eapply windows_within_NoDup. }
  destruct (repair_aggregate_total T d_w C0 g5) as (C & d & HC & Hagg).
  { exact (periods_within_terms T a b C0 Hr HCw). }
  { eapply pruned_terms; [done..|].
    exact (windows_within_terms T dw_a dw_b d_w0 Hrw Hww). }
  unfold generate_NCS, mbind, M_bind, lift.
  rewrite Hh, Hp, Hs, Hw, Hpr. simpl. rewrite HC0, HC. simpl.
  rewrite Hagg. by eexists.
Qed.

(** X1. [Generator.generate] returns exactly when the horizon is empty or
    the bounds are in order: with [T > 0] and [a > b] the first
    [randint] raises. *)
Theorem generate_returns_iff (T a b : Z) g :
  is_Some (generate T a b g) ↔ T ≤ 0 ∨ a ≤ b.
Proof.
  split.
  - intros [[ds g'] Hrun].
    apply generate_Some in Hrun
      as (h & p & s & d & C0 & C & g1 & g2 & g3 & g4 & Hh & _).
    apply (sample_periods_is_Some T a b g). by rewrite Hh.
  - intros [HT|Hab].
    + rewrite generate_empty_horizon by done. by eexists.
    + destruct (generate_total T a b g Hab) as (ds & g' & ->). by eexists.
Qed.

(** X2. With bounds that have doubles, the time-window generators
    return exactly when the horizon is empty, or [a <= b] and either there
    is no off-diagonal window ([T <= 1]) or [dw_a <= dw_b]. *)
Theorem generate_tw_returns_iff (T a b dw_a dw_b : Z) g :
  in_double_range a b → in_double_range dw_a dw_b →
  (is_Some (generate_CS T a b dw_a dw_b g) ↔
     T ≤ 0 ∨ (a ≤ b ∧ (T ≤ 1 ∨ dw_a ≤ dw_b))) ∧
  (is_Some (generate_NCS T a b dw_a dw_b g) ↔
     T ≤ 0 ∨ (a ≤ b ∧ (T ≤ 1 ∨ dw_a ≤ dw_b))).
Proof.
  intros Hr Hrw. split; split.
  - intros [[ds g'] Hrun].
    apply generate_CS_Some in Hrun
      as (h & p & s & d_w & C0 & C & d & g1 & g2 & g3 & g4 &
          Hh & _ & _ & Hw & _).
    assert (T ≤ 0 ∨ a ≤ b) as [?|?]
      by (apply (sample_periods_is_Some T a b g); by rewrite Hh); [by left|].
    right. split; [done|].
    apply (sample_windows_is_Some T dw_a dw_b g3). by rewrite Hw.
  - intros [HT|[Hab Hdw]].
    + rewrite generate_CS_empty_horizon by done. by eexists.
    + by apply generate_CS_returns.
  - intros [[ds g'] Hrun].
    apply generate_NCS_Some in Hrun
      as (h & p & s & d_w0 & d_w & C0 & C & d & g1 & g2 & g3 & g4 &
          Hh & _ & _ & Hw & _).
    assert (T ≤ 0 ∨ a ≤ b) as [?|?]
      by (apply (sample_periods_is_Some T a b g); by rewrite Hh); [by left|].
    right. split; [done|].
    apply (sample_windows_is_Some T dw_a dw_b g3). by rewrite Hw.
  - intros [HT|[Hab Hdw]].
    + rewrite generate_NCS_empty_horizon by done. by eexists.
    + by apply generate_NCS_returns.
Qed.

(** X3. With [T <= 0] the three generators return a dataset of empty
    dictionaries and leave the random source as it was, whatever the
    bounds (also when they are out of order). *)
Theorem empty_horizon (T a b dw_a dw_b : Z) g :
  T ≤ 0 →
  generate T a b g
  = Some (Dataset dict_empty dict_empty dict_empty dict_empty dict_empty, g) ∧
  generate_CS T a b dw_a dw_b g
  = Some (DatasetTW dict_empty dict_empty dict_empty dict_empty
            dict_empty dict_empty, g) ∧
  generate_NCS T a b dw_a dw_b g
  = Some (DatasetTW dict_empty dict_empty dict_empty dict_empty
            dict_empty dict_empty, g).
Proof.
  intros HT. split; [by apply generate_empty_horizon|].
  split; [by apply generate_CS_empty_horizon|by apply generate_NCS_empty_horizon].
Qed.
End completion_theorems.

Lemma generate_tw_returns_iff_witness :
  in_double_range 1 6 ∧ in_double_range 4 0 ∧
  (is_Some (generate_CS (H := ScriptedSource) 1 1 6 4 0 [3; 1]) ↔
     1 ≤ 0 ∨ (1 ≤ 6 ∧ (1 ≤ 1 ∨ 4 ≤ 0))) ∧
  (is_Some (generate_NCS (H := ScriptedSource) 1 1 6 4 0 [3; 1]) ↔
     1 ≤ 0 ∨ (1 ≤ 6 ∧ (1 ≤ 1 ∨ 4 ≤ 0))).
Proof.
  assert (in_double_range 1 6) as H1 by (split; eexists; vm_compute; reflexivity).
  assert (in_double_range 4 0) as H2 by (split; eexists; vm_compute; reflexivity).
  split; [done|]. split; [done|].
  apply (generate_tw_returns_iff (H := ScriptedSource) 1 1 6 4 0 [3; 1]); done.
Defined.

Lemma empty_horizon_witness :
  0 ≤ 0 ∧
  generate (H := ScriptedSource) 0 6 1 [3; 1]
  = Some (Dataset dict_empty dict_empty dict_empty dict_empty dict_empty,
          [3; 1]) ∧
  generate_CS 0 6 1 4 0 [3; 1]
  = Some (DatasetTW dict_empty dict_empty dict_empty dict_empty
            dict_empty dict_empty, [3; 1]) ∧
  generate_NCS 0 6 1 4 0 [3; 1]
  = Some (DatasetTW dict_empty dict_empty dict_empty dict_empty
            dict_empty dict_empty, [3; 1]).
Proof.
  split; [lia|]. apply (empty_horizon (H := ScriptedSource) 0 6 1 4 0). lia.
Defined.

(** ** The repair on capacities that need none *)

Lemma repair_base_noop T d C :
  (∀ k, 0 ≤ k < T → covers d C k) → repair_base T d C = Some C.
Proof.
  intros Hcov. rewrite repair_base_schedule. apply for_each_fixed.
  intros [t k] Hx%elem_of_repair_schedule. unfold base_step. simpl.
  apply repair_point_covers, Hcov. lia.
Qed.

(** X4. The repair changes nothing when nothing is infeasible: the base
    repair returns [C] itself when [C[k] >= d[k]] for every period, and
    the interval repair returns [C] itself when every interval of the
    horizon already has capacity for the windows it contains and the
    capacities and demands are within the range of exact sums. *)
Theorem repair_leaves_feasible_alone (T B M : Z) (d C : pydict Z Z)
    (C' : pydict Z num) (d_w : pydict (Z * Z) Z) :
  ((∀ k, 0 ≤ k < T → covers d C k) → repair_base T d C = Some C) ∧
  (caps_within B C' → demand_within M T d_w →
   T * B ≤ 2 ^ 53 → T * T * M ≤ 2 ^ 53 →
   (∀ k, 0 ≤ k < T → is_Some (dict_get C' k)) →
   (∀ t1 t2, 0 ≤ t1 ≤ t2 ∧ t2 < T →
      demand_in d_w t1 t2 ≤ capacity_in C' t1 t2) →
   repair_tw T d_w C' = Some C').
Proof. split; [apply repair_base_noop|apply repair_tw_noop]. Qed.

Lemma repair_leaves_feasible_alone_witness :
  let d := dict_of_list [(0, 2); (1, 3)] in
  let C := dict_of_list [(0, 5); (1, 3)] in
  let C' := dict_of_list [(0, Int 5); (1, Float (Fnum 3))] in
  let d_w := dict_of_list [((0, 0), 0); ((0, 1), 7); ((1, 1), 0)] in
  (∀ k, 0 ≤ k < 2 → covers d C k) ∧
  caps_within 5 C' ∧ demand_within 7 2 d_w ∧
  2 * 5 ≤ 2 ^ 53 ∧ 2 * 2 * 7 ≤ 2 ^ 53 ∧
  (∀ k, 0 ≤ k < 2 → is_Some (dict_get C' k)) ∧
  (∀ t1 t2, 0 ≤ t1 ≤ t2 ∧ t2 < 2 →
     demand_in d_w t1 t2 ≤ capacity_in C' t1 t2) ∧
  repair_base 2 d C = Some C ∧ repair_tw 2 d_w C' = Some C'.
Proof.
  intros d C C' d_w.
  assert (∀ k, 0 ≤ k < 2 → k = 0 ∨ k = 1) as Hk by lia.
  assert (∀ k, 0 ≤ k < 2 → covers d C k) as H1.
  { intros k [->| ->]%Hk; [exists 5, 2|exists 3, 3];
      (split; [vm_compute; reflexivity|split; [vm_compute; reflexivity|lia]]). }
  assert (∀ k, 0 ≤ k < 2 → is_Some (dict_get C' k)) as H2.
  { intros k [->| ->]%Hk; eexists; vm_compute; reflexivity. }
  assert (caps_within 5 C') as H3.
  { intros k v Hv. destruct (decide (k = 0)) as [->|?];
      [|destruct (decide (k = 1)) as [->|?]].
    - vm_compute in Hv. injection Hv as <-. exists 5. split; [done|lia].
    - vm_compute in Hv. injection Hv as <-. exists 3. split; [done|lia].
    - exfalso. unfold C', dict_of_list, dict_get in Hv. simpl in Hv.
      rewrite !lookup_insert_ne in Hv by done. done. }
  assert (demand_within 7 2 d_w) as H4.
  { intros k l Hkl.
    assert ((k = 0 ∧ l = 0) ∨ (k = 0 ∧ l = 1) ∨ (k = 1 ∧ l = 1))
      as [[-> ->]|[[-> ->]|[-> ->]]] by lia;
      eexists; (split; [vm_compute; reflexivity|lia]). }
  assert (∀ t1 t2, 0 ≤ t1 ≤ t2 ∧ t2 < 2 →
            demand_in d_w t1 t2 ≤ capacity_in C' t1 t2) as H5.
  { intros t1 t2 Ht.
    assert ((t1 = 0 ∧ t2 = 0) ∨ (t1 = 0 ∧ t2 = 1) ∨ (t1 = 1 ∧ t2 = 1))
      as [[-> ->]|[[-> ->]|[-> ->]]] by lia; vm_compute; discriminate. }
  split; [done|]. split; [done|]. split; [done|].
  split; [lia|]. split; [lia|]. split; [done|]. split; [done|].
  split.
  - by apply (proj1 (repair_leaves_feasible_alone 2 5 7 d C C' d_w)).
  - apply (proj2 (repair_leaves_feasible_alone 2 5 7 d C C' d_w));
      (done || lia).
Defined.

(** X5. A dataset returned with a lower bound [0 <= a] is a fixed point
    of the repair: running the repair loops again on the returned demand
    and capacity returns the same capacity. *)
Theorem repair_is_idempotent `{RandomSource} (T a b : Z) :
  0 ≤ a →
  (∀ g ds g', generate T a b g = Some (ds, g') →
     repair_base T (ds_d ds) (ds_C ds) = Some (ds_C ds)) ∧
  (∀ dw_a dw_b g ds g',
     generate_CS T a b dw_a dw_b g = Some (ds, g') ∨
     generate_NCS T a b dw_a dw_b g = Some (ds, g') →
     repair_tw T (tw_d_w ds) (tw_C ds) = Some (tw_C ds)).
Proof.
  intros Ha. split.
  - intros g ds g'
      (h & p & s & d & C0 & C & g1 & g2 & g3 & g4 &
       _ & _ & _ & Hd & HC0 & HC & ->)%generate_Some.
    simpl. apply sample_periods_within in Hd, HC0.
    destruct (repair_base_spec T d C0) as (C' & HC' & _ & _ & Hcov & _).
    { by eapply periods_within_repair_pre. }
    rewrite HC in HC'. injection HC' as <-. by apply repair_base_noop.
  - intros dw_a dw_b g ds g' Hrun.
    destruct (generate_tw_stages _ _ _ _ _ _ _ _ Hrun)
      as (C0 & g4 & HC0 & HC & _).
    apply sample_periods_within in HC0.
    apply repair_tw_checked in HC as (_ & _ & Hcheck);
      [|by eapply periods_within_caps_ok].
    by apply repair_tw_fixed.
Qed.

Lemma repair_is_idempotent_witness :
  0 ≤ 1 ∧
  (∀ g ds g', generate (H := ScriptedSource) 3 1 6 g = Some (ds, g') →
     repair_base 3 (ds_d ds) (ds_C ds) = Some (ds_C ds)) ∧
  (∀ dw_a dw_b g ds g',
     generate_CS 3 1 6 dw_a dw_b g = Some (ds, g') ∨
     generate_NCS 3 1 6 dw_a dw_b g = Some (ds, g') →
     repair_tw 3 (tw_d_w ds) (tw_C ds) = Some (tw_C ds)).
Proof.
  split; [lia|]. apply (repair_is_idempotent (H := ScriptedSource) 3 1 6). lia.
Defined.

(** X6. With [0 <= a <= b], every capacity returned by the base generator
    lies between the demand of its period and [max(b, 2b-1)]: a capacity
    is inflated at most once, by a demand that exceeds it. *)
Theorem base_capacity_range `{RandomSource} (T a b : Z) g ds g' :
  0 ≤ a →
  generate T a b g = Some (ds, g') →
  ∀ t, 0 ≤ t < T →
    ∃ c dt, dict_get (ds_C ds) t = Some c ∧ dict_get (ds_d ds) t = Some dt ∧
            a ≤ dt ≤ b ∧ dt ≤ c ∧ c ≤ Z.max b (2 * b - 1).
Proof.
  intros Ha
    (h & p & s & d & C0 & C & g1 & g2 & g3 & g4 &
     _ & _ & _ & Hd & HC0 & HC & ->)%generate_Some t Ht.
  simpl. apply sample_periods_within in Hd, HC0.
  destruct (repair_base_spec T d C0) as (C' & HC' & _ & _ & Hcov & Hval & _).
  { by eapply periods_within_repair_pre. }
  rewrite HC in HC'. injection HC' as <-.
  destruct (Hcov t Ht) as (c & dt & Hc & Hdt & Hle).
  destruct Hd as (_ & _ & Hd), HC0 as (_ & _ & HC0).
  destruct (Hd t Ht) as (dt' & Hdt' & Hdr), (HC0 t Ht) as (c0 & Hc0 & Hcr).
  simplify_eq. exists c, dt. repeat split; [done..|lia|lia|done|].
  specialize (Hval t Ht). unfold repaired in Hval.
  rewrite (dict_val_get _ _ _ Hc), (dict_val_get _ _ _ Hc0),
    (dict_val_get _ _ _ Hdt) in Hval.
  destruct (c0 <? dt) eqn:Hlt; [apply Z.ltb_lt in Hlt|]; lia.
Qed.

Lemma base_capacity_range_witness :
  0 ≤ 1 ∧
  ∃ ds g',
    generate (H := ScriptedSource) 2 1 6 [0; 0; 0; 0; 0; 0; 5; 2; 1; 4]
    = Some (ds, g') ∧
    ∀ t, 0 ≤ t < 2 →
      ∃ c dt, dict_get (ds_C ds) t = Some c ∧ dict_get (ds_d ds) t = Some dt ∧
              1 ≤ dt ≤ 6 ∧ dt ≤ c ∧ c ≤ Z.max 6 (2 * 6 - 1).
Proof.
  split; [lia|]. eexists _, _. split; [vm_compute; reflexivity|].
  apply (base_capacity_range (H := ScriptedSource) 2 1 6
           [0; 0; 0; 0; 0; 0; 5; 2; 1; 4] _ []); [lia|].
  vm_compute. reflexivity.
Defined.

(** ** Sums over the triangle of windows *)

Lemma Zsum_app {A : Type} (f : A → Z) l1 l2 :
  Zsum f (l1 ++ l2) = Zsum f l1 + Zsum f l2.
Proof. induction l1 as [|x l1 IH]; simpl; [done|]. rewrite IH. lia. Qed.

Lemma Zsum_add {A : Type} (f g : A → Z) l :
  Zsum (λ x, f x + g x) l = Zsum f l + Zsum g l.
Proof. induction l as [|x l IH]; simpl; [done|]. rewrite IH. lia. Qed.

Lemma Zsum_bind {A B : Type} (f : B → Z) (g : A → list B) l :
  Zsum f (l ≫= g) = Zsum (λ x, Zsum f (g x)) l.
Proof.
  induction l as [|x l IH]; [done|].
  rewrite bind_cons, Zsum_app, IH. done.
Qed.

Lemma Zsum_pairs {A B : Type} (f : A * B → Z) (x : A) (l : list B) :
  Zsum f (y ← l; [(x, y)]) = Zsum (λ y, f (x, y)) l.
Proof. rewrite Zsum_bind. apply Zsum_ext. intros y _. simpl. lia. Qed.

Lemma Zsum_bounds {A : Type} (f : A → Z) l lo hi :
  (∀ x, x ∈ l → lo ≤ f x ≤ hi) →
  Z.of_nat (length l) * lo ≤ Zsum f l ≤ Z.of_nat (length l) * hi.
Proof.
  induction l as [|x l IH]; intros Hall; [simpl; lia|].
  assert (lo ≤ f x ≤ hi) by (apply Hall; by left).
  destruct IH as [? ?]; [intros y Hy; apply Hall; by right|].
  simpl length. rewrite Nat2Z.inj_succ. simpl. lia.
Qed.

Lemma length_range n : 0 ≤ n → Z.of_nat (length (range n)) = n.
Proof. intros Hn. unfold range, range2. rewrite length_seqZ. lia. Qed.

Lemma range2_empty a : range2 a a = [].
Proof. unfold range2. apply seqZ_nil. lia. Qed.

(** Summing the triangle of windows inside [[0,n]] row by row, as the
    repair does, or column by column, as the aggregation does, gives the
    same total. *)
Lemma demand_in_by_due d_w (n : nat) :
  demand_in d_w 0 (Z.of_nat n)
  = Zsum (demand_due d_w) (range (Z.of_nat n + 1)).
Proof.
  unfold demand_in, windows_in, demand_due.
  rewrite Zsum_bind.
  erewrite Zsum_ext; [|intros k _; apply Zsum_pairs].
  induction n as [|n IH].
  - change (Z.of_nat 0 + 1) with 1. change (range2 0 1) with [0].
    change (range 1) with [0]. simpl. reflexivity.
  - rewrite Nat2Z.inj_succ, <-Z.add_1_r.
    rewrite (range2_snoc 0 (Z.of_nat n + 1)) by lia.
    rewrite (range_snoc (Z.of_nat n + 1)) by lia.
    rewrite !Zsum_app. simpl. rewrite <-IH.
    rewrite (Zsum_ext _
      (λ k, Zsum (λ l, dict_val d_w (k, l)) (range2 k (Z.of_nat n + 1))
            + dict_val d_w (k, Z.of_nat n + 1))
      (range2 0 (Z.of_nat n + 1))).
    2:{ intros k Hk%elem_of_range2.
        rewrite (range2_snoc k (Z.of_nat n + 1)) by lia.
        rewrite Zsum_app. simpl. lia. }
    rewrite Zsum_add.
    rewrite (range2_snoc (Z.of_nat n + 1) (Z.of_nat n + 1)) by lia.
    rewrite range2_empty.
    rewrite (range_snoc (Z.of_nat n + 1)) by lia.
    unfold range. rewrite !Zsum_app. simpl. lia.
Qed.

Lemma demand_in_prefix d_w t :
  0 ≤ t → demand_in d_w 0 t = Zsum (demand_due d_w) (range (t + 1)).
Proof.
  intros Ht. rewrite <-(Z2Nat.id t) by done. apply demand_in_by_due.
Qed.

Section demand_totals.
Context `{RandomSource}.

Lemma aggregate_prefix M T d_w g d g' t :
  demand_within M T d_w → T * M ≤ 2 ^ 53 →
  aggregate T d_w g = Some (d, g') → 0 ≤ t < T →
  Zsum (dict_num d) (range (t + 1)) = demand_in d_w 0 t.
Proof.
  intros Hdw Hb Hd Ht. rewrite demand_in_prefix by lia.
  apply Zsum_ext. intros l Hl%elem_of_range.
  rewrite (dict_num_get d l (Float (Fnum (demand_due d_w l)))); [done|].
  eapply aggregate_exact; [done..|lia].
Qed.

(** The range of exact sums of the repair contains that of the
    aggregation. *)
Lemma exact_range_demand T a b dw_a dw_b :
  0 < T → exact_range T a b dw_a dw_b → exact_demand T dw_a dw_b.
Proof.
  unfold exact_range, exact_demand. intros HT Hex.
  set (M := Z.max (Z.abs dw_a) (Z.abs dw_b)) in *.
  set (B := Z.max (Z.abs a) (Z.abs b)) in *.
  assert (0 ≤ M) by (unfold M; lia). assert (0 ≤ B) by (unfold B; lia).
  assert (1 ≤ T * T) by nia.
  assert (M ≤ T * T * M) by nia.
  assert (T * T * M ≤ T * T * (T * T * M)) by nia.
  nia.
Qed.

(** X7. Within the range of exact sums the aggregation conserves demand:
    in a dataset returned by a time-window generator, for every period
    [t] the scalar demands [d[0] + ... + d[t]] add up to the total demand
    of the windows contained in [[0,t]]. *)
Theorem aggregation_conserves_demand (T a b dw_a dw_b : Z) g ds g' :
  exact_demand T dw_a dw_b →
  generate_CS T a b dw_a dw_b g = Some (ds, g') ∨
  generate_NCS T a b dw_a dw_b g = Some (ds, g') →
  ∀ t, 0 ≤ t < T →
    Zsum (dict_num (tw_d ds)) (range (t + 1)) = demand_in (tw_d_w ds) 0 t.
Proof.
  intros Hex Hrun t Ht.
  pose proof (generate_tw_demand_within _ _ _ _ _ _ _ _ Hrun) as Hdw.
  destruct (generate_tw_stages _ _ _ _ _ _ _ _ Hrun) as (C0 & g4 & _ & _ & Hd).
  by eapply aggregate_prefix.
Qed.

(** X8. With a lower bound [0 <= a] and within the range of exact sums,
    a dataset returned by a time-window generator is feasible for the
    aggregated demand: at every period [t] the capacity accumulated over
    [0..t] covers the demand accumulated over [0..t]. *)
Theorem cumulative_capacity_covers_demand (T a b dw_a dw_b : Z) g ds g' :
  0 ≤ a → exact_range T a b dw_a dw_b →
  generate_CS T a b dw_a dw_b g = Some (ds, g') ∨
  generate_NCS T a b dw_a dw_b g = Some (ds, g') →
  ∀ t, 0 ≤ t < T →
    Zsum (dict_num (tw_d ds)) (range (t + 1))
    ≤ Zsum (dict_num (tw_C ds)) (range (t + 1)).
Proof.
  intros Ha Hex Hrun t Ht.
  pose proof (generate_tw_demand_within _ _ _ _ _ _ _ _ Hrun) as Hdw.
  destruct (generate_tw_stages _ _ _ _ _ _ _ _ Hrun)
    as (C0 & g4 & HC0 & HC & Hd).
  rewrite (aggregate_prefix _ _ _ _ _ _ _ Hdw
             (exact_range_demand T a b dw_a dw_b ltac:(lia) Hex) Hd Ht).
  apply sample_periods_within in HC0.
  destruct (repair_tw_feasible T a b (Z.max (Z.abs dw_a) (Z.abs dw_b))
              (tw_d_w ds) C0 (tw_C ds) Ha ltac:(lia) HC0 Hdw Hex HC)
    as (_ & _ & Hfeas).
  apply (Hfeas 0 t). lia.
Qed.
End demand_totals.

Lemma aggregation_conserves_demand_witness :
  exact_demand 3 0 4 ∧
  ∃ ds g',
    generate_NCS (H := ScriptedSource) 3 1 1 0 4
      [0; 0; 0; 0; 0; 0; 0; 0; 0; 3; 4; 2] = Some (ds, g') ∧
    ∀ t, 0 ≤ t < 3 →
      Zsum (dict_num (tw_d ds)) (range (t + 1)) = demand_in (tw_d_w ds) 0 t.
Proof.
  split; [by vm_compute|].
  eexists _, _. split; [vm_compute; reflexivity|].
  apply (aggregation_conserves_demand (H := ScriptedSource) 3 1 1 0 4
           [0; 0; 0; 0; 0; 0; 0; 0; 0; 3; 4; 2] _ []); [by vm_compute|].
  right. vm_compute. reflexivity.
Defined.

Lemma cumulative_capacity_covers_demand_witness :
  0 ≤ 1 ∧ exact_range 3 1 1 0 4 ∧
  ∃ ds g',
    generate_CS (H := ScriptedSource) 3 1 1 0 4
      [0; 0; 0; 0; 0; 0; 0; 0; 0; 3; 4; 2] = Some (ds, g') ∧
    ∀ t, 0 ≤ t < 3 →
      Zsum (dict_num (tw_d ds)) (range (t + 1))
      ≤ Zsum (dict_num (tw_C ds)) (range (t + 1)).
Proof.
  split; [lia|]. split; [by vm_compute|].
  eexists _, _. split; [vm_compute; reflexivity|].
  apply (cumulative_capacity_covers_demand (H := ScriptedSource) 3 1 1 0 4
           [0; 0; 0; 0; 0; 0; 0; 0; 0; 3; 4; 2] _ []);
    [lia|by vm_compute|].
  left. vm_compute. reflexivity.
Defined.

(** ** The range of the aggregated demand *)

Lemma demand_due_split d_w t :
  0 ≤ t →
  demand_due d_w t
  = Zsum (λ t1, dict_val d_w (t1, t)) (range t) + dict_val d_w (t, t).
Proof.
  intros Ht. unfold demand_due. rewrite range_snoc by done.
  rewrite Zsum_app. simpl. lia.
Qed.

Section demand_range.
Context `{RandomSource}.

(** X9. In a dataset returned by a time-window generator with [T > 0] the
    first period carries no demand: its only window is [(0,0)], which is
    created with demand 0, and [d[0]] is the [float] 0.0. *)
Theorem first_period_has_no_demand (T a b dw_a dw_b : Z) g ds g' :
  0 < T →
  generate_CS T a b dw_a dw_b g = Some (ds, g') ∨
  generate_NCS T a b dw_a dw_b g = Some (ds, g') →
  dict_get (tw_d ds) 0 = Some (Float (Fnum 0)).
Proof.
  intros HT Hrun.
  assert (dict_get (tw_d_w ds) (0, 0) = Some 0) as H00.
  { destruct Hrun as [Hrun|Hrun].
    - apply generate_CS_bounds in Hrun as (_ & _ & _ & (_ & _ & Hv) & _).
      destruct (Hv 0 0) as (v & Hget & Hv0 & _); [lia|].
      rewrite Hget. f_equal. by apply Hv0.
    - apply generate_NCS_bounds in Hrun as (_ & _ & _ & _ & _ & Hdiag & _).
      apply Hdiag. lia. }
  apply generate_tw_stages in Hrun as (C0 & g4 & _ & _ & Hd).
  destruct (aggregate_spec _ _ _ _ _ Hd) as (_ & _ & _ & Hval).
  destruct (Hval 0) as (x & Hx & ->); [lia|].
  rewrite (quicksum_first _ H00) in Hx. by injection Hx as <-.
Qed.

(** X10. Within the range of exact sums, in a dataset returned by
    [GeneratorTW_CS.generate] the demand of period [t] is the sum of the
    [t] sampled windows that end at [t], so it lies between [t * dw_a]
    and [t * dw_b]. *)
Theorem cs_demand_range (T a b dw_a dw_b : Z) g ds g' :
  exact_demand T dw_a dw_b →
  generate_CS T a b dw_a dw_b g = Some (ds, g') →
  ∀ t, 0 ≤ t < T →
    ∃ v, dict_get (tw_d ds) t = Some (Float (Fnum v)) ∧
         t * dw_a ≤ v ≤ t * dw_b.
Proof.
  intros Hex Hrun t Ht.
  pose proof (generate_CS_bounds _ _ _ _ _ _ _ _ Hrun)
    as (_ & _ & _ & Hww & _).
  pose proof (windows_within_demand _ _ _ _ Hww) as Hdw.
  destruct Hww as (_ & _ & Hv).
  destruct (generate_tw_stages T a b dw_a dw_b g ds g')
    as (C0 & g4 & _ & _ & Hd); [by left|].
  exists (demand_due (tw_d_w ds) t). split; [by eapply aggregate_exact|].
  rewrite demand_due_split by lia.
  destruct (Hv t t) as (v & Hget & Hv0 & _); [lia|].
  rewrite (dict_val_get _ _ _ Hget), Hv0 by done.
  pose proof (Zsum_bounds (λ t1, dict_val (tw_d_w ds) (t1, t)) (range t)
                dw_a dw_b) as Hb.
  rewrite length_range in Hb by lia.
  destruct Hb as [? ?]; [|lia].
  intros t1 Ht1%elem_of_range.
  destruct (Hv t1 t) as (v1 & Hget1 & _ & Hr); [lia|].
  rewrite (dict_val_get _ _ _ Hget1). apply Hr. lia.
Qed.
End demand_range.

Lemma first_period_has_no_demand_witness :
  0 < 3 ∧
  ∃ ds g',
    generate_NCS (H := ScriptedSource) 3 1 1 0 4
      [0; 0; 0; 0; 0; 0; 0; 0; 0; 3; 4; 2] = Some (ds, g') ∧
    dict_get (tw_d ds) 0 = Some (Float (Fnum 0)).
Proof.
  split; [lia|]. eexists _, _. split; [vm_compute; reflexivity|].
  apply (first_period_has_no_demand (H := ScriptedSource) 3 1 1 0 4
           [0; 0; 0; 0; 0; 0; 0; 0; 0; 3; 4; 2] _ []); [lia|].
  right. vm_compute. reflexivity.
Defined.

Lemma cs_demand_range_witness :
  exact_demand 3 2 4 ∧
  ∃ ds g',
    generate_CS (H := ScriptedSource) 3 1 1 2 4
      [0; 0; 0; 0; 0; 0; 0; 0; 0; 3; 4; 2] = Some (ds, g') ∧
    ∀ t, 0 ≤ t < 3 →
      ∃ v, dict_get (tw_d ds) t = Some (Float (Fnum v)) ∧ t * 2 ≤ v ≤ t * 4.
Proof.
  split; [by vm_compute|].
  eexists _, _. split; [vm_compute; reflexivity|].
  apply (cs_demand_range (H := ScriptedSource) 3 1 1 2 4
           [0; 0; 0; 0; 0; 0; 0; 0; 0; 3; 4; 2] _ []); [by vm_compute|].
  vm_compute. reflexivity.
Defined.

(** ** More on the pruning *)

Lemma prune_shape d_w d_w' :
  dict_wf d_w → NoDup (dict_keys d_w) → prune d_w = Some d_w' →
  dict_shape d_w' = dict_shape d_w ∧
  (∀ z, dict_val d_w' z ≠ 0 → dict_val d_w' z = dict_val d_w z) ∧
  ∀ x z, dict_val d_w' x ≠ 0 → dict_val d_w' z ≠ 0 → comparable x z.
Proof.
  intros Hwf Hnd Hpr.
  destruct (prune_ordered d_w Hwf Hnd) as (d' & Hpr' & Hrest).
  rewrite Hpr in Hpr'. by injection Hpr' as <-.
Qed.

(** X11. The pruning only ever zeroes: on a dictionary it returns a
    dictionary with the same keys in the same order, in which every
    window carries either its original demand or 0. *)
Theorem prune_only_zeroes (d_w : pydict (Z * Z) Z) :
  dict_wf d_w → NoDup (dict_keys d_w) →
  ∃ d_w', prune d_w = Some d_w' ∧
          dict_keys d_w' = dict_keys d_w ∧ dict_wf d_w' ∧
          ∀ x, dict_get d_w' x = dict_get d_w x ∨
               (dict_get d_w' x = Some 0 ∧ is_Some (dict_get d_w x)).
Proof.
  intros Hwf Hnd.
  destruct (prune_ordered d_w Hwf Hnd) as (d' & Hpr & Hshape & Hval & _).
  exists d'. split; [done|]. split; [by apply dict_shape_keys|].
  split; [by eapply dict_shape_wf|]. intros x.
  pose proof (dict_shape_is_Some _ _ x Hshape) as Hx.
  specialize (Hval x). unfold dict_val in Hval.
  destruct (dict_get d' x) as [v'|] eqn:E', (dict_get d_w x) as [v|] eqn:E;
    simpl in Hval.
  - destruct (decide (v' = 0)) as [->|Hne]; [right; by eauto|].
    left. f_equal. by apply Hval.
  - exfalso. by apply (is_Some_None (A := Z)), Hx.
  - exfalso. by apply (is_Some_None (A := Z)), Hx.
  - by left.
Qed.

Lemma prune_only_zeroes_witness :
  dict_wf scenario_d_w ∧ NoDup (dict_keys scenario_d_w) ∧
  ∃ d_w', prune scenario_d_w = Some d_w' ∧
          dict_keys d_w' = dict_keys scenario_d_w ∧ dict_wf d_w' ∧
          ∀ x, dict_get d_w' x = dict_get scenario_d_w x ∨
               (dict_get d_w' x = Some 0 ∧ is_Some (dict_get scenario_d_w x)).
Proof.
  assert (NoDup (dict_keys scenario_d_w)) as Hnd.
  { change (dict_keys scenario_d_w) with (windows 4). apply NoDup_windows. }
  split; [vm_compute; reflexivity|]. split; [done|].
  apply (prune_only_zeroes scenario_d_w); [vm_compute; reflexivity|done].
Defined.

(** X12. Pruning twice is pruning once: what the pruning returns, it
    returns unchanged. *)
Theorem prune_is_idempotent (d_w d_w' : pydict (Z * Z) Z) :
  dict_wf d_w → NoDup (dict_keys d_w) →
  prune d_w = Some d_w' → prune d_w' = Some d_w'.
Proof.
  intros Hwf Hnd Hpr.
  destruct (prune_shape d_w d_w' Hwf Hnd Hpr) as (Hshape & _ & Hord).
  pose proof (dict_shape_wf _ _ Hshape Hwf) as Hwf'.
  pose proof (dict_shape_keys _ _ Hshape) as Hkeys.
  unfold prune. apply for_each_fixed. intros x Hx.
  destruct (prune_step_spec x d_w') as (cur & -> & Hshape' & Hget);
    [done|by rewrite Hkeys|done|].
  f_equal. apply dict_eq; [by apply dict_shape_keys|].
  intros z. rewrite Hget.
  destruct (decide _) as [(Hx0 & Hz0 & Hnc)|]; [|done].
  exfalso. apply Hnc. by apply Hord.
Qed.

Lemma prune_is_idempotent_witness :
  dict_wf scenario_d_w ∧ NoDup (dict_keys scenario_d_w) ∧
  ∃ d_w', prune scenario_d_w = Some d_w' ∧ prune d_w' = Some d_w'.
Proof.
  assert (NoDup (dict_keys scenario_d_w)) as Hnd.
  { change (dict_keys scenario_d_w) with (windows 4). apply NoDup_windows. }
  split; [vm_compute; reflexivity|]. split; [done|].
  eexists. split; [vm_compute; reflexivity|].
  apply (prune_is_idempotent scenario_d_w); [vm_compute; reflexivity|done|].
  vm_compute. reflexivity.
Defined.

(** X13. The pruning never touches a window that starts at period 0 or
    ends at the last period: no window of the horizon can contain it
    strictly. *)
Theorem prune_keeps_boundary_windows (T : Z) (d_w d_w' : pydict (Z * Z) Z) :
  dict_keys d_w = windows T → dict_wf d_w →
  prune d_w = Some d_w' →
  ∀ i j, i = 0 ∨ j = T - 1 → dict_get d_w' (i, j) = dict_get d_w (i, j).
Proof.
  intros Hkeys Hwf Hpr i j Hij.
  rewrite (prune_two_phase_spec T d_w Hkeys Hwf) in Hpr.
  injection Hpr as <-. unfold prune_two_phase, dict_get. simpl.
  rewrite map_lookup_imap. destruct (dict_items d_w !! (i, j)) as [v|]; [|done].
  simpl. destruct (decide (dominated d_w (i, j))) as [Hdom|]; [|done].
  exfalso. apply dominated_iff in Hdom as ([i' j'] & Hy & _ & Hlt1 & Hlt2).
  rewrite Hkeys in Hy. apply elem_of_windows in Hy. simpl in *. lia.
Qed.

Lemma prune_keeps_boundary_windows_witness :
  dict_keys scenario_d_w = windows 4 ∧ dict_wf scenario_d_w ∧
  ∃ d_w', prune scenario_d_w = Some d_w' ∧
          ∀ i j, i = 0 ∨ j = 4 - 1 →
                 dict_get d_w' (i, j) = dict_get scenario_d_w (i, j).
Proof.
  split; [vm_compute; reflexivity|]. split; [vm_compute; reflexivity|].
  eexists. split; [vm_compute; reflexivity|].
  apply (prune_keeps_boundary_windows 4 scenario_d_w);
    vm_compute; reflexivity.
Defined.

(** ** The two time-window generators on the same random state *)

Lemma prune_two_phase_get d_w x :
  dict_get (prune_two_phase d_w) x
  = (λ v, if decide (dominated d_w x) then 0 else v) <$> dict_get d_w x.
Proof.
  unfold prune_two_phase, dict_get. simpl. rewrite map_lookup_imap.
  by destruct (dict_items d_w !! x).
Qed.

Section cs_and_ncs.
Context `{RandomSource}.

Lemma ncs_from_cs T a b dw_a dw_b g cs g' :
  generate_CS T a b dw_a dw_b g = Some (cs, g') →
  ∃ ncs C0,
    generate_NCS T a b dw_a dw_b g = Some (ncs, g') ∧
    windows_within T dw_a dw_b (tw_d_w cs) ∧
    tw_h ncs = tw_h cs ∧ tw_p ncs = tw_p cs ∧ tw_s ncs = tw_s cs ∧
    tw_d_w ncs = prune_two_phase (tw_d_w cs) ∧
    repair_tw T (tw_d_w cs) (ints C0) = Some (tw_C cs) ∧
    repair_tw T (tw_d_w ncs) (ints C0) = Some (tw_C ncs) ∧
    aggregate T (tw_d_w cs) g' = Some (tw_d cs, g') ∧
    aggregate T (tw_d_w ncs) g' = Some (tw_d ncs, g').
Proof.
  intros (h & p & s & d_w & C0 & C & d & g1 & g2 & g3 & g4 &
          Hh & Hp & Hs & Hw & HC0 & HC & Hd & ->)%generate_CS_Some.
  pose proof (sample_windows_within _ _ _ _ _ _ Hw) as Hww.
  pose proof Hww as (Hkeys & Hwf & _).
  destruct (prune_ordered d_w) as (d_w' & Hpr & Hshape & Hval & _);
    [done|by eapply windows_within_NoDup|].
  pose proof Hpr as Hpr'.
  rewrite (prune_two_phase_spec T d_w Hkeys Hwf) in Hpr'.
  injection Hpr' as <-.
  assert (is_Some (repair_tw T d_w (ints C0))) as [HconvC Hconvd]%repair_tw_is_Some
    by (by eexists).
  destruct (repair_aggregate_total T (prune_two_phase d_w) C0 g')
    as (C' & d' & HC' & Hd'); [done|by eapply pruned_terms|].
  exists (DatasetTW h p s (prune_two_phase d_w) C' d'), C0. simpl.
  split; [|done].
  unfold generate_NCS, mbind, M_bind, lift.
  rewrite Hh, Hp, Hs, Hw, Hpr. simpl.
  rewrite HC0, HC'. simpl. by rewrite Hd'.
Qed.

(** X14. Run from the same state of the random source with the same
    parameters, the NCS generator returns whenever the CS generator does,
    draws the same numbers and leaves the random source in the same state:
    its costs are those of the CS dataset, its window demand is the
    pruning of the CS window demand, and its capacity is repaired from the
    same sampled capacity. *)
Theorem ncs_is_cs_pruned (T a b dw_a dw_b : Z) g cs g' :
  generate_CS T a b dw_a dw_b g = Some (cs, g') →
  ∃ ncs C0,
    generate_NCS T a b dw_a dw_b g = Some (ncs, g') ∧
    tw_h ncs = tw_h cs ∧ tw_p ncs = tw_p cs ∧ tw_s ncs = tw_s cs ∧
    prune (tw_d_w cs) = Some (tw_d_w ncs) ∧
    repair_tw T (tw_d_w cs) (ints C0) = Some (tw_C cs) ∧
    repair_tw T (tw_d_w ncs) (ints C0) = Some (tw_C ncs).
Proof.
  intros Hcs.
  destruct (ncs_from_cs _ _ _ _ _ _ _ _ Hcs)
    as (ncs & C0 & Hncs & (Hkeys & Hwf & _) & Hh & Hp & Hs & Hw & HC & HC' & _).
  exists ncs, C0. repeat split; [done..| |done|done].
  rewrite Hw. by eapply prune_two_phase_spec.
Qed.

(** X15. With [0 <= dw_a], on the same state of the random source the
    NCS generator never returns more demand for a period than the CS
    generator: both demands are [float]s, the one of NCS is not negative
    and at most the one of CS. *)
Theorem ncs_demand_at_most_cs (T a b dw_a dw_b : Z) g cs ncs g1 g2 :
  0 ≤ dw_a →
  generate_CS T a b dw_a dw_b g = Some (cs, g1) →
  generate_NCS T a b dw_a dw_b g = Some (ncs, g2) →
  ∀ t, 0 ≤ t < T →
    ∃ x x', dict_get (tw_d ncs) t = Some (Float x) ∧
            dict_get (tw_d cs) t = Some (Float x') ∧
            float_le (Fnum 0) x ∧ float_le x x'.
Proof.
  intros Hdw Hcs Hncs t Ht.
  destruct (ncs_from_cs _ _ _ _ _ _ _ _ Hcs)
    as (ncs' & C0 & Hncs' & (_ & _ & Hv) & _ & _ & _ & Hw & _ & _ & Hd & Hd').
  rewrite Hncs in Hncs'. injection Hncs' as <- _.
  eapply aggregate_mono; [|done..].
  intros t1 Ht1. rewrite Hw, prune_two_phase_val.
  destruct (Hv t1 t) as (v & Hget & Hv0 & Hr); [lia|].
  rewrite (dict_val_get _ _ _ Hget).
  assert (0 ≤ v).
  { destruct (decide (t1 = t)) as [?|Hne]; [rewrite Hv0 by done; lia|].
    specialize (Hr Hne). lia. }
  destruct (decide _); lia.
Qed.
End cs_and_ncs.

Lemma ncs_is_cs_pruned_witness :
  ∃ cs g',
    generate_CS (H := ScriptedSource) 4 1 6 0 4
      [0; 0; 0; 0; 0; 0; 0; 0; 0; 0; 0; 0; 1; 2; 4; 3; 2; 1] = Some (cs, g') ∧
    ∃ ncs C0,
      generate_NCS 4 1 6 0 4
        [0; 0; 0; 0; 0; 0; 0; 0; 0; 0; 0; 0; 1; 2; 4; 3; 2; 1]
      = Some (ncs, g') ∧
      tw_h ncs = tw_h cs ∧ tw_p ncs = tw_p cs ∧ tw_s ncs = tw_s cs ∧
      prune (tw_d_w cs) = Some (tw_d_w ncs) ∧
      repair_tw 4 (tw_d_w cs) (ints C0) = Some (tw_C cs) ∧
      repair_tw 4 (tw_d_w ncs) (ints C0) = Some (tw_C ncs).
Proof.
  eexists _, _. split; [vm_compute; reflexivity|].
  apply (ncs_is_cs_pruned (H := ScriptedSource)). vm_compute. reflexivity.
Defined.

Lemma ncs_demand_at_most_cs_witness :
  0 ≤ 0 ∧
  ∃ cs ncs g1 g2,
    generate_CS (H := ScriptedSource) 4 1 6 0 4
      [0; 0; 0; 0; 0; 0; 0; 0; 0; 0; 0; 0; 1; 2; 4; 3; 2; 1] = Some (cs, g1) ∧
    generate_NCS 4 1 6 0 4
      [0; 0; 0; 0; 0; 0; 0; 0; 0; 0; 0; 0; 1; 2; 4; 3; 2; 1] = Some (ncs, g2) ∧
    ∀ t, 0 ≤ t < 4 →
      ∃ x x', dict_get (tw_d ncs) t = Some (Float x) ∧
              dict_get (tw_d cs) t = Some (Float x') ∧
              float_le (Fnum 0) x ∧ float_le x x'.
Proof.
  split; [lia|]. eexists _, _, _, _.
  split; [vm_compute; reflexivity|]. split; [vm_compute; reflexivity|].
  apply (ncs_demand_at_most_cs (H := ScriptedSource) 4 1 6 0 4
           [0; 0; 0; 0; 0; 0; 0; 0; 0; 0; 0; 0; 1; 2; 4; 3; 2; 1] _ _ [] []);
    [lia|vm_compute; reflexivity..].
Defined.


(** * The generator objects *)

(** ** Shapes kept by the repair *)

Lemma repair_base_shape T d C C' :
  repair_base T d C = Some C' → dict_shape C' = dict_shape C.
Proof.
  rewrite repair_base_schedule.
  apply (for_each_inv (λ cur, dict_shape cur = dict_shape C)); [done|].
  intros x C1 C2 _ Hshape Hstep. rewrite <-Hshape.
  by eapply repair_point_shape.
Qed.

(** ** Values of a dictionary *)

Lemma omap_lookup_total {A B : Type} (f : A → option B) (l : list A) (i : nat) :
  (∀ x, x ∈ l → is_Some (f x)) → omap f l !! i = l !! i ≫= f.
Proof.
  revert i. induction l as [|x l IH]; intros i Hall; [done|].
  destruct (Hall x) as [y Hy]; [by left|].
  cbn [omap list_omap]. rewrite Hy.
  destruct i as [|i]; simpl; [done|].
  apply IH. intros z Hz. apply Hall. by right.
Qed.

Lemma omap_length_total {A B : Type} (f : A → option B) (l : list A) :
  (∀ x, x ∈ l → is_Some (f x)) → length (omap f l) = length l.
Proof.
  induction l as [|x l IH]; intros Hall; [done|].
  destruct (Hall x) as [y Hy]; [by left|].
  cbn [omap list_omap]. rewrite Hy. simpl. f_equal.
  apply IH. intros z Hz. apply Hall. by right.
Qed.

(** [list(d.values())[i]] is [d[k]] for the [i]-th key [k] of [d]. *)
Lemma dict_values_lookup {K V : Type} `{Countable K} (d : pydict K V) i k :
  dict_wf d → dict_keys d !! i = Some k → dict_values d !! i = dict_get d k.
Proof.
  intros Hwf Hk. unfold dict_values. rewrite omap_lookup_total.
  - by rewrite Hk.
  - intros x Hx. by apply (dict_wf_elem d x Hwf).
Qed.

Lemma dict_values_length {K V : Type} `{Countable K} (d : pydict K V) :
  dict_wf d → length (dict_values d) = length (dict_keys d).
Proof.
  intros Hwf. apply omap_length_total.
  intros x Hx. by apply (dict_wf_elem d x Hwf).
Qed.

Lemma period_dict_values {V : Type} T (d : pydict Z V) t :
  period_dict T d → 0 ≤ t < T →
  dict_values d !! Z.to_nat t = dict_get d t.
Proof.
  intros [Hkeys Hwf] Ht. apply dict_values_lookup; [done|].
  rewrite Hkeys. unfold range, range2.
  rewrite lookup_seqZ_lt by lia. f_equal. lia.
Qed.

Lemma period_dict_length {V : Type} T (d : pydict Z V) :
  period_dict T d → length (dict_values d) = Z.to_nat T.
Proof.
  intros [Hkeys Hwf]. rewrite dict_values_length, Hkeys by done.
  unfold range, range2. rewrite length_seqZ. f_equal. lia.
Qed.

Lemma periods_within_period_dict T a b d :
  periods_within T a b d → period_dict T d.
Proof. by intros (? & ? & _). Qed.

Lemma period_dict_shape {V : Type} T (d d' : pydict Z V) :
  dict_shape d' = dict_shape d → period_dict T d → period_dict T d'.
Proof.
  intros Hshape [Hkeys Hwf]. split.
  - by rewrite (dict_shape_keys _ _ Hshape).
  - by eapply dict_shape_wf.
Qed.

Lemma ints_period_dict T d : period_dict T d → period_dict T (ints d).
Proof. intros [Hkeys Hwf]. split; [done|by apply ints_wf]. Qed.

Lemma updated_period_dict T C C' :
  updated C C' → period_dict T C → period_dict T C'.
Proof. intros [Hshape _]. by apply period_dict_shape. Qed.

(** ** Running the methods *)

Section method_runs.
Context `{RandomSource}.

Local Ltac method_run :=
  cbv [get_T attr eval assign mbind Method_bind mret Method_ret lift
       self_T self_h self_p self_s self_d_w self_C self_d
       assign_h assign_p assign_s assign_d_w assign_C assign_d
       option_bind].

Lemma Generator_generate_success (self : instance Z) a b g ds g' :
  generate (self_T self) a b g = Some (ds, g') →
  Generator_generate a b self g
  = (Instance (self_T self) (Some (ds_h ds)) (Some (ds_p ds))
       (Some (ds_s ds)) (self_d_w self) (Some (ds_C ds)) (Some (ds_d ds)),
     Some ((), g')).
Proof.
  intros (h & p & s & d & C0 & C & g1 & g2 & g3 & g4 &
          Hh & Hp & Hs & Hd & HC0 & HC & ->)%generate_Some.
  destruct self as [T h0 p0 s0 dw0 C00 d0]. simpl in *.
  unfold Generator_generate. method_run.
  rewrite Hh, Hp, Hs, Hd, HC0, HC. reflexivity.
Qed.

Lemma Generator_generate_failure (self : instance Z) a b g :
  generate (self_T self) a b g = None →
  Generator_generate a b self g = (self, None) ∧
  0 < self_T self ∧ b < a.
Proof.
  intros Hnone.
  assert (¬ (self_T self ≤ 0 ∨ a ≤ b)) as Hnot.
  { intros [HT|Hab].
    - by rewrite generate_empty_horizon in Hnone.
    - destruct (generate_total (self_T self) a b g Hab) as (ds & g' & Hrun).
      by rewrite Hrun in Hnone. }
  split; [|lia].
  destruct (sample_periods (self_T self) a b g) as [[h g1]|] eqn:Hh.
  { exfalso. apply Hnot, (sample_periods_is_Some _ _ _ g). by rewrite Hh. }
  destruct self as [T h0 p0 s0 dw0 C00 d0]. simpl in *.
  unfold Generator_generate. method_run. by rewrite Hh.
Qed.

(** *** The repair in place *)

Lemma assign_C_same {V : Type} (o : instance V) C :
  self_C o = Some C → assign_C C o = o.
Proof. destruct o. simpl. by intros ->. Qed.

Lemma assign_C_assign_C {V : Type} (o : instance V) C C' :
  assign_C C' (assign_C C o) = assign_C C' o.
Proof. done. Qed.

(** A loop on the instance whose iterations update [self.C] runs the
    iterations on the dictionary; when it raises, [self.C] holds what the
    iterations before have made of it. *)
Lemma for__run {A : Type} (P : instance num → Prop) (l : list A)
    (f : A → pydict Z num → option (pydict Z num))
    (body : A → Method num unit) :
  (∀ o C, P o → P (assign_C C o)) →
  (∀ x C C', f x C = Some C' → updated C C') →
  (∀ x o g C, x ∈ l → P o → self_C o = Some C →
     ∃ C' r, body x o g = (assign_C C' o, r) ∧ updated C C' ∧
             (r = Some ((), g) ∧ f x C = Some C' ∨ r = None ∧ f x C = None)) →
  ∀ o g C, P o → self_C o = Some C →
    ∃ C' r, for_ l body o g = (assign_C C' o, r) ∧ updated C C' ∧
            (r = Some ((), g) ∧ for_each l f C = Some C' ∨
             r = None ∧ for_each l f C = None).
Proof.
  intros HP Hf Hbody. induction l as [|x l IH]; intros o g C Ho HC.
  - exists C, (Some ((), g)). simpl. rewrite assign_C_same by done.
    split; [done|]. split; [apply updated_refl|by left].
  - destruct (Hbody x o g C) as (C1 & r1 & Hrun1 & Hup1 & Hr1);
      [by left|done..|].
    cbn [for_]. unfold mbind, Method_bind. rewrite Hrun1.
    destruct Hr1 as [[-> Hfx]|[-> Hfx]].
    + destruct (IH (λ y o g C Hy, Hbody y o g C (proj2 (elem_of_cons l y x) (or_intror Hy)))
                  (assign_C C1 o) g C1)
        as (C2 & r2 & Hrun2 & Hup2 & Hr2); [by apply HP|done|].
      exists C2, r2. rewrite Hrun2. split; [done|].
      split; [by eapply updated_trans|]. simpl. by rewrite Hfx.
    + exists C1, None. split; [done|]. split; [done|]. right.
      simpl. by rewrite Hfx.
Qed.

Lemma self_C_add_run v k (o : instance num) g C :
  self_C o = Some C →
  ∃ C' r, self_C_add v k o g = (assign_C C' o, r) ∧ updated C C' ∧
          (r = Some ((), g) ∧ dict_add v k C = Some C' ∨
           r = None ∧ dict_add v k C = None).
Proof.
  intros HC. unfold self_C_add. cbv [attr eval assign mbind Method_bind lift].
  rewrite HC. simpl.
  destruct (dict_add v k C) as [C'|] eqn:Hadd; simpl.
  - exists C', (Some ((), g)). split; [done|].
    split; [by eapply dict_add_updated|by left].
  - exists C, None. rewrite (assign_C_same o C HC).
    split; [done|]. split; [apply updated_refl|by right].
Qed.

Lemma self_repair_interval_run d_w t2 t1 (o : instance num) g C :
  self_d_w o = Some d_w → self_C o = Some C →
  ∃ C' r, self_repair_interval t2 t1 o g = (assign_C C' o, r) ∧
          updated C C' ∧
          (r = Some ((), g) ∧ repair_interval d_w t2 t1 C = Some C' ∨
           r = None ∧ repair_interval d_w t2 t1 C = None).
Proof.
  intros Hd HC. unfold self_repair_interval, repair_interval.
  cbv [attr eval mbind Method_bind lift]. rewrite HC. simpl.
  destruct (quicksum _ (dict_get C)) as [sum_C|]; simpl.
  2:{ exists C, None. rewrite (assign_C_same o C HC).
      split; [done|]. split; [apply updated_refl|by right]. }
  rewrite Hd. simpl.
  destruct (quicksum _ (int_item d_w)) as [sum_k_l|]; simpl.
  2:{ exists C, None. rewrite (assign_C_same o C HC).
      split; [done|]. split; [apply updated_refl|by right]. }
  destruct (float_ltb sum_C sum_k_l).
  - apply (for__run (λ _, True)); [done| | |done..].
    + intros k C1 C2. apply dict_add_updated.
    + intros k o1 g1 C1 _ _. apply self_C_add_run.
  - exists C, (Some ((), g)). rewrite (assign_C_same o C HC).
    split; [done|]. split; [apply updated_refl|by left].
Qed.

Lemma self_repair_run d_w T (o : instance num) g C :
  self_d_w o = Some d_w → self_C o = Some C →
  ∃ C' r, self_repair T o g = (assign_C C' o, r) ∧ updated C C' ∧
          (r = Some ((), g) ∧ repair_tw T d_w C = Some C' ∨
           r = None ∧ repair_tw T d_w C = None).
Proof.
  intros Hd HC. unfold self_repair, repair_tw.
  apply (for__run (λ o, self_d_w o = Some d_w)); [done| | |done..].
  - intros t2 C1 C2.
    apply (for_each_inv (λ cur, updated C1 cur)); [apply updated_refl|].
    intros t1 Ca Cb _ Hup Hstep. eapply updated_trans; [done|].
    by eapply repair_interval_updated.
  - intros t2 o1 g1 C1 _ Hd1 HC1.
    apply (for__run (λ o, self_d_w o = Some d_w)); [done| | |done..].
    + intros t1 Ca Cb. apply repair_interval_updated.
    + intros t1 o2 g2 C2 _. by apply self_repair_interval_run.
Qed.

(** *** The time-window methods *)

(** The part of a time-window [generate] after the capacity has been
    sampled and assigned. *)
Lemma repair_aggregate_run d_w T (o : instance num) g C0 :
  self_d_w o = Some d_w → self_C o = Some C0 →
  ∃ o' r,
    (self_repair T;; d_w ← attr self_d_w;
     d ← eval (aggregate T d_w); assign (assign_d d)) o g = (o', r) ∧
    ((∃ C d, repair_tw T d_w C0 = Some C ∧
             aggregate T d_w g = Some (d, g) ∧
             o' = assign_d d (assign_C C o) ∧ r = Some ((), g)) ∨
     (∃ C, updated C0 C ∧ o' = assign_C C o ∧ r = None ∧
           (repair_tw T d_w C0 = None ∨ aggregate T d_w g = None))).
Proof.
  intros Hd HC.
  destruct (self_repair_run d_w T o g C0 Hd HC) as (C & r & Hrun & Hup & Hr).
  unfold mbind at 1, Method_bind at 1. rewrite Hrun.
  destruct Hr as [[-> Hrep]|[-> Hrep]].
  2:{ exists (assign_C C o), None. split; [done|]. right. exists C. tauto. }
  method_run. destruct o as [T0 h0 p0 s0 dw0 C00 d0]. simpl in *. subst dw0.
  destruct (aggregate T d_w g) as [[d g1]|] eqn:Hagg.
  - pose proof Hagg as [-> _]%aggregate_spec.
    eexists _, _. split; [done|]. left. by exists C, d.
  - eexists _, _. split; [done|]. right. exists C. tauto.
Qed.

Lemma GeneratorTW_CS_generate_run (self : instance num) a b dw_a dw_b g :
  ∃ self' r,
    GeneratorTW_CS_generate a b dw_a dw_b self g = (self', r) ∧
    ((∃ ds g', generate_CS (self_T self) a b dw_a dw_b g = Some (ds, g') ∧
               r = Some ((), g') ∧
               self' = Instance (self_T self) (Some (tw_h ds))
                         (Some (tw_p ds)) (Some (tw_s ds))
                         (Some (tw_d_w ds)) (Some (tw_C ds))
                         (Some (tw_d ds))) ∨
     (generate_CS (self_T self) a b dw_a dw_b g = None ∧ r = None ∧
      self_T self' = self_T self ∧ self_d self' = self_d self ∧
      tw_raise_outcome self a b dw_a dw_b self')).
Proof.
  destruct self as [T h0 p0 s0 dw0 C00 d0].
  unfold GeneratorTW_CS_generate, generate_CS. simpl self_T.
  destruct (sample_periods T a b g) as [[h g1]|] eqn:Hh.
  2:{ method_run. rewrite Hh. eexists _, _. split; [done|]. right.
      unfold mbind, M_bind. rewrite Hh. split; [done|]. split; [done|].
      split; [done|]. split; [done|]. left. simpl.
      assert (¬ (T ≤ 0 ∨ a ≤ b)); [|split; [lia|split; [lia|done]]].
      intros Hc%(sample_periods_is_Some T a b g). rewrite Hh in Hc.
      by destruct Hc. }
  assert (T ≤ 0 ∨ a ≤ b) as HTab
    by (apply (sample_periods_is_Some T a b g); by rewrite Hh).
  destruct (proj2 (sample_periods_is_Some T a b g1) HTab) as [[p g2] Hp].
  destruct (proj2 (sample_periods_is_Some T a b g2) HTab) as [[s g3] Hs].
  pose proof (sample_periods_within _ _ _ _ _ _ Hh) as Hhw.
  pose proof (sample_periods_within _ _ _ _ _ _ Hp) as Hpw.
  pose proof (sample_periods_within _ _ _ _ _ _ Hs) as Hsw.
  destruct (sample_windows T dw_a dw_b g3) as [[d_w g4]|] eqn:Hw.
  2:{ method_run. rewrite Hh, Hp, Hs, Hw. eexists _, _. split; [done|]. right.
      unfold mbind, M_bind. rewrite Hh, Hp, Hs, Hw.
      split; [done|]. split; [done|]. split; [done|]. split; [done|].
      right. left. simpl.
      assert (¬ (T ≤ 1 ∨ dw_a ≤ dw_b)) as Hn.
      { intros Hc%(sample_windows_is_Some T dw_a dw_b g3). rewrite Hw in Hc.
        by destruct Hc. }
      split; [lia|]. split; [lia|]. split; [lia|]. by exists h, p, s. }
  assert (T ≤ 1 ∨ dw_a ≤ dw_b) as HTdw
    by (apply (sample_windows_is_Some T dw_a dw_b g3); by rewrite Hw).
  pose proof (sample_windows_within _ _ _ _ _ _ Hw) as Hww.
  destruct (proj2 (sample_periods_is_Some T a b g4) HTab) as [[C0 g5] HC0].
  pose proof (sample_periods_within _ _ _ _ _ _ HC0) as HCw.
  set (o := Instance T (Some h) (Some p) (Some s) (Some d_w)
              (Some (ints C0)) d0).
  destruct (repair_aggregate_run d_w T o g5 (ints C0) eq_refl eq_refl)
    as (o' & r & Hrun & Hout).
  exists o', r. split.
  { method_run. rewrite Hh, Hp, Hs, Hw, HC0. exact Hrun. }
  unfold mbind, M_bind, lift. rewrite Hh, Hp, Hs, Hw, HC0.
  destruct Hout as [(C & d & HC & Hd & -> & ->)|(C & Hup & -> & -> & Hfail)].
  - left. exists (DatasetTW h p s d_w C d), g5.
    rewrite HC. simpl. unfold mbind, M_bind. rewrite Hd. done.
  - right. split.
    { destruct Hfail as [->| Hagg]; [done|].
      destruct (repair_tw T d_w (ints C0)); simpl; [|done].
      unfold mbind, M_bind. by rewrite Hagg. }
    split; [done|]. split; [done|]. split; [done|].
    right. right. simpl.
    assert (0 < T) as HT.
    { destruct (decide (0 < T)); [done|]. exfalso.
      destruct (repair_aggregate_total T d_w C0 g5) as (C' & d' & HC' & Hd').
      - intros k Hk. lia.
      - intros k l Hkl. lia.
      - destruct Hfail as [Hf|Hf]; congruence. }
    split; [done|]. split; [lia|]. split.
    { intros [Hr Hrw].
      destruct (repair_aggregate_total T d_w C0 g5) as (C' & d' & HC' & Hd').
      - exact (periods_within_terms T a b C0 Hr HCw).
      - exact (windows_within_terms T dw_a dw_b d_w Hrw Hww).
      - destruct Hfail as [Hf|Hf]; congruence. }
    exists h, p, s, d_w, d_w, C0, C.
    split; [done|]. split; [done|]. split; [done|]. split; [done|].
    split; [by left|]. split; [done|]. split; [done|]. reflexivity.
Qed.

Lemma GeneratorTW_NCS_generate_run (self : instance num) a b dw_a dw_b g :
  ∃ self' r,
    GeneratorTW_NCS_generate a b dw_a dw_b self g = (self', r) ∧
    ((∃ ds g', generate_NCS (self_T self) a b dw_a dw_b g = Some (ds, g') ∧
               r = Some ((), g') ∧
               self' = Instance (self_T self) (Some (tw_h ds))
                         (Some (tw_p ds)) (Some (tw_s ds))
                         (Some (tw_d_w ds)) (Some (tw_C ds))
                         (Some (tw_d ds))) ∨
     (generate_NCS (self_T self) a b dw_a dw_b g = None ∧ r = None ∧
      self_T self' = self_T self ∧ self_d self' = self_d self ∧
      tw_raise_outcome self a b dw_a dw_b self')).
Proof.
  destruct self as [T h0 p0 s0 dw0 C00 d0].
  unfold GeneratorTW_NCS_generate, generate_NCS. simpl self_T.
  destruct (sample_periods T a b g) as [[h g1]|] eqn:Hh.
  2:{ method_run. rewrite Hh. eexists _, _. split; [done|]. right.
      unfold mbind, M_bind. rewrite Hh. split; [done|]. split; [done|].
      split; [done|]. split; [done|]. left. simpl.
      assert (¬ (T ≤ 0 ∨ a ≤ b)); [|split; [lia|split; [lia|done]]].
      intros Hc%(sample_periods_is_Some T a b g). rewrite Hh in Hc.
      by destruct Hc. }
  assert (T ≤ 0 ∨ a ≤ b) as HTab
    by (apply (sample_periods_is_Some T a b g); by rewrite Hh).
  destruct (proj2 (sample_periods_is_Some T a b g1) HTab) as [[p g2] Hp].
  destruct (proj2 (sample_periods_is_Some T a b g2) HTab) as [[s g3] Hs].
  pose proof (sample_periods_within _ _ _ _ _ _ Hh) as Hhw.
  pose proof (sample_periods_within _ _ _ _ _ _ Hp) as Hpw.
  pose proof (sample_periods_within _ _ _ _ _ _ Hs) as Hsw.
  destruct (sample_windows T dw_a dw_b g3) as [[d_w0 g4]|] eqn:Hw.
  2:{ method_run. rewrite Hh, Hp, Hs, Hw. eexists _, _. split; [done|]. right.
      unfold mbind, M_bind. rewrite Hh, Hp, Hs, Hw.
      split; [done|]. split; [done|]. split; [done|]. split; [done|].
      right. left. simpl.
      assert (¬ (T ≤ 1 ∨ dw_a ≤ dw_b)) as Hn.
      { intros Hc%(sample_windows_is_Some T dw_a dw_b g3). rewrite Hw in Hc.
        by destruct Hc. }
      split; [lia|]. split; [lia|]. split; [lia|]. by exists h, p, s. }
  assert (T ≤ 1 ∨ dw_a ≤ dw_b) as HTdw
    by (apply (sample_windows_is_Some T dw_a dw_b g3); by rewrite Hw).
  pose proof (sample_windows_within _ _ _ _ _ _ Hw) as Hww.
  destruct (prune_ordered d_w0) as (d_w & Hpr & Hshape & Hval & _);
    [apply Hww|by eapply windows_within_NoDup|].
  destruct (proj2 (sample_periods_is_Some T a b g4) HTab) as [[C0 g5] HC0].
  pose proof (sample_periods_within _ _ _ _ _ _ HC0) as HCw.
  set (o := Instance T (Some h) (Some p) (Some s) (Some d_w)
              (Some (ints C0)) d0).
  destruct (repair_aggregate_run d_w T o g5 (ints C0) eq_refl eq_refl)
    as (o' & r & Hrun & Hout).
  exists o', r. split.
  { method_run. rewrite Hh, Hp, Hs, Hw, Hpr, HC0. exact Hrun. }
  unfold mbind, M_bind, lift. rewrite Hh, Hp, Hs, Hw, Hpr. simpl.
  rewrite HC0.
  destruct Hout as [(C & d & HC & Hd & -> & ->)|(C & Hup & -> & -> & Hfail)].
  - left. exists (DatasetTW h p s d_w C d), g5.
    rewrite HC. simpl. unfold mbind, M_bind. rewrite Hd. done.
  - right. split.
    { destruct Hfail as [->| Hagg]; [done|].
      destruct (repair_tw T d_w (ints C0)); simpl; [|done].
      unfold mbind, M_bind. by rewrite Hagg. }
    split; [done|]. split; [done|]. split; [done|].
    right. right. simpl.
    assert (0 < T) as HT.
    { destruct (decide (0 < T)); [done|]. exfalso.
      destruct (repair_aggregate_total T d_w C0 g5) as (C' & d' & HC' & Hd').
      - intros k Hk. lia.
      - intros k l Hkl. lia.
      - destruct Hfail as [Hf|Hf]; congruence. }
    split; [done|]. split; [lia|]. split.
    { intros [Hr Hrw].
      destruct (repair_aggregate_total T d_w C0 g5) as (C' & d' & HC' & Hd').
      - exact (periods_within_terms T a b C0 Hr HCw).
      - eapply pruned_terms; [done..|].
        exact (windows_within_terms T dw_a dw_b d_w0 Hrw Hww).
      - destruct Hfail as [Hf|Hf]; congruence. }
    exists h, p, s, d_w0, d_w, C0, C.
    split; [done|]. split; [done|]. split; [done|]. split; [done|].
    split; [by right|]. split; [done|]. split; [done|]. reflexivity.
Qed.
End method_runs.

Section method_theorems.
Context `{RandomSource}.

Lemma Generator_generate_Some (self : instance Z) a b g self' g' :
  Generator_generate a b self g = (self', Some ((), g')) →
  ∃ ds, generate (self_T self) a b g = Some (ds, g') ∧
        self' = Instance (self_T self) (Some (ds_h ds)) (Some (ds_p ds))
                  (Some (ds_s ds)) (self_d_w self) (Some (ds_C ds))
                  (Some (ds_d ds)).
Proof.
  intros Hrun.
  destruct (generate (self_T self) a b g) as [[ds g'']|] eqn:E.
  - rewrite (Generator_generate_success _ _ _ _ _ _ E) in Hrun.
    injection Hrun as <- <-. by exists ds.
  - apply (Generator_generate_failure self) in E as [E _].
    by rewrite E in Hrun.
Qed.

Lemma GeneratorTW_generate_Some (self : instance num) a b dw_a dw_b g self' g' :
  (GeneratorTW_CS_generate a b dw_a dw_b self g = (self', Some ((), g')) →
   ∃ ds, generate_CS (self_T self) a b dw_a dw_b g = Some (ds, g') ∧
         self' = Instance (self_T self) (Some (tw_h ds)) (Some (tw_p ds))
                   (Some (tw_s ds)) (Some (tw_d_w ds)) (Some (tw_C ds))
                   (Some (tw_d ds))) ∧
  (GeneratorTW_NCS_generate a b dw_a dw_b self g = (self', Some ((), g')) →
   ∃ ds, generate_NCS (self_T self) a b dw_a dw_b g = Some (ds, g') ∧
         self' = Instance (self_T self) (Some (tw_h ds)) (Some (tw_p ds))
                   (Some (tw_s ds)) (Some (tw_d_w ds)) (Some (tw_C ds))
                   (Some (tw_d ds))).
Proof.
  split; intros Hrun.
  - destruct (GeneratorTW_CS_generate_run self a b dw_a dw_b g)
      as (o & r & Hrun' & [(ds & g1 & Hds & -> & ->)|(_ & -> & _)]);
      rewrite Hrun in Hrun'; [|done].
    injection Hrun' as -> <-. by exists ds.
  - destruct (GeneratorTW_NCS_generate_run self a b dw_a dw_b g)
      as (o & r & Hrun' & [(ds & g1 & Hds & -> & ->)|(_ & -> & _)]);
      rewrite Hrun in Hrun'; [|done].
    injection Hrun' as -> <-. by exists ds.
Qed.

(** X16. The accessors follow [generate].  On an instance fresh from
    [__init__] the accessor [get_T] returns the horizon and every other
    accessor raises, as does [printData]; after a [generate] that returned,
    the accessors return the parts of the dataset that the generator
    computed from the state of the random source, whatever the instance
    held before, and [get_T] still returns the horizon. *)
Theorem accessors_follow_generate (self : instance Z) (self_tw : instance num)
    (a b dw_a dw_b : Z) g :
  (∀ (V : Type) (N : PyNum V) T,
     let fresh : instance V := __init__ T in
     get_T fresh g = (fresh, Some (T, g)) ∧
     get_d fresh g = (fresh, None) ∧
     get_dw fresh g = (fresh, None) ∧
     get_C fresh g = (fresh, None) ∧
     get_h fresh g = (fresh, None) ∧
     get_p fresh g = (fresh, None) ∧
     get_s fresh g = (fresh, None) ∧
     printData fresh g = (fresh, None)) ∧
  (∀ self' g', Generator_generate a b self g = (self', Some ((), g')) →
     ∃ ds, generate (self_T self) a b g = Some (ds, g') ∧
           get_T self' g' = (self', Some (self_T self, g')) ∧
           get_h self' g' = (self', Some (ds_h ds, g')) ∧
           get_p self' g' = (self', Some (ds_p ds, g')) ∧
           get_s self' g' = (self', Some (ds_s ds, g')) ∧
           get_d self' g' = (self', Some (ds_d ds, g')) ∧
           get_C self' g' = (self', Some (ds_C ds, g'))) ∧
  (∀ self' g',
     GeneratorTW_CS_generate a b dw_a dw_b self_tw g
     = (self', Some ((), g')) →
     ∃ ds, generate_CS (self_T self_tw) a b dw_a dw_b g = Some (ds, g') ∧
           get_T self' g' = (self', Some (self_T self_tw, g')) ∧
           get_h self' g' = (self', Some (tw_h ds, g')) ∧
           get_p self' g' = (self', Some (tw_p ds, g')) ∧
           get_s self' g' = (self', Some (tw_s ds, g')) ∧
           get_dw self' g' = (self', Some (tw_d_w ds, g')) ∧
           get_d self' g' = (self', Some (tw_d ds, g')) ∧
           get_C self' g' = (self', Some (tw_C ds, g'))) ∧
  (∀ self' g',
     GeneratorTW_NCS_generate a b dw_a dw_b self_tw g
     = (self', Some ((), g')) →
     ∃ ds, generate_NCS (self_T self_tw) a b dw_a dw_b g = Some (ds, g') ∧
           get_T self' g' = (self', Some (self_T self_tw, g')) ∧
           get_h self' g' = (self', Some (tw_h ds, g')) ∧
           get_p self' g' = (self', Some (tw_p ds, g')) ∧
           get_s self' g' = (self', Some (tw_s ds, g')) ∧
           get_dw self' g' = (self', Some (tw_d_w ds, g')) ∧
           get_d self' g' = (self', Some (tw_d ds, g')) ∧
           get_C self' g' = (self', Some (tw_C ds, g'))).
Proof.
  split; [|split; [|split]].
  - intros V N T. repeat split.
  - intros self' g' (ds & Hds & ->)%Generator_generate_Some.
    exists ds. repeat split; done.
  - intros self' g' Hrun.
    apply (proj1 (GeneratorTW_generate_Some _ _ _ _ _ _ _ _)) in Hrun
      as (ds & Hds & ->).
    exists ds. repeat split; done.
  - intros self' g' Hrun.
    apply (proj2 (GeneratorTW_generate_Some _ _ _ _ _ _ _ _)) in Hrun
      as (ds & Hds & ->).
    exists ds. repeat split; done.
Qed.

(** X17. A base [generate] that raises has assigned nothing: it raises
    exactly when [T > 0] and [a > b], at the first [randint], and the
    instance is as it was before the call. *)
Theorem failed_generate_changes_nothing (self : instance Z) (a b : Z) g :
  (0 < self_T self ∧ b < a → Generator_generate a b self g = (self, None)) ∧
  (∀ self', Generator_generate a b self g = (self', None) →
            self' = self ∧ 0 < self_T self ∧ b < a).
Proof.
  split.
  - intros [HT Hba].
    destruct (generate (self_T self) a b g) as [[ds g']|] eqn:E.
    + exfalso.
      assert (self_T self ≤ 0 ∨ a ≤ b); [|lia].
      apply generate_Some in E
        as (h & p & s & d & C0 & C & g1 & g2 & g3 & g4 & Hh & _).
      apply (sample_periods_is_Some _ _ _ g). by rewrite Hh.
    + by apply Generator_generate_failure.
  - intros self' Hrun.
    destruct (generate (self_T self) a b g) as [[ds g']|] eqn:E.
    + by rewrite (Generator_generate_success _ _ _ _ _ _ E) in Hrun.
    + apply (Generator_generate_failure self) in E as (E & ? & ?).
      rewrite E in Hrun. by injection Hrun as <-.
Qed.

(** X18. A time-window [generate] that raises leaves [T] and [d] as they
    were.  Either the bounds [a], [b] are out of order and nothing was
    assigned; or [a <= b], [T > 1] and [dw_a > dw_b], and then [h], [p]
    and [s] have been replaced by fresh samples within [[a,b]]; or a sum
    of the repair or of the aggregation raised [OverflowError], which
    needs bounds beyond the range of a double, and then [h], [p], [s],
    [d_w] and [C] have been replaced, [C] by the sampled capacity with
    the repairs made before the raise. *)
Theorem failed_tw_generate_keeps_demand
    (self self' : instance num) (a b dw_a dw_b : Z) g :
  GeneratorTW_CS_generate a b dw_a dw_b self g = (self', None) ∨
  GeneratorTW_NCS_generate a b dw_a dw_b self g = (self', None) →
  self_T self' = self_T self ∧ self_d self' = self_d self ∧
  tw_raise_outcome self a b dw_a dw_b self'.
Proof.
  intros [Hrun|Hrun].
  - destruct (GeneratorTW_CS_generate_run self a b dw_a dw_b g)
      as (o & r & Hrun' & [(ds & g1 & _ & -> & _)|(_ & _ & HT & Hd & Hout)]);
      rewrite Hrun in Hrun'; [done|].
    by injection Hrun' as <-.
  - destruct (GeneratorTW_NCS_generate_run self a b dw_a dw_b g)
      as (o & r & Hrun' & [(ds & g1 & _ & -> & _)|(_ & _ & HT & Hd & Hout)]);
      rewrite Hrun in Hrun'; [done|].
    by injection Hrun' as <-.
Qed.
End method_theorems.

(** ** The table of [printData] *)

Lemma pd_column_ints (l : list Z) : pd_column (Int <$> l) = Some (Int <$> l).
Proof.
  unfold pd_column.
  assert (forallb is_int (Int <$> l) = true) as ->; [|done].
  by induction l as [|z l IH].
Qed.

Lemma pd_column_spec (l : list num) :
  (∀ v, v ∈ l → is_Some (to_float v)) →
  ∃ col, pd_column l = Some col ∧ length col = length l ∧
         ∀ i v, l !! i = Some v →
           ∃ cell, col !! i = Some cell ∧
                   (cell = v ∨ Float <$> to_float v = Some cell).
Proof.
  intros Hconv. unfold pd_column. destruct (forallb is_int l).
  { exists l. split; [done|]. split; [done|]. intros i v Hv. exists v. eauto. }
  destruct (mapM (λ v, Float <$> to_float v) l) as [col|] eqn:Hm.
  - exists col. split; [done|]. apply mapM_Some in Hm.
    split; [by rewrite (Forall2_length _ _ _ Hm)|].
    intros i v Hv.
    destruct (Forall2_lookup_l _ _ _ _ _ Hm Hv) as (cell & Hcell & Hc).
    exists cell. eauto.
  - exfalso. assert (is_Some (mapM (λ v, Float <$> to_float v) l)) as [? Hs].
    { apply mapM_is_Some, Forall_forall. intros v Hv.
      destruct (Hconv v Hv) as [x Hx]. exists (Float x). by rewrite Hx. }
    congruence.
Qed.

(** A column of [float]s is stored as it is. *)
Lemma pd_column_floats (l : list num) :
  (∀ v, v ∈ l → ∃ x, v = Float x) → pd_column l = Some l.
Proof.
  intros Hall. unfold pd_column. destruct (forallb is_int l); [done|].
  apply mapM_Some, Forall_Forall2_diag, Forall_forall.
  intros v [x ->]%Hall. done.
Qed.

Lemma column_is_values {V : Type} `{PyNum V} T (d : pydict Z V) :
  period_dict T d → column_is T (to_num <$> dict_values d) d.
Proof.
  intros Hd. split; [by rewrite length_fmap, (period_dict_length T d)|].
  intros t Ht.
  pose proof (period_dict_values T d t Hd Ht) as Hv.
  destruct Hd as [Hkeys Hwf].
  assert (is_Some (dict_get d t)) as [v Hget].
  { apply (dict_wf_elem d t Hwf). rewrite Hkeys. by apply elem_of_range. }
  exists v. split; [done|]. by rewrite list_lookup_fmap, Hv, Hget.
Qed.

Lemma column_of_stored {V : Type} `{PyNum V} T (d : pydict Z V) col :
  period_dict T d →
  length col = length (to_num <$> dict_values d) →
  (∀ i v, (to_num <$> dict_values d) !! i = Some v →
     ∃ cell, col !! i = Some cell ∧
             (cell = v ∨ Float <$> to_float v = Some cell)) →
  column_of T col d.
Proof.
  intros Hd Hlen Hcells.
  destruct (column_is_values T d Hd) as [Hlen' Hvals].
  split; [congruence|]. intros t Ht.
  destruct (Hvals t Ht) as (v & Hget & Hv).
  destruct (Hcells _ _ Hv) as (cell & Hcell & Hc).
  by exists v, cell.
Qed.

Section print_data.
Context `{RandomSource}.

Local Ltac method_run :=
  cbv [get_T attr eval assign mbind Method_bind mret Method_ret lift
       self_T self_h self_p self_s self_d_w self_C self_d
       assign_h assign_p assign_s assign_d_w assign_C assign_d
       option_bind].

(** [printData] on an instance whose five period dictionaries are
    assigned and have one key per period. *)
Lemma printData_run {V : Type} `{PyNum V} (self : instance V) g d C h p s cd cC :
  self_d self = Some d → self_C self = Some C → self_h self = Some h →
  self_p self = Some p → self_s self = Some s →
  period_dict (self_T self) d → period_dict (self_T self) C →
  period_dict (self_T self) h → period_dict (self_T self) p →
  period_dict (self_T self) s →
  pd_column (to_num <$> dict_values d) = Some cd →
  length cd = length (dict_values d) →
  pd_column (to_num <$> dict_values C) = Some cC →
  length cC = length (dict_values C) →
  printData self g
  = (self, Some (MkDataFrame (Some "T") (range (self_T self))
                   [("d", cd); ("C", cC);
                    ("h", Int <$> dict_values h); ("p", Int <$> dict_values p);
                    ("s", Int <$> dict_values s)], g)).
Proof.
  intros Hd HC Hh Hp Hs Pd PC Ph Pp Ps Hcd Hlcd HcC HlcC.
  apply period_dict_length in Pd, PC, Ph, Pp, Ps.
  destruct self as [T h0 p0 s0 dw0 C00 d0]. simpl in *. subst.
  unfold printData. method_run.
  unfold pd_DataFrame.
  change (list_of_string "dChps") with ["d"; "C"; "h"; "p"; "s"].
  cbn [mapM]. rewrite !dict_get_set.
  repeat match goal with
         | |- context [decide (?x = ?y)] =>
             destruct (decide (x = y)); [try discriminate|try done]
         end.
  cbn [mbind option_bind]. rewrite Hcd, HcC, !pd_column_ints.
  cbn. rewrite bool_decide_eq_true_2.
  - rewrite Hlcd, Pd, <-range_to_nat. reflexivity.
  - repeat constructor; simpl; rewrite ?length_fmap; congruence.
Qed.

Lemma generate_period_dicts T a b g ds g' :
  generate T a b g = Some (ds, g') →
  period_dict T (ds_d ds) ∧ period_dict T (ds_C ds) ∧
  period_dict T (ds_h ds) ∧ period_dict T (ds_p ds) ∧ period_dict T (ds_s ds).
Proof.
  intros (Hh & Hp & Hs & Hd & C0 & HC0 & HC)%generate_bounds.
  repeat split; try by eapply periods_within_period_dict.
  - rewrite (dict_shape_keys _ _ (repair_base_shape _ _ _ _ HC)). apply HC0.
  - eapply dict_shape_wf; [by eapply repair_base_shape|apply HC0].
Qed.

Lemma generate_tw_period_dicts T a b dw_a dw_b g ds g' :
  generate_CS T a b dw_a dw_b g = Some (ds, g') ∨
  generate_NCS T a b dw_a dw_b g = Some (ds, g') →
  period_dict T (tw_d ds) ∧ period_dict T (tw_C ds) ∧
  period_dict T (tw_h ds) ∧ period_dict T (tw_p ds) ∧ period_dict T (tw_s ds) ∧
  (∀ v, v ∈ dict_values (tw_d ds) → ∃ x, v = Float x) ∧
  (∀ v, v ∈ dict_values (tw_C ds) → is_Some (to_float v)).
Proof.
  intros Hrun.
  destruct (generate_tw_stages _ _ _ _ _ _ _ _ Hrun) as (C0 & g4 & HC0 & HC & Hd).
  apply sample_periods_within, periods_within_period_dict in HC0.
  pose proof (repair_tw_updated _ _ _ _ HC) as Hup.
  destruct (aggregate_spec _ _ _ _ _ Hd) as (_ & Hkeys & Hwf & Hvals).
  assert (period_dict T (tw_C ds)) as PC.
  { eapply updated_period_dict; [done|]. by apply ints_period_dict. }
  split; [done|]. split; [done|].
  assert (period_dict T (tw_h ds) ∧ period_dict T (tw_p ds) ∧
          period_dict T (tw_s ds)) as (Ph & Pp & Ps).
  { destruct Hrun as [Hrun|Hrun].
    - apply generate_CS_bounds in Hrun as (Hh & Hp & Hs & _).
      repeat split; try by eapply periods_within_period_dict.
    - apply generate_NCS_bounds in Hrun as (Hh & Hp & Hs & _).
      repeat split; try by eapply periods_within_period_dict. }
  split; [done|]. split; [done|]. split; [done|]. split.
  - intros v [i Hi]%list_elem_of_lookup.
    assert (is_Some (dict_keys (tw_d ds) !! i)) as [t Ht].
    { apply lookup_lt_is_Some. rewrite <-dict_values_length by done.
      by eapply lookup_lt_Some. }
    rewrite (dict_values_lookup _ _ _ Hwf Ht) in Hi.
    pose proof (list_elem_of_lookup_2 _ _ _ Ht) as Hin.
    rewrite Hkeys in Hin. apply elem_of_range in Hin.
    destruct (Hvals t Hin) as (x & _ & Hx). rewrite Hx in Hi.
    injection Hi as <-. by exists x.
  - intros v [i Hi]%list_elem_of_lookup. destruct PC as [HkeysC HwfC].
    assert (is_Some (dict_keys (tw_C ds) !! i)) as [t Ht].
    { apply lookup_lt_is_Some. rewrite <-dict_values_length by done.
      by eapply lookup_lt_Some. }
    rewrite (dict_values_lookup _ _ _ HwfC Ht) in Hi.
    pose proof (list_elem_of_lookup_2 _ _ _ Ht) as Hin.
    rewrite HkeysC in Hin. apply elem_of_range in Hin.
    assert (is_Some (repair_tw T (tw_d_w ds) (ints C0)))
      as [Hconv _]%repair_tw_is_Some by (by eexists).
    pose proof (proj2 (updated_term _ _ t Hup) (Hconv t Hin)) as [x Hx].
    unfold term in Hx. rewrite Hi in Hx. by exists x.
Qed.

(** X19. After a [generate] that returned, [printData] returns, leaves
    the instance and the random source as they are, and its table has the
    index [0..T-1] named [T] and the columns [d], [C], [h], [p], [s], in
    this order and no other; each column has one row per period.  In the
    base class row [t] of a column holds the value of the dictionary at
    [t].  In the time-window classes so do the rows of [d], [h], [p] and
    [s]; row [t] of the column [C] holds [C[t]], or the double of [C[t]]
    when the repair has left a [float] in [C]. *)
Theorem printData_shows_dataset (a b dw_a dw_b : Z) g g' :
  (∀ self self' : instance Z,
     Generator_generate a b self g = (self', Some ((), g')) →
     ∃ df d C h p s,
       printData self' g' = (self', Some (df, g')) ∧
       self_d self' = Some d ∧ self_C self' = Some C ∧
       self_h self' = Some h ∧ self_p self' = Some p ∧
       self_s self' = Some s ∧
       table_of column_is (self_T self) df d C h p s) ∧
  (∀ self self' : instance num,
     GeneratorTW_CS_generate a b dw_a dw_b self g = (self', Some ((), g')) ∨
     GeneratorTW_NCS_generate a b dw_a dw_b self g = (self', Some ((), g')) →
     ∃ df d C h p s,
       printData self' g' = (self', Some (df, g')) ∧
       self_d self' = Some d ∧ self_C self' = Some C ∧
       self_h self' = Some h ∧ self_p self' = Some p ∧
       self_s self' = Some s ∧
       table_of column_of (self_T self) df d C h p s).
Proof.
  split.
  - intros self self' (ds & Hds & ->)%Generator_generate_Some.
    destruct (generate_period_dicts _ _ _ _ _ _ Hds) as (Pd & PC & Ph & Pp & Ps).
    eexists _, (ds_d ds), (ds_C ds), (ds_h ds), (ds_p ds), (ds_s ds).
    split.
    { apply (printData_run _ g' (ds_d ds) (ds_C ds) (ds_h ds) (ds_p ds)
               (ds_s ds) (Int <$> dict_values (ds_d ds))
               (Int <$> dict_values (ds_C ds)));
        try done; try apply pd_column_ints; by rewrite length_fmap. }
    simpl. repeat split; try done.
    eexists _, _, _, _, _. split; [done|].
    repeat split; by apply (column_is_values (V := Z)).
  - intros self self' Hrun.
    assert (∃ ds, (generate_CS (self_T self) a b dw_a dw_b g = Some (ds, g') ∨
                   generate_NCS (self_T self) a b dw_a dw_b g = Some (ds, g')) ∧
                  self' = Instance (self_T self) (Some (tw_h ds))
                            (Some (tw_p ds)) (Some (tw_s ds))
                            (Some (tw_d_w ds)) (Some (tw_C ds))
                            (Some (tw_d ds)))
      as (ds & Hds & ->).
    { destruct Hrun as [Hrun|Hrun].
      - apply (proj1 (GeneratorTW_generate_Some _ _ _ _ _ _ _ _)) in Hrun
          as (ds & Hds & ->). exists ds. split; [by left|done].
      - apply (proj2 (GeneratorTW_generate_Some _ _ _ _ _ _ _ _)) in Hrun
          as (ds & Hds & ->). exists ds. split; [by right|done]. }
    destruct (generate_tw_period_dicts _ _ _ _ _ _ _ _ Hds)
      as (Pd & PC & Ph & Pp & Ps & Hfl & Hconv).
    destruct (pd_column_spec (to_num <$> dict_values (tw_C ds)))
      as (cC & HcC & HlcC & Hcells).
    { intros v Hv. apply Hconv. by rewrite list_fmap_id in Hv. }
    assert (pd_column (to_num <$> dict_values (tw_d ds))
            = Some (to_num <$> dict_values (tw_d ds))) as Hcd.
    { apply pd_column_floats. intros v Hv. apply Hfl.
      by rewrite list_fmap_id in Hv. }
    eexists _, (tw_d ds), (tw_C ds), (tw_h ds), (tw_p ds), (tw_s ds).
    split.
    { apply (printData_run _ g' (tw_d ds) (tw_C ds) (tw_h ds) (tw_p ds)
               (tw_s ds) (to_num <$> dict_values (tw_d ds)) cC); try done.
      - by rewrite length_fmap.
      - by rewrite HlcC, length_fmap. }
    simpl. repeat split; try done.
    eexists _, _, _, _, _. split; [done|].
    split; [by apply (column_is_values (V := num))|].
    split; [by apply column_of_stored|].
    repeat split; by apply (column_is_values (V := Z)).
Qed.
End print_data.

Lemma accessors_follow_generate_witness :
  ∃ self' g',
    GeneratorTW_NCS_generate (H := ScriptedSource) 1 6 0 4 (__init__ 2)
      [2; 7; 1; 8; 2; 8; 3; 5] = (self', Some ((), g')) ∧
    ∃ ds, generate_NCS 2 1 6 0 4 [2; 7; 1; 8; 2; 8; 3; 5] = Some (ds, g') ∧
          get_T self' g' = (self', Some (2, g')) ∧
          get_h self' g' = (self', Some (tw_h ds, g')) ∧
          get_p self' g' = (self', Some (tw_p ds, g')) ∧
          get_s self' g' = (self', Some (tw_s ds, g')) ∧
          get_dw self' g' = (self', Some (tw_d_w ds, g')) ∧
          get_d self' g' = (self', Some (tw_d ds, g')) ∧
          get_C self' g' = (self', Some (tw_C ds, g')).
Proof.
  eexists _, _. split; [vm_compute; reflexivity|].
  apply (proj2 (proj2 (proj2
           (accessors_follow_generate (H := ScriptedSource) (__init__ 2)
              (__init__ 2) 1 6 0 4 [2; 7; 1; 8; 2; 8; 3; 5])))).
  vm_compute. reflexivity.
Defined.

Lemma failed_generate_changes_nothing_witness :
  (0 < 2 ∧ 1 < 6) ∧
  Generator_generate (H := ScriptedSource) 6 1 (__init__ 2) [3; 1; 4]
  = (__init__ 2, None).
Proof.
  split; [lia|].
  apply (proj1 (failed_generate_changes_nothing (H := ScriptedSource)
                  (__init__ 2) 6 1 [3; 1; 4])).
  simpl. lia.
Defined.

(** A raise in the repair: with [T = 3], [a = 1] and [b = 10^400] the
    interval [[0,1]] is repaired before the sum over [[0,2]] meets a
    capacity that has no double, and [self.C] keeps the two repaired
    capacities. *)
Lemma failed_tw_generate_keeps_demand_witness :
  ∃ self',
    GeneratorTW_CS_generate (H := ScriptedSource) 1 (10 ^ 400) 100 100
      (__init__ 3) [0; 0; 0; 0; 0; 0; 0; 0; 0; 0; 0; 0; 0; 0; 10 ^ 399]
    = (self', None) ∧
    (∃ C, self_C self' = Some C ∧
          dict_get C 0 = Some (Float (Fnum 101)) ∧
          dict_get C 1 = Some (Float (Fnum 101)) ∧
          dict_get C 2 = Some (Int (1 + 10 ^ 399))) ∧
    self_T self' = 3 ∧ self_d self' = None ∧
    tw_raise_outcome (__init__ 3) 1 (10 ^ 400) 100 100 self'.
Proof.
  eexists. split; [vm_compute; reflexivity|].
  split; [eexists; split; [reflexivity|by vm_compute]|].
  apply (failed_tw_generate_keeps_demand (H := ScriptedSource) (__init__ 3) _
           1 (10 ^ 400) 100 100
           [0; 0; 0; 0; 0; 0; 0; 0; 0; 0; 0; 0; 0; 0; 10 ^ 399]).
  left. vm_compute. reflexivity.
Defined.

Lemma printData_shows_dataset_witness :
  ∃ self' g',
    GeneratorTW_CS_generate (H := ScriptedSource) 1 6 0 4 (__init__ 2)
      [2; 7; 1; 8; 2; 8; 3; 5] = (self', Some ((), g')) ∧
    ∃ df d C h p s,
      printData self' g' = (self', Some (df, g')) ∧
      self_d self' = Some d ∧ self_C self' = Some C ∧ self_h self' = Some h ∧
      self_p self' = Some p ∧ self_s self' = Some s ∧
      table_of column_of 2 df d C h p s.
Proof.
  eexists _, _. split; [vm_compute; reflexivity|].
  apply (proj2 (printData_shows_dataset (H := ScriptedSource)
                  1 6 0 4 [2; 7; 1; 8; 2; 8; 3; 5] []) (__init__ 2)).
  left. vm_compute. reflexivity.
Defined.

(** The table of a small base instance, written out. *)
Example printData_example :
  ∃ self' g',
    Generator_generate (H := ScriptedSource) 1 6 (__init__ 2)
      [2; 7; 1; 8; 2; 8; 5; 2; 1; 4] = (self', Some ((), g')) ∧
    printData self' g'
    = (self', Some (MkDataFrame (Some "T") [0; 1]
                      [("d", [Int 6; Int 3]); ("C", [Int 8; Int 5]);
                       ("h", [Int 3; Int 2]); ("p", [Int 2; Int 3]);
                       ("s", [Int 3; Int 3])], g')).
Proof.
  eexists _, _. split; [vm_compute; reflexivity|]. vm_compute. reflexivity.
Qed.

